(** * go-rpc: a shallow embedding of the RPC framework and its properties

    The development follows the Go packages of the repository:
    [Codec] and [Opt] (wire header and handshake option), [Server]
    (service registration, dispatch, handler timeout), [Client] (the call
    multiplexer), [Registry] (heartbeat table) and [XClient] (discovery and
    load balancing).  Machine integers are [Z] with their wrap-around written
    out, Go maps are [gmap]s, Go pointers are indices into an explicit store,
    and whatever the environment decides (the clock, codec results, the
    scheduler) is an explicit argument of the embedded function. *)

From Stdlib Require Import ZArith Lia Ascii String List Sorted Permutation.
From stdpp Require Import base gmap strings list fin_maps sorting.

Open Scope string_scope.
Open Scope list_scope.
Open Scope Z_scope.

(* ===================================================================== *)
(** * Part I: the model                                                   *)
(* ===================================================================== *)

(** ** Machine integers and time *)

(** [uint64] arithmetic wraps modulo 2^64; Go's [int] is 64 bits wide and
    wraps in two's complement. *)
Definition uint64_mod : Z := 2 ^ 64.
Definition wrap_uint64 (z : Z) : Z := z mod uint64_mod.

Definition int_min : Z := - 2 ^ 63.
Definition int_max : Z := 2 ^ 63 - 1.
Definition wrap_int (z : Z) : Z := (z + 2 ^ 63) mod 2 ^ 64 - 2 ^ 63.

(** [time.Duration] counts nanoseconds. *)
Definition Nanosecond : Z := 1.
Definition Second : Z := 1000000000 * Nanosecond.
Definition Minute : Z := 60 * Second.

(** ** Go's order on strings

    [sort.Strings] orders strings by [<], the bytewise lexicographic order,
    which is [String.compare]. *)
Definition string_le (s1 s2 : string) : Prop := String.leb s1 s2 = true.
Definition string_lt (s1 s2 : string) : Prop := String.ltb s1 s2 = true.

#[global] Instance string_le_dec (s1 s2 : string) : Decision (string_le s1 s2).
Proof. unfold string_le. apply _. Defined.

#[global] Instance string_lt_dec (s1 s2 : string) : Decision (string_lt s1 s2).
Proof. unfold string_lt. apply _. Defined.

(** [sort.Strings]: the library routine, modelled by a sort for the same
    order. *)
Definition sort_Strings (l : list string) : list string :=
  merge_sort string_le l.

(** ** Unicode: the first rune of a name

    [utf8.DecodeRuneInString]: the first rune of a string and its width in
    bytes.  The empty string gives [(RuneError, 0)], an encoding that is
    not valid UTF-8 (a stray continuation byte, an overlong form, a
    surrogate, a value above U+10FFFF, a sequence cut short) gives
    [(RuneError, 1)]. *)
Definition RuneError : Z := 0xFFFD.

Definition byte_at (s : string) (i : nat) : option Z :=
  (λ c, Z.of_N (N_of_ascii c)) <$> String.get i s.

Definition between (lo hi b : Z) : bool := (lo <=? b) && (b <=? hi).

(** The table [first] of package [utf8]: for a leading byte, the width of
    the sequence and the range its second byte must be in; [None] for a
    byte that starts no multi-byte sequence. *)
Definition utf8_first (s0 : Z) : option (nat * (Z * Z)) :=
  if between 0xC2 0xDF s0 then Some (2%nat, (0x80, 0xBF))
  else if s0 =? 0xE0 then Some (3%nat, (0xA0, 0xBF))
  else if between 0xE1 0xEC s0 then Some (3%nat, (0x80, 0xBF))
  else if s0 =? 0xED then Some (3%nat, (0x80, 0x9F))
  else if between 0xEE 0xEF s0 then Some (3%nat, (0x80, 0xBF))
  else if s0 =? 0xF0 then Some (4%nat, (0x90, 0xBF))
  else if between 0xF1 0xF3 s0 then Some (4%nat, (0x80, 0xBF))
  else if s0 =? 0xF4 then Some (4%nat, (0x80, 0x8F))
  else None.

Definition DecodeRuneInString (s : string) : Z * nat :=
  match byte_at s 0 with
  | None => (RuneError, 0%nat)
  | Some s0 =>
      if s0 <? 0x80 then (s0, 1%nat)
      else
        match utf8_first s0 with
        | None => (RuneError, 1%nat)
        | Some (sz, (lo, hi)) =>
            if (String.length s <? sz)%nat then (RuneError, 1%nat)
            else
              match byte_at s 1, byte_at s 2, byte_at s 3 with
              | Some s1, s2, s3 =>
                  if negb (between lo hi s1) then (RuneError, 1%nat)
                  else if (sz <=? 2)%nat
                  then (Z.lor (Z.shiftl (Z.land s0 0x1F) 6) (Z.land s1 0x3F), 2%nat)
                  else
                    match s2 with
                    | Some s2 =>
                        if negb (between 0x80 0xBF s2) then (RuneError, 1%nat)
                        else if (sz <=? 3)%nat
                        then (Z.lor (Z.shiftl (Z.land s0 0x0F) 12)
                                (Z.lor (Z.shiftl (Z.land s1 0x3F) 6) (Z.land s2 0x3F)),
                              3%nat)
                        else
                          match s3 with
                          | Some s3 =>
                              if negb (between 0x80 0xBF s3) then (RuneError, 1%nat)
                              else (Z.lor (Z.shiftl (Z.land s0 0x07) 18)
                                      (Z.lor (Z.shiftl (Z.land s1 0x3F) 12)
                                         (Z.lor (Z.shiftl (Z.land s2 0x3F) 6)
                                                (Z.land s3 0x3F))),
                                    4%nat)
                          | None => (RuneError, 1%nat)
                          end
                    | None => (RuneError, 1%nat)
                    end
              | None, _, _ => (RuneError, 1%nat)
              end
        end
  end.

(** [unicode.Upper], the code points of category Lu above Latin-1, as
    ranges [(Lo, Hi, Stride)] in ascending order (Unicode 15.0.0, the
    version of the tables of package [unicode] in Go 1.21). *)
Definition Upper : list (Z * Z * Z) :=
  [
   (0x0100, 0x0136, 2); (0x0139, 0x0147, 2); (0x014A, 0x0178, 2);
   (0x0179, 0x017D, 2); (0x0181, 0x0182, 1); (0x0184, 0x0184, 1);
   (0x0186, 0x0187, 1); (0x0189, 0x018B, 1); (0x018E, 0x0191, 1);
   (0x0193, 0x0194, 1); (0x0196, 0x0198, 1); (0x019C, 0x019D, 1);
   (0x019F, 0x01A0, 1); (0x01A2, 0x01A6, 2); (0x01A7, 0x01A7, 1);
   (0x01A9, 0x01A9, 1); (0x01AC, 0x01AC, 1); (0x01AE, 0x01AF, 1);
   (0x01B1, 0x01B3, 1); (0x01B5, 0x01B5, 1); (0x01B7, 0x01B8, 1);
   (0x01BC, 0x01BC, 1); (0x01C4, 0x01C4, 1); (0x01C7, 0x01C7, 1);
   (0x01CA, 0x01CA, 1); (0x01CD, 0x01DB, 2); (0x01DE, 0x01EE, 2);
   (0x01F1, 0x01F1, 1); (0x01F4, 0x01F4, 1); (0x01F6, 0x01F8, 1);
   (0x01FA, 0x0232, 2); (0x023A, 0x023B, 1); (0x023D, 0x023E, 1);
   (0x0241, 0x0241, 1); (0x0243, 0x0246, 1); (0x0248, 0x024E, 2);
   (0x0370, 0x0370, 1); (0x0372, 0x0372, 1); (0x0376, 0x0376, 1);
   (0x037F, 0x037F, 1); (0x0386, 0x0386, 1); (0x0388, 0x038A, 1);
   (0x038C, 0x038C, 1); (0x038E, 0x038F, 1); (0x0391, 0x03A1, 1);
   (0x03A3, 0x03AB, 1); (0x03CF, 0x03CF, 1); (0x03D2, 0x03D4, 1);
   (0x03D8, 0x03EE, 2); (0x03F4, 0x03F4, 1); (0x03F7, 0x03F7, 1);
   (0x03F9, 0x03FA, 1); (0x03FD, 0x042F, 1); (0x0460, 0x0480, 2);
   (0x048A, 0x04C0, 2); (0x04C1, 0x04CD, 2); (0x04D0, 0x052E, 2);
   (0x0531, 0x0556, 1); (0x10A0, 0x10C5, 1); (0x10C7, 0x10C7, 1);
   (0x10CD, 0x10CD, 1); (0x13A0, 0x13F5, 1); (0x1C90, 0x1CBA, 1);
   (0x1CBD, 0x1CBF, 1); (0x1E00, 0x1E94, 2); (0x1E9E, 0x1EFE, 2);
   (0x1F08, 0x1F0F, 1); (0x1F18, 0x1F1D, 1); (0x1F28, 0x1F2F, 1);
   (0x1F38, 0x1F3F, 1); (0x1F48, 0x1F4D, 1); (0x1F59, 0x1F5F, 2);
   (0x1F68, 0x1F6F, 1); (0x1FB8, 0x1FBB, 1); (0x1FC8, 0x1FCB, 1);
   (0x1FD8, 0x1FDB, 1); (0x1FE8, 0x1FEC, 1); (0x1FF8, 0x1FFB, 1);
   (0x2102, 0x2102, 1); (0x2107, 0x2107, 1); (0x210B, 0x210D, 1);
   (0x2110, 0x2112, 1); (0x2115, 0x2115, 1); (0x2119, 0x211D, 1);
   (0x2124, 0x212A, 2); (0x212B, 0x212D, 1); (0x2130, 0x2133, 1);
   (0x213E, 0x213F, 1); (0x2145, 0x2145, 1); (0x2183, 0x2183, 1);
   (0x2C00, 0x2C2F, 1); (0x2C60, 0x2C60, 1); (0x2C62, 0x2C64, 1);
   (0x2C67, 0x2C6D, 2); (0x2C6E, 0x2C70, 1); (0x2C72, 0x2C72, 1);
   (0x2C75, 0x2C75, 1); (0x2C7E, 0x2C80, 1); (0x2C82, 0x2CE2, 2);
   (0x2CEB, 0x2CEB, 1); (0x2CED, 0x2CED, 1); (0x2CF2, 0x2CF2, 1);
   (0xA640, 0xA66C, 2); (0xA680, 0xA69A, 2); (0xA722, 0xA72E, 2);
   (0xA732, 0xA76E, 2); (0xA779, 0xA77D, 2); (0xA77E, 0xA786, 2);
   (0xA78B, 0xA78B, 1); (0xA78D, 0xA78D, 1); (0xA790, 0xA790, 1);
   (0xA792, 0xA792, 1); (0xA796, 0xA7AA, 2); (0xA7AB, 0xA7AE, 1);
   (0xA7B0, 0xA7B4, 1); (0xA7B6, 0xA7C4, 2); (0xA7C5, 0xA7C7, 1);
   (0xA7C9, 0xA7C9, 1); (0xA7D0, 0xA7D0, 1); (0xA7D6, 0xA7D6, 1);
   (0xA7D8, 0xA7D8, 1); (0xA7F5, 0xA7F5, 1); (0xFF21, 0xFF3A, 1);
   (0x10400, 0x10427, 1); (0x104B0, 0x104D3, 1); (0x10570, 0x1057A, 1);
   (0x1057C, 0x1058A, 1); (0x1058C, 0x10592, 1); (0x10594, 0x10595, 1);
   (0x10C80, 0x10CB2, 1); (0x118A0, 0x118BF, 1); (0x16E40, 0x16E5F, 1);
   (0x1D400, 0x1D419, 1); (0x1D434, 0x1D44D, 1); (0x1D468, 0x1D481, 1);
   (0x1D49C, 0x1D49C, 1); (0x1D49E, 0x1D49F, 1); (0x1D4A2, 0x1D4A2, 1);
   (0x1D4A5, 0x1D4A6, 1); (0x1D4A9, 0x1D4AC, 1); (0x1D4AE, 0x1D4B5, 1);
   (0x1D4D0, 0x1D4E9, 1); (0x1D504, 0x1D505, 1); (0x1D507, 0x1D50A, 1);
   (0x1D50D, 0x1D514, 1); (0x1D516, 0x1D51C, 1); (0x1D538, 0x1D539, 1);
   (0x1D53B, 0x1D53E, 1); (0x1D540, 0x1D544, 1); (0x1D546, 0x1D546, 1);
   (0x1D54A, 0x1D550, 1); (0x1D56C, 0x1D585, 1); (0x1D5A0, 0x1D5B9, 1);
   (0x1D5D4, 0x1D5ED, 1); (0x1D608, 0x1D621, 1); (0x1D63C, 0x1D655, 1);
   (0x1D670, 0x1D689, 1); (0x1D6A8, 0x1D6C0, 1); (0x1D6E2, 0x1D6FA, 1);
   (0x1D71C, 0x1D734, 1); (0x1D756, 0x1D76E, 1); (0x1D790, 0x1D7A8, 1);
   (0x1D7CA, 0x1D7CA, 1); (0x1E900, 0x1E921, 1)
  ].

(** [unicode.Is]: the rune is in one of the ranges. *)
Definition Is (tab : list (Z * Z * Z)) (r : Z) : bool :=
  existsb (λ '(lo, hi, stride), between lo hi r && ((r - lo) mod stride =? 0)) tab.

(** [unicode.IsUpper]: the letters of category Lu.  Latin-1 is looked up
    in the table of properties, where the upper-case letters are A to Z,
    U+00C0 to U+00D6 and U+00D8 to U+00DE. *)
Definition MaxLatin1 : Z := 0xFF.

Definition IsUpper (r : Z) : bool :=
  if between 0 MaxLatin1 r
  then between 0x41 0x5A r || between 0xC0 0xD6 r || between 0xD8 0xDE r
  else Is Upper r.

(** [ast.IsExported]: the first rune of the name is an upper-case
    letter. *)
Definition IsExported (name : string) : bool :=
  IsUpper (DecodeRuneInString name).1.

(* --------------------------------------------------------------------- *)
(** ** Packages codec and option *)

Module Codec.

Record Header := {
  ServiceMethod : string;  (* "Service.Method" *)
  Seq : Z;                 (* uint64 request number *)
  Error : string           (* empty on success *)
}.

Definition GobType : string := "application/gob".
Definition JsonType : string := "application/json".

(** The codecs that have a constructor. *)
Inductive NewCodecFunc := NewGobCodec.

(** [NewCodecFuncMap], as [init] fills it: the gob codec only. *)
Definition NewCodecFuncMap : gmap string NewCodecFunc :=
  {[ GobType := NewGobCodec ]}.

End Codec.

Module Opt.

Definition MagicNumber : Z := 0x3bef5c.

Record Option := {
  OptMagicNumber : Z;
  CodecType : string;
  ConnectTimeout : Z;
  HandleTimeout : Z
}.

Definition DefaultOption : Option :=
  {| OptMagicNumber := MagicNumber;
     CodecType := Codec.GobType;
     ConnectTimeout := 10 * Second;
     HandleTimeout := 0 |}.

End Opt.

(* --------------------------------------------------------------------- *)
(** ** Package registry *)

Module Registry.

Record ServerItem := {
  Addr : string;   (* instance address *)
  start : Z        (* time of the last heartbeat, in nanoseconds *)
}.

Record GoRegistry := {
  timeout : Z;
  servers : gmap string ServerItem
}.

Definition defaultPath : string := "/_gorpc_/registry".
Definition defaultTimeout : Z := 5 * Minute.

Definition NewRegistry (timeout : Z) : GoRegistry :=
  {| timeout := timeout; servers := ∅ |}.


(** [putServer]: insert the address, or refresh [start] of the entry
    that is already there.  [now] is the reading of [time.Now()]. *)
Definition putServer (now : Z) (addr : string) (r : GoRegistry) : GoRegistry :=
  match servers r !! addr with
  | None =>
      {| timeout := timeout r;
         servers := <[addr := {| Addr := addr; start := now |}]> (servers r) |}
  | Some s =>
      {| timeout := timeout r;
         servers := <[addr := {| Addr := Addr s; start := now |}]> (servers r) |}
  end.

(** The test of the loop body:
    [r.timeout == 0 || s.start.Add(r.timeout).After(time.Now())]. *)
Definition unexpired (ttl now : Z) (s : ServerItem) : bool :=
  (ttl =? 0) || (now <? start s + ttl).

(** One iteration of [for addr, s := range r.servers]. *)
Definition aliveServers_body (ttl now : Z)
    (acc : list string * gmap string ServerItem) (e : string * ServerItem)
    : list string * gmap string ServerItem :=
  if unexpired ttl now e.2
  then (acc.1 ++ [e.1], acc.2)
  else (acc.1, delete e.1 acc.2).

(** [aliveServers].  Go visits the entries of a map in an unspecified
    order: [order] is the order of this visit, a permutation of the
    table's entries.  The whole call runs under the registry mutex and
    [now] is the clock reading of the query. *)
Definition aliveServers (now : Z) (order : list (string * ServerItem))
    (r : GoRegistry) : list string * GoRegistry :=
  let res := fold_left (aliveServers_body (timeout r) now) order ([], servers r) in
  (sort_Strings res.1, {| timeout := timeout r; servers := res.2 |}).

(** The entries the loop of [aliveServers] keeps. *)
Definition kept (ttl now : Z) (e : string * ServerItem) : Prop :=
  unexpired ttl now e.2 = true.

#[global] Instance kept_dec ttl now e : Decision (kept ttl now e).
Proof. unfold kept. apply _. Defined.


(** How far the heartbeat goroutine has come: it has returned, it is
    waiting for the next tick, or it has panicked, which ends the
    process. *)
Inductive goroutine_end := Returned | Waiting | Panicked.

(** [sendHeartbeat]: one POST to the registry.  [request_ok] tells
    whether [http.NewRequest] accepts the registry URL: its error is
    dropped, so for a URL that does not parse [req] is nil and
    [req.Header.Set] panics ([None]).  [post] is what [httpClient.Do]
    returns, [None] for success; a failure is logged and returned. *)
Definition sendHeartbeat (request_ok : bool) (post : option string)
    : option (option string) :=
  if request_ok then Some post else None.

(** The loop of the heartbeat goroutine,
    [for err != nil { <-t.C; err = sendHeartbeat(registry, addr) }].
    [ticks] holds the result of the POST made at each tick the ticker
    delivers; the loop is followed as long as ticks are delivered.  The
    result is the number of POSTs made so far and how far the goroutine
    has come. *)
Fixpoint Heartbeat_loop (request_ok : bool) (err : option string)
    (ticks : list (option string)) (posts : nat) : nat * goroutine_end :=
  match err with
  | None => (posts, Returned)
  | Some _ =>
      match ticks with
      | [] => (posts, Waiting)
      | post :: ticks' =>
          match sendHeartbeat request_ok post with
          | None => (posts, Panicked)
          | Some err' => Heartbeat_loop request_ok err' ticks' (S posts)
          end
      end
  end.

(** The interval the ticker is made with. *)
Definition Heartbeat_interval (duration : Z) : Z :=
  if decide (duration = 0) then Second else duration.

(** [Heartbeat]: [first] is the result of the immediate POST.  After it
    the goroutine makes the ticker, and [time.NewTicker] panics when the
    interval is not positive. *)
Definition Heartbeat (request_ok : bool) (duration : Z) (first : option string)
    (ticks : list (option string)) : Z * (nat * goroutine_end) :=
  (Heartbeat_interval duration,
   match sendHeartbeat request_ok first with
   | None => (0%nat, Panicked)
   | Some err =>
       if decide (Heartbeat_interval duration ≤ 0) then (1%nat, Panicked)
       else Heartbeat_loop request_ok err ticks 1
   end).

(** What the specification asks of the helper: a POST at once and one
    more at every tick, whatever the results. *)
Definition spec_Heartbeat_posts (ticks : list (option string)) : nat :=
  S (length ticks).

End Registry.

(* --------------------------------------------------------------------- *)
(** ** Package xclient: discovery *)

Module XClient.

(** [SelectMode] is an [int]; two values are named. *)
Definition SelectMode := Z.
Definition RandomSelect : SelectMode := 0.
Definition RoundRobinSelect : SelectMode := 1.

Definition MaxInt32 : Z := 2 ^ 31 - 1.

Inductive error :=
| ErrNoServers        (* "rpc discovery: 没有发现可以访问的实例" *)
| ErrUnsupportedMode. (* "rpc discovery: 不支持给定的负载均衡模式" *)

(** The outcome of a call that may index a slice out of range. *)
Inductive result (A : Type) :=
| Ok (a : A)
| Err (e : error)
| IndexPanic.
Arguments Ok {A} a.
Arguments Err {A} e.
Arguments IndexPanic {A}.

Section Discovery.
(** The random source [*rand.Rand]: its state, and [Intn]. *)
Variable Rand : Type.
Variable Intn : Rand → Z → Z * Rand.

Record MultiServersDiscovery := {
  r : Rand;
  servers : list string;
  index : Z
}.

(** [m.servers[i]] *)
Definition at_index (l : list string) (i : Z) : option string :=
  if decide (0 ≤ i) then l !! Z.to_nat i else None.

Definition Refresh (m : MultiServersDiscovery) : MultiServersDiscovery := m.

Definition Update (servers : list string) (m : MultiServersDiscovery)
    : MultiServersDiscovery :=
  {| r := r m; servers := servers; index := index m |}.

(** [Get].  Go's [%] truncates toward zero: [Z.rem]. *)
Definition Get (mode : SelectMode) (m : MultiServersDiscovery)
    : result string * MultiServersDiscovery :=
  let n := Z.of_nat (length (servers m)) in
  if decide (n = 0) then (Err ErrNoServers, m)
  else if decide (mode = RandomSelect) then
    let '(k, r') := Intn (r m) n in
    let m' := {| r := r'; servers := servers m; index := index m |} in
    match at_index (servers m) k with
    | Some s => (Ok s, m')
    | None => (IndexPanic, m')
    end
  else if decide (mode = RoundRobinSelect) then
    match at_index (servers m) (Z.rem (index m) n) with
    | Some s =>
        (Ok s, {| r := r m; servers := servers m;
                  index := Z.rem (wrap_int (index m + 1)) n |})
    | None => (IndexPanic, m)
    end
  else (Err ErrUnsupportedMode, m).

Definition GetAll (m : MultiServersDiscovery) : list string := servers m.

(** [NewMultiServersDiscovery]; [seeded] is the generator made from
    the time stamp. *)
Definition NewMultiServersDiscovery (seeded : Rand) (servers : list string)
    : MultiServersDiscovery :=
  let '(k, r') := Intn seeded (MaxInt32 - 1) in
  {| r := r'; servers := servers; index := k |}.

(** [k] successive calls of [Get(RoundRobinSelect)]: their results in
    order, and the final state. *)
Fixpoint Get_rounds (k : nat) (m : MultiServersDiscovery)
    : list (result string) * MultiServersDiscovery :=
  match k with
  | O => ([], m)
  | S k' =>
      let '(x, m') := Get RoundRobinSelect m in
      let '(xs, m'') := Get_rounds k' m' in
      (x :: xs, m'')
  end.

(** The cursor made by the constructor and moved by [Get] and [Update]
    stays in this range. *)
Definition cursor_ok (m : MultiServersDiscovery) : Prop :=
  0 ≤ index m < int_max.
End Discovery.

Arguments r {Rand} _.
Arguments servers {Rand} _.
Arguments index {Rand} _.
Arguments Build_MultiServersDiscovery {Rand} _ _ _.
Arguments Update {Rand} _ _.
Arguments GetAll {Rand} _.
Arguments cursor_ok {Rand} _.

End XClient.

(* --------------------------------------------------------------------- *)
(** ** Package server: services *)

Module Server.

(** *** The part of [reflect] that registration uses *)

(** The kinds of the types that have no element type, and the kinds of
    those that have one. *)
Inductive plain_kind :=
| Bool | Int | Uint64 | Float64 | String_ | Struct | Interface | Func.

Inductive Kind :=
| Plain (k : plain_kind)
| Array | Chan | Map | Ptr | Slice.

Coercion Plain : plain_kind >-> Kind.

(** A type is predeclared ([int], [string], [error], ...), a struct,
    interface or function literal, declared in a package with an
    underlying type ([type Foo int], [type Table map[string]int]), or built
    from an element type. *)
Inductive rtype :=
| Predeclared (name : string) (k : plain_kind)
| Literal (k : plain_kind)
| Declared (pkg name : string) (underlying : rtype)
| PtrTo (elem : rtype)
| SliceOf (elem : rtype)
| ArrayOf (len : Z) (elem : rtype)
| ChanOf (elem : rtype)
| MapOf (key elem : rtype).

#[global] Instance plain_kind_eq_dec : EqDecision plain_kind.
Proof. solve_decision. Defined.

#[global] Instance Kind_eq_dec : EqDecision Kind.
Proof. solve_decision. Defined.

#[global] Instance rtype_eq_dec : EqDecision rtype.
Proof. solve_decision. Defined.

Definition Name (t : rtype) : string :=
  match t with
  | Predeclared name _ | Declared _ name _ => name
  | _ => ""
  end.

Definition PkgPath (t : rtype) : string :=
  match t with
  | Declared pkg _ _ => pkg
  | _ => ""
  end.

(** [Type.Kind()]: a declared type has the kind of its underlying
    type. *)
Fixpoint KindOf (t : rtype) : Kind :=
  match t with
  | Predeclared _ k | Literal k => Plain k
  | Declared _ _ u => KindOf u
  | PtrTo _ => Ptr
  | SliceOf _ => Slice
  | ArrayOf _ _ => Array
  | ChanOf _ => Chan
  | MapOf _ _ => Map
  end.

(** [Type.Elem()]: the element type of an array, channel, map, pointer
    or slice type, declared or not; it panics ([None]) on a type of any
    other kind. *)
Fixpoint Elem (t : rtype) : option rtype :=
  match t with
  | Predeclared _ _ | Literal _ => None
  | Declared _ _ u => Elem u
  | PtrTo e | SliceOf e | ArrayOf _ e | ChanOf e | MapOf _ e => Some e
  end.

(** The type [error], which the code obtains by reflection on a nil
    pointer to it. *)
Definition errorType : rtype := Predeclared "error" Interface.

(** Values that travel as arguments and replies. *)
Inductive value :=
| VUnit
| VInt (z : Z)
| VString (s : string)
| VPair (a b : value).

(** [reflect.Method]: the name, the signature with the receiver as
    input 0, and the function: from receiver, argument and reply to the
    reply it leaves and the error it returns ([None] for [nil]). *)
Record Method := {
  MethodName : string;
  In : list rtype;
  Out : list rtype;
  MethodFunc : value → value → value → value * option string
}.

(** The receiver's type: its name as [reflect.Indirect(rcvr).Type()]
    gives it, and its declared method set. *)
Record rcvr_type := {
  TypeName : string;
  method_set : list Method
}.

(** [Type.NumMethod] and [Type.Method] see the exported methods only. *)
Definition reflect_methods (t : rcvr_type) : list Method :=
  filter (λ m, IsExported (MethodName m) = true) (method_set t).

(** *** methodType and service *)

Record methodType := {
  method : Method;
  ArgType : rtype;
  ReplyType : rtype;
  numCalls : Z   (* uint64 *)
}.

Definition NumCalls (m : methodType) : Z := numCalls m.

(** What [newReplyv] allocates: a pointer to a zero value, to an empty
    map or to an empty slice of the element type. *)
Inductive reply_container :=
| ZeroOf (t : rtype)
| MadeMap (t : rtype)
| MadeSlice (t : rtype).

(** [newReplyv]; [None] when [m.ReplyType.Elem()] panics. *)
Definition newReplyv (m : methodType) : option reply_container :=
  match Elem (ReplyType m) with
  | None => None
  | Some e =>
      Some (match KindOf e with
            | Map => MadeMap e
            | Slice => MadeSlice e
            | _ => ZeroOf e
            end)
  end.

Record service := {
  name : string;
  typ : rcvr_type;
  rcvr : value;
  methods : gmap string methodType   (* the field [method] *)
}.

Definition isExportedOrBuiltinType (t : rtype) : bool :=
  IsExported (Name t) || bool_decide (PkgPath t = "").

(** The first test of the loop body of [registerMethods]:
    [NumIn() != 3 || NumOut() != 1 || Out(0) != error]. *)
Definition signature_mismatch (m : Method) : bool :=
  bool_decide (length (In m) ≠ 3%nat)
  || bool_decide (length (Out m) ≠ 1%nat)
  || bool_decide (Out m !! 0%nat ≠ Some errorType).

(** The loop body of [registerMethods]: a method that fails a test is
    skipped, the others are stored under their name. *)
Definition registerMethods_body (acc : gmap string methodType) (m : Method)
    : gmap string methodType :=
  if signature_mismatch m then acc
  else
    match In m !! 1%nat, In m !! 2%nat with
    | Some argType, Some replyType =>
        if negb (isExportedOrBuiltinType argType)
           || negb (isExportedOrBuiltinType replyType)
        then acc
        else <[MethodName m := {| method := m; ArgType := argType;
                                  ReplyType := replyType; numCalls := 0 |}]> acc
    | _, _ => acc
    end.

(** The loop body keeps a method exactly when it passes both tests. *)
Definition retained (m : Method) : bool :=
  negb (signature_mismatch m) &&
  match In m !! 1%nat, In m !! 2%nat with
  | Some argType, Some replyType =>
      isExportedOrBuiltinType argType && isExportedOrBuiltinType replyType
  | _, _ => false
  end.

(** The descriptor stored for a method that is kept. *)
Definition descriptor (m : Method) : option methodType :=
  match In m !! 1%nat, In m !! 2%nat with
  | Some argType, Some replyType =>
      Some {| method := m; ArgType := argType; ReplyType := replyType;
              numCalls := 0 |}
  | _, _ => None
  end.

(** [registerMethods]: the method map of a receiver type. *)
Definition registerMethods (t : rcvr_type) : gmap string methodType :=
  fold_left registerMethods_body (reflect_methods t) ∅.

(** [newService]; [None] when the type name is not exported and
    [log.Fatalf] ends the process. *)
Definition newService (t : rcvr_type) (v : value) : option service :=
  if IsExported (TypeName t)
  then Some {| name := TypeName t; typ := t; rcvr := v;
               methods := registerMethods t |}
  else None.

(** [service.call]: the descriptor [m] is the entry of the method map
    under [mname]; its counter is incremented, then the method runs. *)
Definition call (s : service) (mname : string) (argv replyv : value)
    : option ((value * option string) * service) :=
  match methods s !! mname with
  | None => None
  | Some m =>
      let m' := {| method := method m; ArgType := ArgType m;
                   ReplyType := ReplyType m;
                   numCalls := wrap_uint64 (numCalls m + 1) |} in
      Some (MethodFunc (method m) (rcvr s) argv replyv,
            {| name := name s; typ := typ s; rcvr := rcvr s;
               methods := <[mname := m']> (methods s) |})
  end.

(** A sequence of invocations of one method through [call]; the results
    in order, and the service at the end. *)
Fixpoint call_all (s : service) (mname : string) (invs : list (value * value))
    : option (list (value * option string) * service) :=
  match invs with
  | [] => Some ([], s)
  | (argv, replyv) :: invs' =>
      match call s mname argv replyv with
      | None => None
      | Some (res, s') =>
          match call_all s' mname invs' with
          | None => None
          | Some (rs, s'') => Some (res :: rs, s'')
          end
      end
  end.

Definition succeeded (res : value * option string) : bool :=
  match res.2 with None => true | Some _ => false end.

(** The eligibility invariant of the specification, clause by clause. *)
Definition spec_eligible (m : Method) : Prop :=
  IsExported (MethodName m) = true ∧
  length (In m) = 3%nat ∧
  length (Out m) = 1%nat ∧
  Out m !! 0%nat = Some errorType ∧
  (∃ argType replyType,
     In m !! 1%nat = Some argType ∧ In m !! 2%nat = Some replyType ∧
     isExportedOrBuiltinType argType = true ∧
     isExportedOrBuiltinType replyType = true ∧
     KindOf replyType = Ptr).

(** The same without its last clause, the reply being a pointer. *)
Definition code_eligible (m : Method) : Prop :=
  IsExported (MethodName m) = true ∧
  length (In m) = 3%nat ∧
  length (Out m) = 1%nat ∧
  Out m !! 0%nat = Some errorType ∧
  (∃ argType replyType,
     In m !! 1%nat = Some argType ∧ In m !! 2%nat = Some replyType ∧
     isExportedOrBuiltinType argType = true ∧
     isExportedOrBuiltinType replyType = true).

(** *** Connections and the handshake *)

(** A goroutine either returns, or ends the process: [log.Fatal],
    [log.Fatalf] and [log.Fatalln] print and call [os.Exit(1)], after
    which no deferred function runs. *)
Inductive exec (A : Type) :=
| Returns (a : A)
| Exits (status : Z).
Arguments Returns {A} a.
Arguments Exits {A} status.

(** The body of a response: a reply value, or [invalidRequest]. *)
Inductive body :=
| Reply (v : value)
| invalidRequest.

(** What a connection delivers: the result of decoding the JSON option
    ([None] when [Decode] fails), then the request frames. *)
Record Conn := {
  handshake : option Opt.Option;
  requests : list (Codec.Header * value)
}.

(** The handshake of a connection fails: the option does not decode, its
    magic number is wrong, or its codec has no constructor. *)
Definition handshake_fails (conn : Conn) : Prop :=
  match handshake conn with
  | None => True
  | Some opt =>
      Opt.OptMagicNumber opt ≠ Opt.MagicNumber ∨
      Codec.NewCodecFuncMap !! Opt.CodecType opt = None
  end.

Section ServeConn.
(** The request pump, from the codec, the option and the frames to
    the responses written. *)
Variable serveCodec :
  Codec.NewCodecFunc → Opt.Option → list (Codec.Header * value) →
  exec (list (Codec.Header * body)).

(** [ServeConn].  [Returns rs]: the responses [rs] were written and
    the deferred [conn.Close()] has run. *)
Definition ServeConn (conn : Conn) : exec (list (Codec.Header * body)) :=
  match handshake conn with
  | None => Exits 1
  | Some opt =>
      if decide (Opt.OptMagicNumber opt ≠ Opt.MagicNumber) then Exits 1
      else
        match Codec.NewCodecFuncMap !! Opt.CodecType opt with
        | None => Exits 1
        | Some f => serveCodec f opt (requests conn)
        end
  end.

(** [Accept], with the connections served one after the other:
    [incoming] lists what [lis.Accept()] returns, [None] for an error.
    The result is the responses written per connection served, and the
    exit status if the process has ended. *)
Fixpoint Accept (incoming : list (option Conn))
    : list (list (Codec.Header * body)) * option Z :=
  match incoming with
  | [] => ([], None)
  | None :: _ => ([], Some 1)
  | Some conn :: rest =>
      match ServeConn conn with
      | Exits st => ([], Some st)
      | Returns rs =>
          let '(served, st) := Accept rest in (rs :: served, st)
      end
  end.
End ServeConn.

(** *** [handleRequest]: the invocation raced against the timer

    Two goroutines share the request header: the worker, and the
    goroutine it starts, which invokes the method, sends on [called],
    writes the response and sends on [sent].  Both channels are
    unbuffered, so a send and its receive are one joint step.  The timer
    of [time.After] may fire at any moment once the worker is at the
    select; when both cases are ready the select takes either.  Writes to
    the codec are taken to succeed.  The program points of each
    goroutine: *)
Inductive invoker_pc :=
| Invoking        (* in req.svc.call *)
| SendingCalled   (* at called <- struct{}{} *)
| Responding      (* before its sendResponse *)
| SendingSent     (* at sent <- struct{}{} *)
| InvokerDone.

Inductive worker_pc :=
| ReceivingCalled   (* timeout == 0: at <-called *)
| Selecting         (* at the select *)
| TimedOut          (* in the time.After case, header error set *)
| ReturnedTimeout   (* returned from the time.After case *)
| ReceivingSent     (* at <-sent *)
| ReturnedCalled.   (* returned after <-sent *)

Record hr_state := {
  invoker : invoker_pc;
  worker : worker_pc;
  timer_fired : bool;
  req_h : Codec.Header;                   (* the shared *req.h *)
  written : list (Codec.Header * body)    (* frames written to the codec *)
}.

Inductive hr_event :=
| CallReturns | TimerFires | TakeTimeout | SendTimeoutResponse
| TakeCalled | Respond | TakeSent.

#[global] Instance invoker_pc_eq_dec : EqDecision invoker_pc.
Proof. solve_decision. Defined.

#[global] Instance worker_pc_eq_dec : EqDecision worker_pc.
Proof. solve_decision. Defined.

Definition set_Error (e : string) (h : Codec.Header) : Codec.Header :=
  {| Codec.ServiceMethod := Codec.ServiceMethod h;
     Codec.Seq := Codec.Seq h;
     Codec.Error := e |}.

Section HandleRequest.
(** [Duration.String], the [%s] of the timeout message. *)
Variable duration_string : Z → string.
(** The request: its header, and what the method does with it: the
    reply it leaves and the error it returns. *)
Variable h0 : Codec.Header.
Variable reply : value.
Variable err : option string.
Variable timeout : Z.

Definition timeout_message : string :=
  String.append "rpc server: 处理请求超时, 超时时间为" (duration_string timeout).

Definition handleRequest_init : hr_state :=
  {| invoker := Invoking;
     worker := if decide (timeout = 0) then ReceivingCalled else Selecting;
     timer_fired := false;
     req_h := h0;
     written := [] |}.

(** [sendResponse]: the header as it is now goes out with the body. *)
Definition sendResponse (b : body) (s : hr_state) : list (Codec.Header * body) :=
  written s ++ [(req_h s, b)].

(** One step of the pair of goroutines; [None] when the event is not
    enabled in the state. *)
Definition hr_step (e : hr_event) (s : hr_state) : option hr_state :=
  match e with
  | CallReturns =>
      if decide (invoker s = Invoking)
      then Some {| invoker := SendingCalled; worker := worker s;
                   timer_fired := timer_fired s; req_h := req_h s;
                   written := written s |}
      else None
  | TimerFires =>
      if decide (worker s = Selecting ∧ timer_fired s = false)
      then Some {| invoker := invoker s; worker := worker s;
                   timer_fired := true; req_h := req_h s;
                   written := written s |}
      else None
  | TakeTimeout =>
      if decide (worker s = Selecting ∧ timer_fired s = true)
      then Some {| invoker := invoker s; worker := TimedOut;
                   timer_fired := timer_fired s;
                   req_h := set_Error timeout_message (req_h s);
                   written := written s |}
      else None
  | SendTimeoutResponse =>
      if decide (worker s = TimedOut)
      then Some {| invoker := invoker s; worker := ReturnedTimeout;
                   timer_fired := timer_fired s; req_h := req_h s;
                   written := sendResponse invalidRequest s |}
      else None
  | TakeCalled =>
      if decide (invoker s = SendingCalled ∧
                 (worker s = Selecting ∨ worker s = ReceivingCalled))
      then Some {| invoker := Responding; worker := ReceivingSent;
                   timer_fired := timer_fired s; req_h := req_h s;
                   written := written s |}
      else None
  | Respond =>
      if decide (invoker s = Responding)
      then
        match err with
        | Some e =>
            let s' := {| invoker := invoker s; worker := worker s;
                         timer_fired := timer_fired s;
                         req_h := set_Error e (req_h s);
                         written := written s |} in
            Some {| invoker := SendingSent; worker := worker s;
                    timer_fired := timer_fired s; req_h := req_h s';
                    written := sendResponse invalidRequest s' |}
        | None =>
            Some {| invoker := SendingSent; worker := worker s;
                    timer_fired := timer_fired s; req_h := req_h s;
                    written := sendResponse (Reply reply) s |}
        end
      else None
  | TakeSent =>
      if decide (invoker s = SendingSent ∧ worker s = ReceivingSent)
      then Some {| invoker := InvokerDone; worker := ReturnedCalled;
                   timer_fired := timer_fired s; req_h := req_h s;
                   written := written s |}
      else None
  end.

(** A schedule: the events in the order they happen. *)
Fixpoint hr_run (es : list hr_event) (s : hr_state) : option hr_state :=
  match es with
  | [] => Some s
  | e :: es' =>
      match hr_step e s with
      | Some s' => hr_run es' s'
      | None => None
      end
  end.

(** The response of the invocation, and the response of the timeout. *)
Definition call_response : Codec.Header * body :=
  match err with
  | Some e => (set_Error e h0, invalidRequest)
  | None => (h0, Reply reply)
  end.

Definition timeout_response : Codec.Header * body :=
  (set_Error timeout_message h0, invalidRequest).

(** What holds at each program point of the worker. *)
Definition hr_inv (s : hr_state) : Prop :=
  match worker s with
  | ReceivingCalled | Selecting =>
      written s = [] ∧ req_h s = h0 ∧
      (invoker s = Invoking ∨ invoker s = SendingCalled)
  | TimedOut =>
      written s = [] ∧
      req_h s = set_Error timeout_message h0 ∧
      (invoker s = Invoking ∨ invoker s = SendingCalled)
  | ReturnedTimeout =>
      written s = [timeout_response] ∧
      (invoker s = Invoking ∨ invoker s = SendingCalled)
  | ReceivingSent =>
      (invoker s = Responding ∧ written s = [] ∧ req_h s = h0) ∨
      (invoker s = SendingSent ∧ written s = [call_response])
  | ReturnedCalled =>
      invoker s = InvokerDone ∧ written s = [call_response]
  end.
End HandleRequest.

#[global] Instance hr_event_eq_dec : EqDecision hr_event.
Proof. solve_decision. Defined.

(** The race as the specification words it: the first to happen of the
    return of the invocation and the firing of the timer decides which
    response is sent. *)
Definition first_of_race (es : list hr_event) : option hr_event :=
  head (filter (λ e, e = CallReturns ∨ e = TimerFires) es).

End Server.

(* --------------------------------------------------------------------- *)
(** ** Package client *)

Module Client.

Definition value := Server.value.

(** Errors: the sentinel [ErrShutdown], errors made from a message, and
    the error [fmt.Errorf] makes of a format that is given no operand. *)
Inductive error :=
| ErrShutdown             (* errors.New("连接已经关闭") *)
| ErrorString (msg : string)
| Errorf (format : string).

#[global] Instance error_eq_dec : EqDecision error.
Proof. solve_decision. Defined.

(** A [*Call] is an index into the store of calls, a [chan *Call] an index
    into the store of channels. *)
Record Call := {
  Seq : Z;
  ServiceMethod : string;
  Args : value;
  Reply : value;
  Error : option error;
  Done : nat
}.

(** A channel: its capacity and the calls queued in its buffer. *)
Record Chan := {
  chan_cap : nat;
  chan_buf : list nat
}.

(** The client, the connection behind its codec, and the store its
    pointers refer to. *)
Record state := {
  cc_written : list (Codec.Header * value);  (* frames written by cc.Write *)
  cc_closed : bool;                          (* cc.Close has been called *)
  header : Codec.Header;
  seq : Z;                                   (* uint64 *)
  pending : gmap Z nat;
  closing : bool;
  shutdown : bool;
  calls : list Call;
  chans : list Chan
}.

Definition set_cc_written (w : list (Codec.Header * value)) (s : state) : state :=
  {| cc_written := w; cc_closed := cc_closed s; header := header s;
     seq := seq s; pending := pending s; closing := closing s;
     shutdown := shutdown s; calls := calls s; chans := chans s |}.

Definition set_cc_closed (b : bool) (s : state) : state :=
  {| cc_written := cc_written s; cc_closed := b; header := header s;
     seq := seq s; pending := pending s; closing := closing s;
     shutdown := shutdown s; calls := calls s; chans := chans s |}.

Definition set_header (h : Codec.Header) (s : state) : state :=
  {| cc_written := cc_written s; cc_closed := cc_closed s; header := h;
     seq := seq s; pending := pending s; closing := closing s;
     shutdown := shutdown s; calls := calls s; chans := chans s |}.

Definition set_seq (n : Z) (s : state) : state :=
  {| cc_written := cc_written s; cc_closed := cc_closed s; header := header s;
     seq := n; pending := pending s; closing := closing s;
     shutdown := shutdown s; calls := calls s; chans := chans s |}.

Definition set_pending (p : gmap Z nat) (s : state) : state :=
  {| cc_written := cc_written s; cc_closed := cc_closed s; header := header s;
     seq := seq s; pending := p; closing := closing s;
     shutdown := shutdown s; calls := calls s; chans := chans s |}.

Definition set_closing (b : bool) (s : state) : state :=
  {| cc_written := cc_written s; cc_closed := cc_closed s; header := header s;
     seq := seq s; pending := pending s; closing := b;
     shutdown := shutdown s; calls := calls s; chans := chans s |}.

Definition set_shutdown (b : bool) (s : state) : state :=
  {| cc_written := cc_written s; cc_closed := cc_closed s; header := header s;
     seq := seq s; pending := pending s; closing := closing s;
     shutdown := b; calls := calls s; chans := chans s |}.

Definition set_calls (l : list Call) (s : state) : state :=
  {| cc_written := cc_written s; cc_closed := cc_closed s; header := header s;
     seq := seq s; pending := pending s; closing := closing s;
     shutdown := shutdown s; calls := l; chans := chans s |}.

Definition set_chans (l : list Chan) (s : state) : state :=
  {| cc_written := cc_written s; cc_closed := cc_closed s; header := header s;
     seq := seq s; pending := pending s; closing := closing s;
     shutdown := shutdown s; calls := calls s; chans := l |}.

(** Assignments through a [*Call]. *)
Definition set_Seq (n : Z) (c : Call) : Call :=
  {| Seq := n; ServiceMethod := ServiceMethod c; Args := Args c;
     Reply := Reply c; Error := Error c; Done := Done c |}.

Definition set_Error (e : option error) (c : Call) : Call :=
  {| Seq := Seq c; ServiceMethod := ServiceMethod c; Args := Args c;
     Reply := Reply c; Error := e; Done := Done c |}.

Definition set_Reply (v : value) (c : Call) : Call :=
  {| Seq := Seq c; ServiceMethod := ServiceMethod c; Args := Args c;
     Reply := v; Error := Error c; Done := Done c |}.

Definition update_call (f : Call → Call) (c : nat) (s : state) : state :=
  set_calls (alter f c (calls s)) s.

(** How a call of a client method ends: it returns, it is parked at a
    channel operation that cannot proceed, or it panics.  The state is the
    one reached at that point. *)
Inductive outcome (A : Type) :=
| Returns (a : A) (s : state)
| Blocks (s : state)
| Panics (s : state).
Arguments Returns {A} a s.
Arguments Blocks {A} s.
Arguments Panics {A} s.

Definition final_state {A} (o : outcome A) : state :=
  match o with
  | Returns _ s | Blocks s | Panics s => s
  end.

(** [cap(done)], 0 for a channel that is not in the store. *)
Definition cap (s : state) (d : nat) : nat :=
  match chans s !! d with
  | Some ch => chan_cap ch
  | None => 0
  end.

(** [call.done()], the send [c.Done <- c].  It proceeds when the buffer
    has a free slot; when the buffer is full the goroutine is parked until
    a receiver takes a call from the channel, which [Blocks] records.  A
    send on a nil channel is parked for ever. *)
Definition done (c : nat) (s : state) : outcome unit :=
  match calls s !! c with
  | None => Panics s
  | Some call =>
      match chans s !! Done call with
      | None => Blocks s
      | Some ch =>
          if decide (length (chan_buf ch) < chan_cap ch)%nat
          then Returns tt
                 (set_chans (<[Done call :=
                                 {| chan_cap := chan_cap ch;
                                    chan_buf := chan_buf ch ++ [c] |}]> (chans s)) s)
          else Blocks s
      end
  end.

(** [make(chan *Call, n)]: a new channel in the store. *)
Definition make_chan (n : nat) (s : state) : nat * state :=
  (length (chans s),
   set_chans (chans s ++ [{| chan_cap := n; chan_buf := [] |}]) s).

(** [Close]; [close_err] is what [cc.Close()] returns. *)
Definition Close (close_err : option error) (s : state) : option error * state :=
  if closing s then (Some ErrShutdown, s)
  else (close_err, set_cc_closed true (set_closing true s)).

Definition IsAvailable (s : state) : bool :=
  negb (shutdown s) && negb (closing s).

(** [registerCall] *)
Definition registerCall (c : nat) (s : state) : (Z * option error) * state :=
  if closing s || shutdown s then ((0, Some ErrShutdown), s)
  else
    let s1 := update_call (set_Seq (seq s)) c s in
    let s2 := set_pending (<[seq s := c]> (pending s1)) s1 in
    let s3 := set_seq (wrap_uint64 (seq s2 + 1)) s2 in
    ((seq s, None), s3).

(** [removeCall] *)
Definition removeCall (k : Z) (s : state) : option nat * state :=
  (pending s !! k, set_pending (delete k (pending s)) s).

(** The loop of [terminateCalls], over the entries of [c.pending] in the
    order [order] in which the range visits them. *)
Fixpoint terminate_loop (err : error) (order : list (Z * nat)) (s : state)
    : outcome unit :=
  match order with
  | [] => Returns tt s
  | (_, c) :: rest =>
      match done c (update_call (set_Error (Some err)) c s) with
      | Returns _ s' => terminate_loop err rest s'
      | Blocks s' => Blocks s'
      | Panics s' => Panics s'
      end
  end.

(** [terminateCalls]; [order] is a permutation of the entries of the
    pending table. *)
Definition terminateCalls (order : list (Z * nat)) (err : error) (s : state)
    : outcome unit :=
  terminate_loop err order (set_shutdown true s).

(** [send]; [wr] is what [cc.Write] returns when it is reached.  A write
    that succeeds puts the frame on the connection. *)
Definition send (c : nat) (wr : option error) (s : state) : outcome unit :=
  match registerCall c s with
  | ((_, Some e), s1) => done c (update_call (set_Error (Some e)) c s1)
  | ((k, None), s1) =>
      match calls s1 !! c with
      | None => Panics s1
      | Some call =>
          let h := {| Codec.ServiceMethod := ServiceMethod call;
                      Codec.Seq := k; Codec.Error := "" |} in
          let s2 := set_header h s1 in
          match wr with
          | None => Returns tt (set_cc_written (cc_written s2 ++ [(h, Args call)]) s2)
          | Some e =>
              match removeCall k s2 with
              | (Some c', s3) => done c' (update_call (set_Error (Some e)) c' s3)
              | (None, s3) => Returns tt s3
              end
          end
      end
  end.

(** [Go]; [dn] is the [done] argument, [None] for [nil].  The result is
    the new [*Call]. *)
Definition Go (sm : string) (args reply : value) (dn : option nat)
    (wr : option error) (s : state) : outcome nat :=
  let chosen : option (nat * state) :=
    match dn with
    | None => Some (make_chan 1 s)
    | Some d => if decide (cap s d = 0%nat) then None else Some (d, s)
    end in
  match chosen with
  | None => Panics s
  | Some (d, s1) =>
      let c := length (calls s1) in
      let call := {| Seq := 0; ServiceMethod := sm; Args := args;
                     Reply := reply; Error := None; Done := d |} in
      match send c wr (set_calls (calls s1 ++ [call]) s1) with
      | Returns _ s2 => Returns c s2
      | Blocks s2 => Blocks s2
      | Panics s2 => Panics s2
      end
  end.

(** [<-ch]: take the call at the head of the buffer. *)
Definition recv (d : nat) (s : state) : option (nat * state) :=
  match chans s !! d with
  | Some {| chan_cap := n; chan_buf := c :: rest |} =>
      Some (c, set_chans (<[d := {| chan_cap := n; chan_buf := rest |}]> (chans s)) s)
  | _ => None
  end.

(** The method [Call] of the client, which makes a channel of capacity 1
    for [Go].  [ctx_done] tells whether [ctx.Done()] is ready when the
    select runs, [ctx_err] is [ctx.Err().Error()], and [pick_ctx] is the
    choice of the select when both cases are ready.  When neither is ready
    the caller waits. *)
Definition Client_Call (ctx_done pick_ctx : bool) (ctx_err : string)
    (sm : string) (args reply : value) (wr : option error) (s : state)
    : outcome (option error) :=
  let '(d, s0) := make_chan 1 s in
  match Go sm args reply (Some d) wr s0 with
  | Returns c s1 =>
      match calls s1 !! c with
      | None => Panics s1
      | Some call =>
          match recv (Done call) s1 with
          | Some (c', s2) =>
              if ctx_done && pick_ctx
              then Returns (Some (ErrorString (String.append "rpc client: 调用失败 " ctx_err)))
                     (removeCall (Seq call) s1).2
              else Returns (match calls s2 !! c' with
                            | Some call' => Error call'
                            | None => None
                            end) s2
          | None =>
              if ctx_done
              then Returns (Some (ErrorString (String.append "rpc client: 调用失败 " ctx_err)))
                     (removeCall (Seq call) s1).2
              else Blocks s1
          end
      end
  | Blocks s1 => Blocks s1
  | Panics s1 => Panics s1
  end.

(** One turn of the loop of [receive] after a header [h] has been read;
    [body_err] is what [ReadBody] returns and [v] the value it decodes into
    the reply.  The result tells whether the loop goes on. *)
Definition receive_turn (h : Codec.Header) (body_err : option string) (v : value)
    (s : state) : outcome (option string) :=
  match removeCall (Codec.Seq h) s with
  | (None, s1) => Returns body_err s1
  | (Some c, s1) =>
      if decide (Codec.Error h ≠ "")
      then
        match done c (update_call (set_Error (Some (Errorf (Codec.Error h)))) c s1) with
        | Returns _ s2 => Returns body_err s2
        | Blocks s2 => Blocks s2
        | Panics s2 => Panics s2
        end
      else
        let s2 :=
          match body_err with
          | Some e =>
              update_call
                (set_Error (Some (ErrorString (String.append "读取消息体出错 " e)))) c s1
          | None => update_call (set_Reply v) c s1
          end in
        match done c s2 with
        | Returns _ s3 => Returns body_err s3
        | Blocks s3 => Blocks s3
        | Panics s3 => Panics s3
        end
  end.

(** [newClientCodec] *)
Definition newClientCodec : state :=
  {| cc_written := []; cc_closed := false;
     header := {| Codec.ServiceMethod := ""; Codec.Seq := 0; Codec.Error := "" |};
     seq := 1; pending := ∅; closing := false; shutdown := false;
     calls := []; chans := [] |}.

(** What can happen to a client during its life. *)
Inductive op :=
| OpClose (close_err : option error)
| OpGo (sm : string) (args reply : value) (dn : option nat) (wr : option error)
| OpCall (ctx_done pick_ctx : bool) (ctx_err : string)
         (sm : string) (args reply : value) (wr : option error)
| OpMakeChan (n : nat)
| OpRemoveCall (k : Z)
| OpReceive (h : Codec.Header) (body_err : option string) (v : value)
| OpTerminate (order : list (Z * nat)) (err : error)
| OpRecv (d : nat).

Definition exec_op (o : op) (s : state) : state :=
  match o with
  | OpClose close_err => (Close close_err s).2
  | OpGo sm args reply dn wr => final_state (Go sm args reply dn wr s)
  | OpCall ctx_done pick_ctx ctx_err sm args reply wr =>
      final_state (Client_Call ctx_done pick_ctx ctx_err sm args reply wr s)
  | OpMakeChan n => (make_chan n s).2
  | OpRemoveCall k => (removeCall k s).2
  | OpReceive h body_err v => final_state (receive_turn h body_err v s)
  | OpTerminate order err => final_state (terminateCalls order err s)
  | OpRecv d => match recv d s with Some (_, s') => s' | None => s end
  end.

Definition exec_ops (os : list op) (s : state) : state :=
  fold_left (λ s o, exec_op o s) os s.

(** The number of signals for call [c] queued on channel [d]. *)
Definition signals (s : state) (d c : nat) : nat :=
  match chans s !! d with
  | Some ch => length (filter (λ x, x = c) (chan_buf ch))
  | None => 0
  end.

(** The close flags are never reset. *)
Definition flags_le (s s' : state) : Prop :=
  (closing s = true → closing s' = true) ∧
  (shutdown s = true → shutdown s' = true).


(** The channel [Go] uses: a fresh one of capacity 1 for [nil], the
    given one otherwise. *)
Definition Go_channel (dn : option nat) (s : state) : nat :=
  match dn with
  | None => length (chans s)
  | Some d => d
  end.


(** The [Done] channel of the call at [c]. *)
Definition Done_of (s : state) (c : nat) : option nat :=
  Done <$> calls s !! c.

(** The calls of [l] whose [Done] is the channel [d]. *)
Definition targets (s : state) (l : list nat) (d : nat) : list nat :=
  filter (λ c, Done_of s c = Some d) l.

(** Every call visited is in the store, with its channel. *)
Definition calls_valid (s : state) (l : list nat) : Prop :=
  ∀ c, c ∈ l → ∃ call ch, calls s !! c = Some call ∧ chans s !! Done call = Some ch.

(** Every channel has a free buffer slot for each visited call that is to
    be signalled on it. *)
Definition signals_fit (s : state) (l : list nat) : Prop :=
  ∀ d ch, chans s !! d = Some ch →
    (length (chan_buf ch) + length (targets s l d) ≤ chan_cap ch)%nat.

(** The channel after the calls [l] have been sent on it. *)
Definition add_signals (l : list nat) (ch : Chan) : Chan :=
  {| chan_cap := chan_cap ch; chan_buf := chan_buf ch ++ l |}.

(** The store is well formed: the pending calls are calls of the store,
    distinct entries of the table are distinct calls, the [Done] of every
    call is a channel of the store, and no buffer exceeds its capacity. *)
Definition client_wf (s : state) : Prop :=
  (∀ k c, pending s !! k = Some c → (c < length (calls s))%nat) ∧
  (∀ k1 k2 c, pending s !! k1 = Some c → pending s !! k2 = Some c → k1 = k2) ∧
  (∀ c call, calls s !! c = Some call → (Done call < length (chans s))%nat) ∧
  (∀ d ch, chans s !! d = Some ch → (length (chan_buf ch) ≤ chan_cap ch)%nat).

(** Every pending call has a channel of its own, with an empty buffer and
    a capacity of at least 1. *)
Definition own_channels (s : state) : Prop :=
  ∀ k c call, pending s !! k = Some c → calls s !! c = Some call →
    (∃ ch, chans s !! Done call = Some ch ∧ chan_buf ch = [] ∧
           (1 ≤ chan_cap ch)%nat) ∧
    (∀ k' c' call', pending s !! k' = Some c' → calls s !! c' = Some call' →
       Done call' = Done call → c' = c).

(** No two calls of the store share a channel, and the channel of every
    pending call is empty with a capacity of at least 1. *)
Definition channels_owned (s : state) : Prop :=
  (∀ c1 c2 call1 call2, calls s !! c1 = Some call1 → calls s !! c2 = Some call2 →
     Done call1 = Done call2 → c1 = c2) ∧
  (∀ k c call, pending s !! k = Some c → calls s !! c = Some call →
     ∃ ch, chans s !! Done call = Some ch ∧ chan_buf ch = [] ∧
           (1 ≤ chan_cap ch)%nat).

(** The operations of a client whose calls are all made with a [nil]
    [done] or through [Call], before [terminateCalls] runs. *)
Definition own_channel_op (o : op) : Prop :=
  match o with
  | OpGo _ _ _ dn _ => dn = None
  | OpTerminate _ _ => False
  | _ => True
  end.

(** The condition under which every send of [terminateCalls] can
    proceed: each channel has room for the signals of the pending calls
    that use it. *)
Definition pending_signals_fit (s : state) : Prop :=
  signals_fit s (map_to_list (pending s)).*2.

End Client.

(* --------------------------------------------------------------------- *)
(** ** Example data *)



(** A registry with the default TTL and four entries, of which at the
    time of five minutes one is past its TTL and one is exactly at it; and
    an order in which the table may be visited. *)
Definition four_servers_registry : Registry.GoRegistry :=
  {| Registry.timeout := Registry.defaultTimeout;
     Registry.servers :=
       {[ "tcp@a:1" := {| Registry.Addr := "tcp@a:1"; Registry.start := 2 * Minute |};
          "tcp@b:2" := {| Registry.Addr := "tcp@b:2"; Registry.start := 1 * Minute |};
          "tcp@c:3" := {| Registry.Addr := "tcp@c:3"; Registry.start := - (1 * Minute) |};
          "tcp@d:4" := {| Registry.Addr := "tcp@d:4"; Registry.start := 0 |} ]} |}.

Definition four_servers_order : list (string * Registry.ServerItem) :=
  [("tcp@c:3", {| Registry.Addr := "tcp@c:3"; Registry.start := - (1 * Minute) |});
   ("tcp@b:2", {| Registry.Addr := "tcp@b:2"; Registry.start := 1 * Minute |});
   ("tcp@d:4", {| Registry.Addr := "tcp@d:4"; Registry.start := 0 |});
   ("tcp@a:1", {| Registry.Addr := "tcp@a:1"; Registry.start := 2 * Minute |})].

(** Three servers, the cursor at 7. *)
Definition three_servers : XClient.MultiServersDiscovery unit :=
  XClient.Build_MultiServersDiscovery tt ["x"; "y"; "z"] 7.

(** A receiver with one method, [func (f Foo) Bad(arg int, reply int) error]:
    the reply is an [int], not a pointer. *)
Definition Bad : Server.Method :=
  {| Server.MethodName := "Bad";
     Server.In := [Server.Declared "main" "Foo" (Server.Predeclared "int" Server.Int);
                   Server.Predeclared "int" Server.Int;
                   Server.Predeclared "int" Server.Int];
     Server.Out := [Server.errorType];
     Server.MethodFunc := λ _ _ reply, (reply, None) |}.

Definition Foo_with_Bad : Server.rcvr_type :=
  {| Server.TypeName := "Foo"; Server.method_set := [Bad] |}.

(** [func (f Foo) Sum(args Args, reply *int) error], which always
    succeeds, and [func (f Foo) Fail(arg int, reply *int) error], which
    always returns an error. *)
Definition Sum : Server.Method :=
  {| Server.MethodName := "Sum";
     Server.In := [Server.Declared "main" "Foo" (Server.Predeclared "int" Server.Int);
                   Server.Declared "main" "Args" (Server.Literal Server.Struct);
                   Server.PtrTo (Server.Predeclared "int" Server.Int)];
     Server.Out := [Server.errorType];
     Server.MethodFunc := λ _ args reply,
       match args with
       | Server.VPair (Server.VInt a) (Server.VInt b) => (Server.VInt (a + b), None)
       | _ => (reply, None)
       end |}.

Definition Fail : Server.Method :=
  {| Server.MethodName := "Fail";
     Server.In := [Server.Declared "main" "Foo" (Server.Predeclared "int" Server.Int);
                   Server.Predeclared "int" Server.Int;
                   Server.PtrTo (Server.Predeclared "int" Server.Int)];
     Server.Out := [Server.errorType];
     Server.MethodFunc := λ _ _ reply, (reply, Some "failed") |}.

Definition Foo : Server.rcvr_type :=
  {| Server.TypeName := "Foo"; Server.method_set := [Sum; Fail] |}.

(** The service [newService] makes of [Foo], and the descriptor of
    [Sum] in it. *)
Definition Foo_service : Server.service :=
  {| Server.name := "Foo"; Server.typ := Foo; Server.rcvr := Server.VInt 0;
     Server.methods := Server.registerMethods Foo |}.

Definition Sum_descriptor : Server.methodType :=
  {| Server.method := Sum;
     Server.ArgType := Server.Declared "main" "Args" (Server.Literal Server.Struct);
     Server.ReplyType := Server.PtrTo (Server.Predeclared "int" Server.Int);
     Server.numCalls := 0 |}.

(** Two invocations of [Sum]. *)
Definition two_sums : list (Server.value * Server.value) :=
  [(Server.VPair (Server.VInt 3) (Server.VInt 4), Server.VInt 0);
   (Server.VPair (Server.VInt 1) (Server.VInt 2), Server.VInt 0)].

(** A request pump that answers every request with its argument. *)
Definition echo_serveCodec (f : Codec.NewCodecFunc) (opt : Opt.Option)
    (reqs : list (Codec.Header * Server.value))
    : Server.exec (list (Codec.Header * Server.body)) :=
  Server.Returns ((λ r, (r.1, Server.Reply r.2)) <$> reqs).

(** One request frame. *)
Definition one_request : list (Codec.Header * Server.value) :=
  [({| Codec.ServiceMethod := "Foo.Sum"; Codec.Seq := 1; Codec.Error := "" |},
    Server.VPair (Server.VInt 3) (Server.VInt 4))].

(** A connection whose option has the magic number 0, and one with the
    default option. *)
Definition bad_magic_conn : Server.Conn :=
  {| Server.handshake :=
       Some {| Opt.OptMagicNumber := 0; Opt.CodecType := Codec.GobType;
               Opt.ConnectTimeout := 0; Opt.HandleTimeout := 0 |};
     Server.requests := one_request |}.

Definition good_conn : Server.Conn :=
  {| Server.handshake := Some Opt.DefaultOption;
     Server.requests := one_request |}.

(** The request of the timeout test, and a [Duration.String] for it. *)
Definition sum_header : Codec.Header :=
  {| Codec.ServiceMethod := "Bar.Timeout"; Codec.Seq := 1; Codec.Error := "" |}.

Definition one_second_string (d : Z) : string := "1s".

(** A new client after [Close]. *)
Definition closed_client : Client.state :=
  (Client.Close None Client.newClientCodec).2.

(** Two calls made with [Go] and a [nil] [done], both pending. *)
Definition two_pending : Client.state :=
  Client.exec_ops
    [Client.OpGo "Foo.Sum" (Server.VInt 1) (Server.VInt 0) None None;
     Client.OpGo "Foo.Sum" (Server.VInt 2) (Server.VInt 0) None None]
    Client.newClientCodec.

(** Two calls made with [Go] and one shared [done] channel of capacity
    1, both pending. *)
Definition two_pending_shared : Client.state :=
  Client.exec_ops
    [Client.OpMakeChan 1;
     Client.OpGo "Foo.Sum" (Server.VInt 1) (Server.VInt 0) (Some 0%nat) None;
     Client.OpGo "Foo.Sum" (Server.VInt 2) (Server.VInt 0) (Some 0%nat) None]
    Client.newClientCodec.

(* --------------------------------------------------------------------- *)
(** ** The routines of package strings that the code calls *)

Module Strings.

(** The byte [c] occurs in [s]. *)
Fixpoint contains (s : string) (c : ascii) : bool :=
  match s with
  | EmptyString => false
  | String a s' => bool_decide (a = c) || contains s' c
  end.

(** [strings.LastIndex(s, substr)] for a [substr] of one byte [c]: the
    index of the last [c] in [s], or -1. *)
Fixpoint LastIndex (s : string) (c : ascii) : Z :=
  match s with
  | EmptyString => -1
  | String a s' =>
      let i := LastIndex s' c in
      if decide (0 ≤ i) then i + 1
      else if decide (a = c) then 0 else -1
  end.

(** The slice expression [s[lo:hi]]; it panics ([None]) unless
    [0 <= lo <= hi <= len(s)]. *)
Definition slice (s : string) (lo hi : Z) : option string :=
  if decide (0 ≤ lo ∧ lo ≤ hi ∧ hi ≤ Z.of_nat (String.length s))
  then Some (substring (Z.to_nat lo) (Z.to_nat (hi - lo)) s)
  else None.

(** [strings.Split(s, sep)] for a [sep] of one byte: the fields between
    the separators, one more than there are separators. *)
Fixpoint Split (s : string) (sep : ascii) : list string :=
  match s with
  | EmptyString => [EmptyString]
  | String a s' =>
      if decide (a = sep) then EmptyString :: Split s' sep
      else
        match Split s' sep with
        | x :: xs => String a x :: xs
        | [] => [String a EmptyString]
        end
  end.

(** [strings.Join(elems, sep)] *)
Fixpoint Join (elems : list string) (sep : string) : string :=
  match elems with
  | [] => EmptyString
  | x :: rest =>
      match rest with
      | [] => x
      | _ :: _ => String.append x (String.append sep (Join rest sep))
      end
  end.

(** The UTF-8 encodings of the code points for which [unicode.IsSpace]
    holds: tab, line feed, vertical tab, form feed, carriage return, space,
    U+0085, U+00A0, U+1680, U+2000 to U+200A, U+2028, U+2029, U+202F,
    U+205F and U+3000. *)
Definition space_encodings : list string :=
  (λ bytes, string_of_list_ascii (ascii_of_N <$> bytes)) <$>
  [[9]; [10]; [11]; [12]; [13]; [32]; [194; 133]; [194; 160];
   [225; 154; 128];
   [226; 128; 128]; [226; 128; 129]; [226; 128; 130]; [226; 128; 131];
   [226; 128; 132]; [226; 128; 133]; [226; 128; 134]; [226; 128; 135];
   [226; 128; 136]; [226; 128; 137]; [226; 128; 138];
   [226; 128; 168]; [226; 128; 169]; [226; 128; 175]; [226; 129; 159];
   [227; 128; 128]]%N.

(** What is left of [s] after its prefix [p], if [p] is a prefix. *)
Fixpoint strip_prefix (p s : string) : option string :=
  match p, s with
  | EmptyString, _ => Some s
  | String a p', String b s' => if decide (a = b) then strip_prefix p' s' else None
  | String _ _, EmptyString => None
  end.

(** What is left of [s] after one white-space code point at its start,
    and before one at its end. *)
Definition strip_space_left (s : string) : option string :=
  head (omap (λ p, strip_prefix p s) space_encodings).

Definition strip_space_right (s : string) : option string :=
  String.rev <$>
    head (omap (λ p, strip_prefix (String.rev p) (String.rev s)) space_encodings).

Fixpoint TrimLeft_loop (n : nat) (s : string) : string :=
  match n with
  | O => s
  | S n' =>
      match strip_space_left s with
      | Some s' => TrimLeft_loop n' s'
      | None => s
      end
  end.

Fixpoint TrimRight_loop (n : nat) (s : string) : string :=
  match n with
  | O => s
  | S n' =>
      match strip_space_right s with
      | Some s' => TrimRight_loop n' s'
      | None => s
      end
  end.

(** [strings.TrimSpace]: the white-space code points at both ends are
    removed, one after the other; a string has no more of them than it has
    bytes. *)
Definition TrimSpace (s : string) : string :=
  let s1 := TrimLeft_loop (String.length s) s in
  TrimRight_loop (String.length s1) s1.

End Strings.

(* --------------------------------------------------------------------- *)
(** ** Package server: the service map *)

Module Dispatch.

(** [Server.serviceMap], a [sync.Map] from service names to services. *)
Abbreviation serviceMap := (gmap string Server.service).

(** [NewServer] *)
Definition NewServer : serviceMap := ∅.

(** [Register]: [newService] ends the process for a receiver whose type
    name is not exported; [LoadOrStore] stores the service unless the name
    is taken.  The result is the error returned, [None] for [nil]. *)
Definition Register (t : Server.rcvr_type) (v : Server.value) (s : serviceMap)
    : Server.exec (option string * serviceMap) :=
  match Server.newService t v with
  | None => Server.Exits 1
  | Some svc =>
      match s !! Server.name svc with
      | Some _ =>
          Server.Returns
            (Some (String.append "rpc server: 服务已经被定义 " (Server.name svc)), s)
      | None => Server.Returns (None, <[Server.name svc := svc]> s)
      end
  end.

(** The service [newService] makes of a receiver. *)
Definition service_of (r : Server.rcvr_type * Server.value) : Server.service :=
  {| Server.name := Server.TypeName r.1; Server.typ := r.1; Server.rcvr := r.2;
     Server.methods := Server.registerMethods r.1 |}.

(** Receivers registered one after the other: the errors returned, in
    order, and the map at the end. *)
Fixpoint Register_all (rs : list (Server.rcvr_type * Server.value)) (s : serviceMap)
    : Server.exec (list (option string) * serviceMap) :=
  match rs with
  | [] => Server.Returns ([], s)
  | r :: rest =>
      match Register r.1 r.2 s with
      | Server.Exits st => Server.Exits st
      | Server.Returns res =>
          match Register_all rest res.2 with
          | Server.Exits st => Server.Exits st
          | Server.Returns res' => Server.Returns (res.1 :: res'.1, res'.2)
          end
      end
  end.

(** The three results of [findService]. *)
Record found := {
  svc : option Server.service;
  mtype : option Server.methodType;
  err : option string
}.

(** [findService]; [None] when a slice expression panics. *)
Definition findService (serviceMethod : string) (s : serviceMap) : option found :=
  let dot := Strings.LastIndex serviceMethod "." in
  if decide (dot < 0)
  then Some {| svc := None; mtype := None;
               err := Some (String.append "rpc server: service/method 请求不符合格式 "
                                          serviceMethod) |}
  else
    match Strings.slice serviceMethod 0 dot,
          Strings.slice serviceMethod (dot + 1)
                        (Z.of_nat (String.length serviceMethod)) with
    | Some serviceName, Some methodName =>
        match s !! serviceName with
        | None =>
            Some {| svc := None; mtype := None;
                    err := Some (String.append "rpc server: 找不到服务 " serviceName) |}
        | Some sv =>
            match Server.methods sv !! methodName with
            | None =>
                Some {| svc := Some sv; mtype := None;
                        err := Some (String.append "rpc server: 找不到方法 " serviceName) |}
            | Some m => Some {| svc := Some sv; mtype := Some m; err := None |}
            end
        end
    | _, _ => None
    end.

End Dispatch.

(* --------------------------------------------------------------------- *)
(** ** Package registry: the HTTP handler *)

Module RegistryHTTP.

(** The parts of a request the handler reads: the method, and the value
    of the header "X-Gorpc-Servers", empty when the header is absent. *)
Record Request := {
  Method : string;
  X_Gorpc_Servers : string
}.

(** What the handler leaves in the response: the status code, and the
    value it has set for the header "X-Gorpc-Servers", if any. *)
Record Response := {
  StatusCode : Z;
  Servers : option string
}.

Definition StatusOK : Z := 200.
Definition StatusMethodNotAllowed : Z := 405.
Definition StatusInternalServerError : Z := 500.

(** [ServeHTTP].  A handler that does not call [WriteHeader] answers
    with status 200.  [now] and [order] are the clock and the order of the
    map visit of [aliveServers]; [now] is also the clock of [putServer]. *)
Definition ServeHTTP (now : Z) (order : list (string * Registry.ServerItem))
    (req : Request) (r : Registry.GoRegistry) : Response * Registry.GoRegistry :=
  if decide (Method req = "GET") then
    let res := Registry.aliveServers now order r in
    ({| StatusCode := StatusOK; Servers := Some (Strings.Join res.1 ",") |}, res.2)
  else if decide (Method req = "POST") then
    if decide (X_Gorpc_Servers req = "")
    then ({| StatusCode := StatusInternalServerError; Servers := None |}, r)
    else ({| StatusCode := StatusOK; Servers := None |},
          Registry.putServer now (X_Gorpc_Servers req) r)
  else ({| StatusCode := StatusMethodNotAllowed; Servers := None |}, r).

(** The request [sendHeartbeat] makes. *)
Definition heartbeat_request (addr : string) : Request :=
  {| Method := "POST"; X_Gorpc_Servers := addr |}.

(** The request [http.Get] makes. *)
Definition get_request : Request :=
  {| Method := "GET"; X_Gorpc_Servers := "" |}.

(** [resp.Header.Get("X-Gorpc-Servers")] *)
Definition Header_Get (resp : Response) : string :=
  match Servers resp with
  | Some v => v
  | None => ""
  end.

(** Requests served one after the other, each with its clock reading
    and the order of its map visit; [putServer] and [aliveServers] hold the
    registry mutex for their whole body, so requests do not interleave
    inside them. *)
Fixpoint serve (reqs : list (Z * list (string * Registry.ServerItem) * Request))
    (r : Registry.GoRegistry) : list Response * Registry.GoRegistry :=
  match reqs with
  | [] => ([], r)
  | (now, order, req) :: rest =>
      let res := ServeHTTP now order req r in
      let res' := serve rest res.2 in
      (res.1 :: res'.1, res'.2)
  end.

(** Every entry of the table is stored under its own address, and no
    entry has the empty address. *)
Definition table_ok (r : Registry.GoRegistry) : Prop :=
  ∀ a s, Registry.servers r !! a = Some s → Registry.Addr s = a ∧ a ≠ "".

End RegistryHTTP.

(* --------------------------------------------------------------------- *)
(** ** Package xclient: discovery through the registry *)

Module RegistryDiscovery.

Definition defaultUpdateTimeout : Z := 1 * Second.

(** What [http.Get] returns: a response, of which the code reads the
    header "X-Gorpc-Servers", or an error. *)
Inductive http_result :=
| Got (header : string)
| GetFailed (err : string).

(** The loop of [Refresh] over the fields of the header: each is
    trimmed, and kept unless it is empty. *)
Definition parse_servers (header : string) : list string :=
  filter (λ s, s ≠ "") (Strings.TrimSpace <$> Strings.Split header ",").

(** An address that the header carries unharmed: it is not empty, has
    no comma, and no white space at its ends. *)
Definition clean (a : string) : Prop :=
  a ≠ "" ∧ Strings.contains a "," = false ∧ Strings.TrimSpace a = a.

(** The outcome of [Get]: the error of [Refresh], or what the embedded
    discovery answers. *)
Inductive get_result :=
| RefreshError (err : string)
| Selected (res : XClient.result string).

Section GoRegistryDiscovery.
Variable Rand : Type.
Variable Intn : Rand → Z → Z * Rand.

(** Times are in nanoseconds; the zero [time.Time] is 0. *)
Record GoRegistryDiscovery := {
  base : XClient.MultiServersDiscovery Rand;  (* the embedded discovery *)
  registry : string;
  timeout : Z;
  lastUpdate : Z
}.

Definition set_servers (l : list string) (m : XClient.MultiServersDiscovery Rand)
    : XClient.MultiServersDiscovery Rand :=
  XClient.Build_MultiServersDiscovery (XClient.r m) l (XClient.index m).

(** [Update]; [now] is the reading of [time.Now()]. *)
Definition Update (now : Z) (servers : list string) (d : GoRegistryDiscovery)
    : GoRegistryDiscovery :=
  {| base := set_servers servers (base d); registry := registry d;
     timeout := timeout d; lastUpdate := now |}.

(** [Refresh].  [now] is the clock read by the test
    [r.lastUpdate.Add(r.timeout).After(time.Now())], [now'] the clock read
    after the answer has come, and [resp] what [http.Get] returns if it is
    called. *)
Definition Refresh (now now' : Z) (resp : http_result) (d : GoRegistryDiscovery)
    : option string * GoRegistryDiscovery :=
  if decide (now < lastUpdate d + timeout d) then (None, d)
  else
    match resp with
    | GetFailed e => (Some e, d)
    | Got h =>
        (None, {| base := set_servers (parse_servers h) (base d);
                  registry := registry d; timeout := timeout d;
                  lastUpdate := now' |})
    end.

(** [Get] *)
Definition Get (now now' : Z) (resp : http_result) (mode : XClient.SelectMode)
    (d : GoRegistryDiscovery) : get_result * GoRegistryDiscovery :=
  match Refresh now now' resp d with
  | (Some e, d') => (RefreshError e, d')
  | (None, d') =>
      let res := XClient.Get Rand Intn mode (base d') in
      (Selected res.1,
       {| base := res.2; registry := registry d'; timeout := timeout d';
          lastUpdate := lastUpdate d' |})
  end.

(** [GetAll]: the error of [Refresh], or a copy of the list. *)
Definition GetAll (now now' : Z) (resp : http_result) (d : GoRegistryDiscovery)
    : (string + list string) * GoRegistryDiscovery :=
  match Refresh now now' resp d with
  | (Some e, d') => (inl e, d')
  | (None, d') => (inr (XClient.GetAll (base d')), d')
  end.

(** [NewGoRegistryDiscovery]; [seeded] is the generator the embedded
    discovery is made with. *)
Definition NewGoRegistryDiscovery (seeded : Rand) (registry : string) (timeout : Z)
    : GoRegistryDiscovery :=
  {| base := XClient.NewMultiServersDiscovery Rand Intn seeded [];
     registry := registry;
     timeout := if decide (timeout = 0) then defaultUpdateTimeout else timeout;
     lastUpdate := 0 |}.

(** The calls a user of the discovery makes, each with the clock
    readings and the answer of the registry it would meet. *)
Inductive call :=
| CallRefresh (now now' : Z) (resp : http_result)
| CallGet (now now' : Z) (resp : http_result) (mode : XClient.SelectMode)
| CallGetAll (now now' : Z) (resp : http_result).

Definition call_time (c : call) : Z :=
  match c with
  | CallRefresh now _ _ | CallGet now _ _ _ | CallGetAll now _ _ => now
  end.

Definition do_call (c : call) (d : GoRegistryDiscovery) : GoRegistryDiscovery :=
  match c with
  | CallRefresh now now' resp => (Refresh now now' resp d).2
  | CallGet now now' resp mode => (Get now now' resp mode d).2
  | CallGetAll now now' resp => (GetAll now now' resp d).2
  end.

Definition do_calls (cs : list call) (d : GoRegistryDiscovery) : GoRegistryDiscovery :=
  fold_left (λ d c, do_call c d) cs d.

End GoRegistryDiscovery.

Arguments base {Rand} _.
Arguments registry {Rand} _.
Arguments timeout {Rand} _.
Arguments lastUpdate {Rand} _.
Arguments Build_GoRegistryDiscovery {Rand} _ _ _ _.
Arguments set_servers {Rand} _ _.
Arguments Update {Rand} _ _ _.
Arguments Refresh {Rand} _ _ _ _.
Arguments GetAll {Rand} _ _ _ _.

End RegistryDiscovery.

(* --------------------------------------------------------------------- *)
(** ** Package client: what goes on the wire *)

Module ClientWire.

(** The header [send] writes for a call registered under [k]. *)
Definition request_header (sm : string) (k : Z) : Codec.Header :=
  {| Codec.ServiceMethod := sm; Codec.Seq := k; Codec.Error := "" |}.

(** An operation that registers no call: the sequence counter and the
    frames written are as before, and no entry has been added to the
    pending table. *)
Definition quiet (s s' : Client.state) : Prop :=
  Client.seq s' = Client.seq s ∧
  Client.cc_written s' = Client.cc_written s ∧
  Client.pending s' ⊆ Client.pending s.

(** An operation that registers one call, on a client that is
    available: the counter has moved by one, at most the frame of this call
    has been written, with the old counter as its number, and at most the
    entry of this call has been added to the pending table. *)
Definition registers (s s' : Client.state) : Prop :=
  Client.IsAvailable s = true ∧
  Client.seq s' = wrap_uint64 (Client.seq s + 1) ∧
  (Client.cc_written s' = Client.cc_written s ∨
   ∃ sm args, Client.cc_written s'
              = Client.cc_written s ++ [(request_header sm (Client.seq s), args)]) ∧
  ∃ c, Client.pending s' ⊆ <[Client.seq s := c]> (Client.pending s).

(** The numbers on the wire: the counter is at least 1, the frames
    written carry strictly increasing numbers between 1 and the counter,
    with an empty error field, and every pending call is registered under
    such a number. *)
Definition wire_ok (s : Client.state) : Prop :=
  1 ≤ Client.seq s ∧
  StronglySorted Z.lt ((λ f, Codec.Seq f.1) <$> Client.cc_written s) ∧
  Forall (λ f, 1 ≤ Codec.Seq f.1 < Client.seq s ∧ Codec.Error f.1 = "")
         (Client.cc_written s) ∧
  ∀ k c, Client.pending s !! k = Some c → 1 ≤ k < Client.seq s.

(** What [receive] does to the call a response belongs to: the error
    of the header, or the error of reading the body, or the reply. *)
Definition completed (h : Codec.Header) (body_err : option string)
    (v : Client.value) (call : Client.Call) : Client.Call :=
  if decide (Codec.Error h ≠ "")
  then Client.set_Error (Some (Client.Errorf (Codec.Error h))) call
  else
    match body_err with
    | Some e =>
        Client.set_Error
          (Some (Client.ErrorString (String.append "读取消息体出错 " e))) call
    | None => Client.set_Reply v call
    end.

End ClientWire.

(* --------------------------------------------------------------------- *)
(** ** Package client: options and the handshake *)

Module Dial.

(** [parseOptions]; an element of [opts] is a pointer, [None] for
    [nil].  The option given is overwritten in place: its magic number is
    set and an empty codec type is replaced by the default. *)
Definition parseOptions (opts : list (option Opt.Option)) : Opt.Option + string :=
  match opts with
  | [] | None :: _ => inl Opt.DefaultOption
  | Some opt :: _ =>
      if decide (length opts ≠ 1%nat) then inr "opts 参数数量不能超过1"
      else
        inl {| Opt.OptMagicNumber := Opt.OptMagicNumber Opt.DefaultOption;
               Opt.CodecType :=
                 if decide (Opt.CodecType opt = "")
                 then Opt.CodecType Opt.DefaultOption
                 else Opt.CodecType opt;
               Opt.ConnectTimeout := Opt.ConnectTimeout opt;
               Opt.HandleTimeout := Opt.HandleTimeout opt |}
  end.

(** What the client has done to the connection: the option it has
    written, if any, and whether it has closed the connection. *)
Record conn := {
  sent : option Opt.Option;
  closed : bool
}.

(** [NewClient]; [encode_err] is what [Encode] returns when it is
    reached.  The result is the new client or the error. *)
Definition NewClient (encode_err : option string) (opt : Opt.Option)
    : (Client.state + string) * conn :=
  match Codec.NewCodecFuncMap !! Opt.CodecType opt with
  | None =>
      (inr (String.append "非法的codec类型 " (Opt.CodecType opt)),
       {| sent := None; closed := false |})
  | Some _ =>
      match encode_err with
      | Some e => (inr e, {| sent := None; closed := true |})
      | None => (inl Client.newClientCodec, {| sent := Some opt; closed := false |})
      end
  end.

(** The connection as the server reads it: the option the client has
    written, decoded, then the request frames. *)
Definition server_side (c : conn) (reqs : list (Codec.Header * Server.value))
    : Server.Conn :=
  {| Server.handshake := sent c; Server.requests := reqs |}.

End Dial.

(* --------------------------------------------------------------------- *)
(** ** Package xclient: the balancing client *)

Module Balancer.

(** [Broadcast] after [GetAll] has answered: the goroutines, one per
    server, enter the section guarded by [mu] one at a time; [results]
    lists, in that order, what [xc.call] has returned to each: its error
    and the reply it has left in the clone.  The state of the section is
    the error [e], the flag [replyDone] and the value behind [reply]. *)
Definition Broadcast_step (st : option string * bool * Server.value)
    (res : option string * Server.value) : option string * bool * Server.value :=
  let '(e, replyDone, reply) := st in
  let e' := match res.1, e with
            | Some err, None => Some err
            | _, _ => e
            end in
  match res.1 with
  | None => if replyDone then (e', replyDone, reply) else (e', true, res.2)
  | Some _ => (e', replyDone, reply)
  end.

(** [Broadcast]: [getall] is what [xc.d.GetAll()] returns; [reply] is
    [None] for a [nil] reply, else the value behind it.  The result is the
    error returned and the value behind [reply] at the end. *)
Definition Broadcast (getall : option string) (reply : option Server.value)
    (results : list (option string * Server.value))
    : option string * option Server.value :=
  match getall with
  | Some err => (Some err, reply)
  | None =>
      match reply with
      | None =>
          ((fold_left Broadcast_step results (None, true, Server.VUnit)).1.1, None)
      | Some v =>
          let st := fold_left Broadcast_step results (None, false, v) in
          (st.1.1, Some st.2)
      end
  end.

(** The cache of clients, by address. *)
Abbreviation clients := (gmap string Client.state).

(** What [dial] answers: the error or the client to use, the cached
    client it has closed and dropped, if any, and the cache it leaves. *)
Record dialled := {
  result : Client.state + string;
  evicted : option Client.state;
  cache : clients
}.

(** [dial]; [xdial] is what [client.XDial] returns if it is called, and
    [close_err] what closing the codec of the cached client returns. *)
Definition dial (rpcAddr : string) (xdial : Client.state + string)
    (close_err : option Client.error) (cs : clients) : dialled :=
  let stale :=
    match cs !! rpcAddr with
    | Some c => if Client.IsAvailable c then None else Some c
    | None => None
    end in
  let cs1 := match stale with Some _ => delete rpcAddr cs | None => cs end in
  let closed := (λ c, (Client.Close close_err c).2) <$> stale in
  match cs1 !! rpcAddr with
  | Some c => {| result := inl c; evicted := closed; cache := cs1 |}
  | None =>
      match xdial with
      | inr err => {| result := inr err; evicted := closed; cache := cs1 |}
      | inl c => {| result := inl c; evicted := closed;
                    cache := <[rpcAddr := c]> cs1 |}
      end
  end.

(** [Close] of the balancing client: every cached client is closed and
    dropped; the result is the clients as [Close] leaves them and the
    cache.  [close_err] is what closing a codec returns. *)
Definition Close (close_err : option Client.error) (cs : clients)
    : gmap string Client.state * clients :=
  ((λ c, (Client.Close close_err c).2) <$> cs, ∅).

End Balancer.

(* --------------------------------------------------------------------- *)
(** ** Package server: the request pump *)

Module Pump.

(** [newArgv]: the type of the value that [ReadBody] is to fill, the
    element type for an argument whose kind is pointer and the argument
    type itself otherwise; [None] when [Elem] panics, which it does not on
    a type of that kind. *)
Definition newArgv (m : Server.methodType) : option Server.rtype :=
  if decide (Server.KindOf (Server.ArgType m) = Server.Ptr)
  then Server.Elem (Server.ArgType m)
  else Some (Server.ArgType m).

(** What the goroutine of [serveCodec] does, in order: it writes a
    response itself, for a request that cannot be dispatched, or it starts
    a goroutine that runs [handleRequest] on a request. *)
Inductive action :=
| Respond (h : Codec.Header) (b : Server.body)
| Spawn (h : Codec.Header) (sv : Server.service) (m : Server.methodType)
        (argv : Server.value) (replyv : Server.reply_container).

(** How it ends: the loop is left at the end of the input and the codec
    is closed after the handlers have returned, or [log.Fatalln] ends the
    process, or the goroutine panics. *)
Inductive ending :=
| Closed
| Exited (status : Z)
| Panicked.

Section Pump.
(** What the codec reads: a sequence of encoded values.  [ReadHeader]
    and [ReadBody] decode the next value, into a header and into a value
    of the given type; [None] is an error that is not the end of the
    input.  At the end of the input they return [io.EOF]. *)
Variable item : Type.
Variable ReadHeader : item → option Codec.Header.
Variable ReadBody : Server.rtype → item → option Server.value.

(** [serveCodec] with [readRequest] and [readRequestHeader] inlined:
    the header is read; a name that [findService] does not resolve is
    answered with the error, the body left unread; else the argument and
    the reply are allocated and the body is read, where any error ends the
    process.  Writes of responses are taken to succeed. *)
Fixpoint serveCodec (s : Dispatch.serviceMap) (stream : list item)
    : list action * ending :=
  match stream with
  | [] => ([], Closed)
  | i :: rest =>
      match ReadHeader i with
      | None => ([], Exited 1)
      | Some h =>
          match Dispatch.findService (Codec.ServiceMethod h) s with
          | None => ([], Panicked)
          | Some f =>
              match Dispatch.err f, Dispatch.svc f, Dispatch.mtype f with
              | Some e, _, _ =>
                  let res := serveCodec s rest in
                  (Respond (Server.set_Error e h) Server.invalidRequest :: res.1,
                   res.2)
              | None, Some sv, Some m =>
                  match newArgv m, Server.newReplyv m with
                  | Some t, Some replyv =>
                      match rest with
                      | [] => ([], Exited 1)
                      | b :: rest' =>
                          match ReadBody t b with
                          | None => ([], Exited 1)
                          | Some argv =>
                              let res := serveCodec s rest' in
                              (Spawn h sv m argv replyv :: res.1, res.2)
                          end
                      end
                  | _, _ => ([], Panicked)
                  end
              | None, _, _ => ([], Panicked)
              end
          end
      end
  end.

(** A request that is read and dispatched: the two encoded values, and
    what is made of them. *)
Record dispatched := {
  header_item : item;
  body_item : item;
  req_header : Codec.Header;
  req_svc : Server.service;
  req_mtype : Server.methodType;
  req_argv : Server.value;
  req_replyv : Server.reply_container
}.

Definition dispatches (s : Dispatch.serviceMap) (r : dispatched) : Prop :=
  ReadHeader (header_item r) = Some (req_header r) ∧
  Dispatch.findService (Codec.ServiceMethod (req_header r)) s
    = Some {| Dispatch.svc := Some (req_svc r);
              Dispatch.mtype := Some (req_mtype r);
              Dispatch.err := None |} ∧
  Server.newReplyv (req_mtype r) = Some (req_replyv r) ∧
  ∃ t, newArgv (req_mtype r) = Some t ∧
       ReadBody t (body_item r) = Some (req_argv r).

End Pump.

Arguments header_item {item} _.
Arguments body_item {item} _.
Arguments req_header {item} _.
Arguments req_svc {item} _.
Arguments req_mtype {item} _.
Arguments req_argv {item} _.
Arguments req_replyv {item} _.
Arguments Build_dispatched {item} _ _ _ _ _ _ _.
Arguments dispatches {item} _ _ _ _.

End Pump.

(** ** More example data *)

(** A receiver whose type name begins with an upper-case letter that is
    not ASCII, [type Émile struct{}], without methods. *)
Definition Emile : Server.rcvr_type :=
  {| Server.TypeName := "Émile"; Server.method_set := [] |}.

(** A codec input whose values are headers and argument values, each
    decoding only as what it is. *)
Definition plain_ReadHeader (i : Codec.Header + Server.value) : option Codec.Header :=
  match i with
  | inl h => Some h
  | inr _ => None
  end.

Definition plain_ReadBody (t : Server.rtype) (i : Codec.Header + Server.value)
    : option Server.value :=
  match i with
  | inl _ => None
  | inr v => Some v
  end.

(* ===================================================================== *)
(** * Part II: properties                                                 *)
(* ===================================================================== *)

(** ** The string order *)

Lemma ascii_compare_N (a b : ascii) :
  Ascii.compare a b = N.compare (N_of_ascii a) (N_of_ascii b).
Proof. reflexivity. Qed.

Lemma string_compare_refl (s : string) : String.compare s s = Eq.
Proof.
  induction s as [|c s IH]; simpl; [reflexivity|].
  rewrite ascii_compare_N, N.compare_refl. exact IH.
Qed.

Lemma string_compare_lt_trans (s1 s2 s3 : string) :
  String.compare s1 s2 = Lt → String.compare s2 s3 = Lt →
  String.compare s1 s3 = Lt.
Proof.
  revert s2 s3.
  induction s1 as [|a s1 IH]; intros [|b s2] [|c s3]; simpl; try congruence.
  rewrite !ascii_compare_N.
  destruct (N.compare_spec (N_of_ascii a) (N_of_ascii b)) as [Hab|Hab|Hab];
    destruct (N.compare_spec (N_of_ascii b) (N_of_ascii c)) as [Hbc|Hbc|Hbc];
    try congruence; intros H1 H2.
  - rewrite Hab, Hbc, N.compare_refl. eauto.
  - rewrite Hab. apply N.compare_lt_iff in Hbc. rewrite Hbc. reflexivity.
  - rewrite <- Hbc. apply N.compare_lt_iff in Hab. rewrite Hab. reflexivity.
  - assert (Hac : (N_of_ascii a < N_of_ascii c)%N) by lia.
    apply N.compare_lt_iff in Hac. rewrite Hac. reflexivity.
Qed.

Lemma string_lt_irrefl (s : string) : ¬ string_lt s s.
Proof. unfold string_lt, String.ltb. rewrite string_compare_refl. discriminate. Qed.

Lemma string_lt_trans (s1 s2 s3 : string) :
  string_lt s1 s2 → string_lt s2 s3 → string_lt s1 s3.
Proof.
  unfold string_lt, String.ltb. intros H1 H2.
  destruct (String.compare s1 s2) eqn:E1; try discriminate.
  destruct (String.compare s2 s3) eqn:E2; try discriminate.
  rewrite (string_compare_lt_trans _ _ _ E1 E2). reflexivity.
Qed.

Lemma string_le_lt_eq (s1 s2 : string) :
  string_le s1 s2 ↔ string_lt s1 s2 ∨ s1 = s2.
Proof.
  unfold string_le, string_lt, String.leb, String.ltb. split.
  - destruct (String.compare s1 s2) eqn:E; intros H; try discriminate.
    + right. apply String.compare_eq_iff. exact E.
    + left. reflexivity.
  - intros [H | ->].
    + destruct (String.compare s1 s2); congruence.
    + rewrite string_compare_refl. reflexivity.
Qed.

#[global] Instance string_le_total : Total string_le.
Proof. intros s1 s2. apply String.leb_total. Qed.

#[global] Instance string_le_trans : Transitive string_le.
Proof.
  intros s1 s2 s3. rewrite !string_le_lt_eq.
  intros [H1 | ->] [H2 | ->]; eauto using string_lt_trans.
Qed.


Lemma sort_Strings_perm (l : list string) : sort_Strings l ≡ₚ l.
Proof. apply merge_sort_Permutation. Qed.


(* --------------------------------------------------------------------- *)
(** ** Registry: [aliveServers] *)

Section AliveServers.
Import Registry.
Variables ttl now : Z.

Lemma aliveServers_loop_fst order acc :
  (fold_left (aliveServers_body ttl now) order acc).1
  = acc.1 ++ (filter (kept ttl now) order).*1.
Proof.
  revert acc. induction order as [|e order IH]; intros acc; simpl.
  - by rewrite app_nil_r.
  - rewrite IH, filter_cons.
    destruct (decide (kept ttl now e)) as [Hk|Hk]; unfold kept in Hk.
    + unfold aliveServers_body at 1. rewrite Hk. simpl.
      by rewrite <- app_assoc.
    + unfold aliveServers_body at 1.
      apply not_true_is_false in Hk. rewrite Hk. done.
Qed.



End AliveServers.



(** The order of the example is an order in which the table of the
    example can be visited. *)
Lemma four_servers_order_perm :
  four_servers_order ≡ₚ map_to_list (Registry.servers four_servers_registry).
Proof.
  apply NoDup_Permutation.
  - apply (NoDup_fmap_1 fst). apply (bool_decide_unpack _). vm_compute. exact I.
  - apply NoDup_map_to_list.
  - intros [a s]. rewrite elem_of_map_to_list.
    unfold four_servers_order, four_servers_registry. cbn [Registry.servers].
    rewrite !elem_of_cons, elem_of_nil.
    rewrite !lookup_insert_Some, lookup_singleton_Some.
    split.
    + intros [H|[H|[H|[H|[]]]]]; injection H as -> ->;
        repeat first [ left; split; [reflexivity|reflexivity]
                     | right; split; [discriminate|] ];
        split; reflexivity.
    + intros [[<- <-]|[_ [[<- <-]|[_ [[<- <-]|[_ [<- <-]]]]]]]; auto 10.
Qed.



(* --------------------------------------------------------------------- *)
(** ** Discovery: round-robin selection *)

Section RoundRobin.
Import XClient.
Context {Rand : Type} (Intn : Rand → Z → Z * Rand).

Lemma wrap_int_id z : int_min ≤ z ≤ int_max → wrap_int z = z.
Proof.
  unfold wrap_int, int_min, int_max. intros H.
  rewrite Z.mod_small by lia. lia.
Qed.

Lemma at_index_mod (l : list string) (i : Z) :
  0 ≤ i → l ≠ [] →
  ∃ s, at_index l (i mod Z.of_nat (length l)) = Some s ∧
       l !! (Z.to_nat i mod length l)%nat = Some s.
Proof.
  intros Hi Hl.
  assert (Hn : 0 < Z.of_nat (length l)) by (destruct l; simpl; [done | lia]).
  pose proof (Z.mod_pos_bound i _ Hn) as Hb.
  destruct (lookup_lt_is_Some_2 l (Z.to_nat (i mod Z.of_nat (length l))))
    as [s Hs]; [lia|].
  exists s. unfold at_index. rewrite decide_True by lia. split; [done|].
  rewrite <- Hs. f_equal.
  rewrite <- (Z2Nat.id i) at 2 by done.
  rewrite <- Nat2Z.inj_mod, Nat2Z.id. done.
Qed.

(** One call: the address at [i mod n], and the cursor moved to
    [(i + 1) mod n]. *)
Lemma Get_RoundRobin_step (m : MultiServersDiscovery Rand) :
  servers m ≠ [] → 0 ≤ index m < int_max →
  ∃ s, at_index (servers m) (index m mod Z.of_nat (length (servers m))) = Some s ∧
       Get Rand Intn RoundRobinSelect m =
         (Ok s, {| r := r m; servers := servers m;
                   index := (index m + 1) mod Z.of_nat (length (servers m)) |}).
Proof.
  intros Hl Hi.
  destruct (at_index_mod (servers m) (index m)) as (s & Hs & _); [lia | done |].
  exists s. split; [done|].
  assert (Hn : 0 < Z.of_nat (length (servers m)))
    by (destruct (servers m); simpl; [done | lia]).
  unfold Get. rewrite decide_False by lia.
  case_decide; [discriminate|]. case_decide; [|done].
  rewrite Z.rem_mod_nonneg by lia. rewrite Hs.
  rewrite wrap_int_id by (unfold int_min, int_max in *; lia).
  rewrite Z.rem_mod_nonneg by lia. done.
Qed.

(** [k] calls in a row walk the list cyclically from [i mod n]. *)
Lemma Get_rounds_cyclic (k : nat) (m : MultiServersDiscovery Rand) :
  servers m ≠ [] → Z.of_nat (length (servers m)) ≤ int_max →
  0 ≤ index m < int_max →
  ∀ j : nat, (j < k)%nat →
    ∃ s, at_index (servers m) ((index m + Z.of_nat j) mod Z.of_nat (length (servers m)))
           = Some s ∧
         (Get_rounds Rand Intn k m).1 !! j = Some (Ok s).
Proof.
  revert m. induction k as [|k IH]; intros m Hl Hlen Hi j Hj; [lia|].
  assert (Hn : 0 < Z.of_nat (length (servers m)))
    by (destruct (servers m); simpl; [done | lia]).
  destruct (Get_RoundRobin_step m Hl Hi) as (s & Hs & HG).
  simpl. rewrite HG.
  set (m' := {| r := r m; servers := servers m;
                index := (index m + 1) mod Z.of_nat (length (servers m)) |}).
  destruct (Get_rounds Rand Intn k m') as [xs m''] eqn:Hr.
  destruct j as [|j]; simpl.
  - exists s. rewrite Z.add_0_r. done.
  - pose proof (Z.mod_pos_bound (index m + 1) _ Hn) as Hb.
    destruct (IH m') with (j := j) as (s' & Hs' & Hx); simpl; try done; try lia.
    rewrite Hr in Hx. simpl in *. exists s'. split; [|done].
    rewrite <- Hs'. f_equal.
    rewrite Zplus_mod_idemp_l. f_equal. lia.
Qed.

Lemma Get_empty (mode : SelectMode) (m : MultiServersDiscovery Rand) :
  servers m = [] → Get Rand Intn mode m = (Err ErrNoServers, m).
Proof. intros Hl. unfold Get. rewrite Hl. reflexivity. Qed.

Lemma NewMultiServersDiscovery_cursor_ok seeded l :
  (∀ g n, 0 < n → 0 ≤ (Intn g n).1 < n) →
  cursor_ok (NewMultiServersDiscovery Rand Intn seeded l).
Proof.
  intros HI. unfold NewMultiServersDiscovery, cursor_ok.
  pose proof (HI seeded (MaxInt32 - 1)) as H.
  destruct (Intn seeded (MaxInt32 - 1)) as [k g]. simpl in *.
  unfold MaxInt32, int_max in *. lia.
Qed.

Lemma Get_cursor_ok mode (m : MultiServersDiscovery Rand) :
  Z.of_nat (length (servers m)) ≤ int_max →
  cursor_ok m → cursor_ok (Get Rand Intn mode m).2.
Proof.
  intros Hlen Hm. unfold Get.
  repeat case_decide; simpl; try done.
  - destruct (Intn (r m) _) as [k g].
    destruct (at_index (servers m) k); done.
  - destruct (at_index (servers m) _); [|done]. simpl.
    unfold cursor_ok in *. simpl.
    rewrite wrap_int_id by (unfold int_min, int_max in *; lia).
    rewrite Z.rem_mod_nonneg by lia.
    pose proof (Z.mod_pos_bound (index m + 1) (Z.of_nat (length (servers m)))).
    lia.
Qed.

Lemma Update_cursor_ok l (m : MultiServersDiscovery Rand) :
  cursor_ok m → cursor_ok (Update l m).
Proof. done. Qed.

(** C8: on a non-empty list of length [n] with cursor [i],
    [Get(RoundRobinSelect)] returns [servers[i mod n]] and leaves the
    cursor at [(i + 1) mod n]; [k] successive calls return the addresses
    at [(i + j) mod n] for [j = 0 .. k-1], the cyclic order that begins at
    [i mod n]; and [Get] on an empty list returns the no-servers error in
    every mode. *)
Theorem Get_round_robin_cyclic (m : MultiServersDiscovery Rand) :
  (servers m = [] → ∀ mode, Get Rand Intn mode m = (Err ErrNoServers, m)) ∧
  (servers m ≠ [] → Z.of_nat (length (servers m)) ≤ int_max →
   0 ≤ index m < int_max →
   (∃ s, servers m !! (Z.to_nat (index m) mod length (servers m))%nat = Some s ∧
         (Get Rand Intn RoundRobinSelect m).1 = Ok s) ∧
   index (Get Rand Intn RoundRobinSelect m).2
     = (index m + 1) mod Z.of_nat (length (servers m)) ∧
   servers (Get Rand Intn RoundRobinSelect m).2 = servers m ∧
   ∀ (k j : nat), (j < k)%nat →
     ∃ s, servers m !! (Z.to_nat (index m + Z.of_nat j) mod length (servers m))%nat
            = Some s ∧
          (Get_rounds Rand Intn k m).1 !! j = Some (Ok s)).
Proof.
  split; [intros Hl mode; by apply Get_empty|].
  intros Hl Hlen Hi.
  destruct (Get_RoundRobin_step m Hl Hi) as (s & Hs & HG).
  destruct (at_index_mod (servers m) (index m)) as (s0 & Hs0 & Hl0); [lia | done |].
  rewrite HG. simpl. split; [|split; [done|split; [done|]]].
  - exists s. split; [congruence | done].
  - intros k j Hj.
    destruct (Get_rounds_cyclic k m Hl Hlen Hi j Hj) as (s' & Hs' & Hx).
    destruct (at_index_mod (servers m) (index m + Z.of_nat j))
      as (s1 & Hs1 & Hl1); [lia | done |].
    exists s'. split; [congruence | done].
Qed.
End RoundRobin.

Lemma Get_round_robin_cyclic_witness :
  (XClient.Get unit (λ g _, (0, g)) XClient.RoundRobinSelect three_servers).1
    = XClient.Ok "y" ∧
  XClient.index
    (XClient.Get unit (λ g _, (0, g)) XClient.RoundRobinSelect three_servers).2 = 2 ∧
  (XClient.Get_rounds unit (λ g _, (0, g)) 4 three_servers).1
    = [XClient.Ok "y"; XClient.Ok "z"; XClient.Ok "x"; XClient.Ok "y"].
Proof.
  pose proof (Get_round_robin_cyclic (λ (g : unit) (_ : Z), (0, g)) three_servers)
    as [_ H].
  assert (H1 : XClient.servers three_servers ≠ []) by discriminate.
  assert (H2 : Z.of_nat (length (XClient.servers three_servers)) ≤ int_max)
    by (vm_compute; discriminate).
  assert (H3 : 0 ≤ XClient.index three_servers < int_max)
    by (split; vm_compute; [discriminate | reflexivity]).
  destruct (H H1 H2 H3) as ((s & Hs & HG) & Hidx & _ & _).
  split; [|split].
  - rewrite HG. f_equal. vm_compute in Hs. congruence.
  - rewrite Hidx. reflexivity.
  - reflexivity.
Defined.

(* --------------------------------------------------------------------- *)
(** ** Server: method registration *)

Section RegisterMethods.
Import Server.

Lemma registerMethods_body_retained acc m :
  registerMethods_body acc m =
    if retained m
    then match descriptor m with
         | Some d => <[MethodName m := d]> acc
         | None => acc
         end
    else acc.
Proof.
  unfold registerMethods_body, retained, descriptor.
  destruct (signature_mismatch m); simpl; [done|].
  destruct (In m !! 1%nat) as [a|]; [|done].
  destruct (In m !! 2%nat) as [b|]; [|done].
  destruct (isExportedOrBuiltinType a), (isExportedOrBuiltinType b); done.
Qed.

Lemma retained_descriptor m : retained m = true → is_Some (descriptor m).
Proof.
  unfold retained, descriptor. intros [_ H]%andb_true_iff.
  destruct (In m !! 1%nat); [|done]. destruct (In m !! 2%nat); [|done]. eauto.
Qed.

Lemma registerMethods_loop (l : list Method) acc key :
  is_Some (fold_left registerMethods_body l acc !! key) ↔
  is_Some (acc !! key) ∨ ∃ m, m ∈ l ∧ MethodName m = key ∧ retained m = true.
Proof.
  revert acc. induction l as [|m l IH]; intros acc; simpl.
  - split; [by left|]. intros [H | (m & Hm & _)]; [done|].
    by apply elem_of_nil in Hm.
  - rewrite IH, registerMethods_body_retained. split.
    + intros [H | (m' & Hm' & Hk & Hr)].
      * destruct (retained m) eqn:Hr; [|by left].
        destruct (descriptor m) as [d|] eqn:Hd; [|by left].
        destruct (decide (MethodName m = key)) as [He|Hne].
        -- right. exists m. split; [by left | done].
        -- rewrite lookup_insert_ne in H by done. by left.
      * right. exists m'. split; [by right | done].
    + intros [H | (m' & Hm' & Hk & Hr)].
      * left. destruct (retained m); [|done].
        destruct (descriptor m) as [d|]; [|done].
        destruct (decide (MethodName m = key)) as [->|Hne].
        -- rewrite lookup_insert_eq. eauto.
        -- by rewrite lookup_insert_ne.
      * apply elem_of_cons in Hm' as [-> | Hm'].
        -- left. rewrite Hr.
           destruct (retained_descriptor m Hr) as [d ->].
           rewrite <- Hk, lookup_insert_eq. eauto.
        -- right. eauto.
Qed.

Lemma retained_code_eligible m :
  IsExported (MethodName m) = true ∧ retained m = true ↔ code_eligible m.
Proof.
  unfold retained, code_eligible, signature_mismatch.
  rewrite andb_true_iff, negb_true_iff, !orb_false_iff.
  rewrite !bool_decide_eq_false. split.
  - intros (He & ((H3 & H1) & H0) & H).
    apply dec_stable in H3, H1, H0.
    repeat split; try done.
    destruct (In m !! 1%nat) as [a|]; [|done].
    destruct (In m !! 2%nat) as [b|]; [|done].
    apply andb_true_iff in H as [Ha Hb]. by exists a, b.
  - intros (He & H3 & H1 & H0 & a & b & Ha & Hb & Hea & Heb).
    split; [done|]. rewrite Ha, Hb, Hea, Heb.
    repeat split; try done; by intros ?.
Qed.

(** What [registerMethods] does retain: the methods that are exported,
    have three inputs and the single output [error], and whose argument
    and reply types pass [isExportedOrBuiltinType].  The kind of the reply
    type is not looked at. *)
Lemma registerMethods_retains_iff (t : rcvr_type) (key : string) :
  is_Some (registerMethods t !! key) ↔
  ∃ m, m ∈ method_set t ∧ MethodName m = key ∧ code_eligible m.
Proof.
  unfold registerMethods. rewrite registerMethods_loop, lookup_empty.
  unfold reflect_methods. split.
  - intros [[? H] | (m & Hm & Hk & Hr)]; [done|].
    apply list_elem_of_filter in Hm as [He Hm].
    exists m. split; [done|]. split; [done|]. by apply retained_code_eligible.
  - intros (m & Hm & Hk & Hc). right.
    apply retained_code_eligible in Hc as [He Hr].
    exists m. split; [|done]. apply list_elem_of_filter. done.
Qed.
End RegisterMethods.

(** C5, the code at the failing input: [registerMethods] retains [Bad]
    although its reply type is not a pointer, so [Bad] does not satisfy the
    eligibility invariant; and for the descriptor it stores [newReplyv]
    panics. *)
Theorem registerMethods_retains_non_pointer_reply :
  (∃ d, Server.registerMethods Foo_with_Bad !! "Bad" = Some d ∧
        Server.ReplyType d = Server.Predeclared "int" Server.Int ∧
        Server.newReplyv d = None) ∧
  ¬ Server.spec_eligible Bad.
Proof.
  split.
  - eexists. split; [reflexivity|]. split; reflexivity.
  - intros (_ & _ & _ & _ & a & b & _ & Hb & _ & _ & Hk).
    simpl in Hb. injection Hb as <-. discriminate.
Qed.

(* --------------------------------------------------------------------- *)
(** ** Server: the invocation counter *)

Section NumCalls.
Import Server.

Lemma call_numCalls s mname argv replyv m :
  methods s !! mname = Some m →
  ∃ res s' m',
    call s mname argv replyv = Some (res, s') ∧
    methods s' !! mname = Some m' ∧
    NumCalls m' = wrap_uint64 (NumCalls m + 1).
Proof.
  intros Hm. unfold call. rewrite Hm.
  eexists _, _, _. split; [done|]. simpl.
  rewrite lookup_insert_eq. done.
Qed.

Lemma wrap_uint64_small z : 0 ≤ z < uint64_mod → wrap_uint64 z = z.
Proof. intros H. unfold wrap_uint64. by apply Z.mod_small. Qed.

Lemma wrap_uint64_range z : 0 ≤ wrap_uint64 z < uint64_mod.
Proof. unfold wrap_uint64, uint64_mod. apply Z.mod_pos_bound. lia. Qed.

Lemma wrap_uint64_add_l a b :
  wrap_uint64 (wrap_uint64 a + b) = wrap_uint64 (a + b).
Proof. unfold wrap_uint64. apply Zplus_mod_idemp_l. Qed.

Lemma call_all_numCalls invs : ∀ s mname m,
  methods s !! mname = Some m →
  0 ≤ NumCalls m < uint64_mod →
  ∃ rs s' m',
    call_all s mname invs = Some (rs, s') ∧
    length rs = length invs ∧
    methods s' !! mname = Some m' ∧
    NumCalls m' = wrap_uint64 (NumCalls m + Z.of_nat (length invs)).
Proof.
  induction invs as [|[argv replyv] invs IH]; intros s mname m Hm Hr.
  - exists [], s, m. repeat split; try done.
    simpl. rewrite Z.add_0_r. by rewrite wrap_uint64_small.
  - destruct (call_numCalls s mname argv replyv m Hm)
      as (res & s1 & m1 & Hc & Hm1 & Hn1).
    destruct (IH s1 mname m1 Hm1) as (rs & s' & m' & Hca & Hlen & Hm' & Hn').
    { rewrite Hn1. apply wrap_uint64_range. }
    exists (res :: rs), s', m'. simpl. rewrite Hc, Hca.
    repeat split; try done; [by rewrite Hlen|].
    rewrite Hn', Hn1, wrap_uint64_add_l. f_equal. lia.
Qed.

Lemma length_filter_succeeded (rs : list (value * option string)) :
  (length (filter (λ r, succeeded r = true) rs)
   + length (filter (λ r, succeeded r = false) rs) = length rs)%nat.
Proof.
  induction rs as [|r rs IH]; [done|].
  rewrite !filter_cons.
  destruct (succeeded r) eqn:E; repeat case_decide; simpl; try done; lia.
Qed.

(** C6, as amended: [call] increments the counter before it invokes
    the method, so after a sequence of invocations [NumCalls] has grown by
    the number of all of them, successful or not, modulo 2^64; from a fresh
    descriptor it is the number of successful invocations plus the number
    of failed ones, hence N after N successful invocations and no failed
    one. *)
Theorem NumCalls_counts_invocations
    (s : service) (mname : string) (m : methodType)
    (invs : list (value * value)) :
  methods s !! mname = Some m →
  0 ≤ NumCalls m < uint64_mod →
  ∃ rs s' m',
    call_all s mname invs = Some (rs, s') ∧
    length rs = length invs ∧
    methods s' !! mname = Some m' ∧
    NumCalls m' = wrap_uint64 (NumCalls m + Z.of_nat (length invs)) ∧
    (NumCalls m = 0 → Z.of_nat (length invs) < uint64_mod →
     NumCalls m' =
       Z.of_nat (length (filter (λ r, succeeded r = true) rs))
       + Z.of_nat (length (filter (λ r, succeeded r = false) rs)) ∧
     (Forall (λ r, succeeded r = true) rs →
      NumCalls m' = Z.of_nat (length invs))).
Proof.
  intros Hm Hr.
  destruct (call_all_numCalls invs s mname m Hm Hr)
    as (rs & s' & m' & Hc & Hlen & Hm' & Hn).
  exists rs, s', m'. repeat split; try done.
  - rewrite Hn, H, Z.add_0_l, wrap_uint64_small by lia.
    rewrite <- Hlen, <- length_filter_succeeded. lia.
  - intros _. rewrite Hn, H, Z.add_0_l. apply wrap_uint64_small. lia.
Qed.
End NumCalls.

Lemma NumCalls_counts_invocations_witness :
  ∃ rs s' m',
    Server.call_all Foo_service "Sum" two_sums = Some (rs, s') ∧
    Server.methods s' !! "Sum" = Some m' ∧
    Server.NumCalls m' = 2.
Proof.
  assert (Hm : Server.methods Foo_service !! "Sum" = Some Sum_descriptor)
    by reflexivity.
  assert (Hr : 0 ≤ Server.NumCalls Sum_descriptor < uint64_mod)
    by (split; vm_compute; [discriminate | reflexivity]).
  destruct (NumCalls_counts_invocations Foo_service "Sum" Sum_descriptor
              two_sums Hm Hr) as (rs & s' & m' & Hc & _ & Hm' & Hn & _).
  exists rs, s', m'. split; [exact Hc|]. split; [exact Hm'|].
  rewrite Hn. reflexivity.
Defined.

(** C6 as stated fails: one invocation of a method that returns an
    error leaves the counter at 1, while no invocation was successful. *)
Lemma NumCalls_counts_failed_counterexample :
  ¬ (∀ (s : Server.service) (mname : string) (m : Server.methodType)
       (invs : list (Server.value * Server.value)) rs s' m',
       Server.methods s !! mname = Some m →
       Server.NumCalls m = 0 →
       Server.call_all s mname invs = Some (rs, s') →
       Server.methods s' !! mname = Some m' →
       Server.NumCalls m' =
         Z.of_nat (length (filter (λ r, Server.succeeded r = true) rs))).
Proof.
  intros H.
  pose (invs := [(Server.VInt 1, Server.VInt 0)]).
  destruct (Server.call_all Foo_service "Fail" invs) as [[rs s']|] eqn:Hc;
    [|discriminate].
  destruct (Server.methods s' !! "Fail") as [m'|] eqn:Hm';
    [|vm_compute in Hc; injection Hc as <- <-; discriminate].
  specialize (H Foo_service "Fail" _ invs rs s' m' eq_refl eq_refl Hc Hm').
  vm_compute in Hc. injection Hc as <- <-.
  vm_compute in Hm'. injection Hm' as <-.
  vm_compute in H. discriminate.
Qed.

(* --------------------------------------------------------------------- *)
(** ** Registry: the heartbeat helper *)

Lemma Heartbeat_loop_success ok posts ticks :
  Registry.Heartbeat_loop ok None ticks posts = (posts, Registry.Returned).
Proof. by destruct ticks. Qed.

(** The goroutine leaves its loop at the first POST that succeeds. *)
Lemma Heartbeat_loop_stops (failures : list string) ticks posts :
  Registry.Heartbeat_loop true (Some "failed")
    ((Some <$> failures) ++ None :: ticks) posts
  = ((posts + S (length failures))%nat, Registry.Returned).
Proof.
  generalize "failed". revert posts.
  induction failures as [|f fs IH]; intros posts e.
  - cbn. rewrite Heartbeat_loop_success. f_equal. lia.
  - rewrite fmap_cons. cbn [app Registry.Heartbeat_loop Registry.sendHeartbeat].
    rewrite IH. f_equal. cbn [length]. lia.
Qed.

Lemma Heartbeat_default_interval :
  Registry.Heartbeat_interval 0 = Second ∧
  Registry.Heartbeat_interval 0 < Registry.defaultTimeout.
Proof. split; reflexivity. Qed.

(** C4, the code at the failing input: the first POST succeeds and the
    ticker then delivers three ticks.  The goroutine has returned after the
    one immediate POST, where the helper is to post at every tick, four
    times in all.  After a first POST that succeeds no other POST is made,
    whatever the interval and the ticks: the goroutine returns, or, for a
    negative interval, it panics when it makes the ticker. *)
Theorem Heartbeat_stops_after_success :
  Registry.Heartbeat true 0 None [None; None; None]
    = (Second, (1%nat, Registry.Returned)) ∧
  Registry.spec_Heartbeat_posts [None; None; None] = 4%nat ∧
  ∀ duration ticks,
    (Registry.Heartbeat true duration None ticks).2
    = (1%nat, if decide (duration < 0) then Registry.Panicked
              else Registry.Returned).
Proof.
  split; [reflexivity|]. split; [reflexivity|].
  intros duration ticks. unfold Registry.Heartbeat, Registry.Heartbeat_interval.
  cbn [snd Registry.sendHeartbeat].
  destruct (decide (duration = 0)) as [->|Hd].
  - rewrite decide_False by (unfold Second, Nanosecond; lia).
    rewrite decide_False by lia. apply Heartbeat_loop_success.
  - destruct (decide (duration < 0)).
    + by rewrite decide_True by lia.
    + rewrite decide_False by lia. apply Heartbeat_loop_success.
Qed.

(* --------------------------------------------------------------------- *)
(** ** Server: the handshake *)

Section Handshake.
Import Server.
Variable serveCodec :
  Codec.NewCodecFunc → Opt.Option → list (Codec.Header * value) →
  exec (list (Codec.Header * body)).

(** A failed handshake ends the process: no request of the connection
    is served, and none of any later connection. *)
Lemma ServeConn_handshake_failure (conn : Conn) :
  handshake_fails conn →
  ServeConn serveCodec conn = Exits 1 ∧
  ∀ rest, Accept serveCodec (Some conn :: rest) = ([], Some 1).
Proof.
  unfold handshake_fails. intros H.
  assert (HS : ServeConn serveCodec conn = Exits 1).
  { unfold ServeConn. destruct (handshake conn) as [opt|]; [|done].
    case_decide; [done|]. destruct H as [H|H]; [done|]. by rewrite H. }
  split; [done|]. intros rest. simpl. by rewrite HS.
Qed.
End Handshake.

(** C9, the code at the failing input: a connection whose option has
    magic number 0 is followed by a well-formed one.  [ServeConn] ends the
    process on the first, so the second, which alone would be served, is
    never served. *)
Theorem ServeConn_bad_magic_exits :
  Server.ServeConn echo_serveCodec bad_magic_conn = Server.Exits 1 ∧
  Server.Accept echo_serveCodec [Some bad_magic_conn; Some good_conn]
    = ([], Some 1) ∧
  (Server.Accept echo_serveCodec [Some good_conn]).1 ≠ [].
Proof.
  split; [reflexivity|]. split; [reflexivity|]. vm_compute. discriminate.
Qed.

(* --------------------------------------------------------------------- *)
(** ** Server: the handler timeout *)

Section HandlerTimeout.
Import Server.
Variable duration_string : Z → string.
Variable h0 : Codec.Header.
Variable reply : value.
Variable err : option string.
Variable timeout : Z.

#[local] Abbreviation step := (hr_step duration_string reply err timeout).
#[local] Abbreviation run := (hr_run duration_string reply err timeout).
#[local] Abbreviation init := (handleRequest_init h0 timeout).
#[local] Abbreviation called_resp := (call_response h0 reply err).
#[local] Abbreviation timeout_resp := (timeout_response duration_string h0 timeout).
#[local] Abbreviation inv := (hr_inv duration_string h0 reply err timeout).

Ltac hr_crush :=
  repeat match goal with
         | H : _ ∧ _ |- _ => destruct H
         | H : _ ∨ _ |- _ => destruct H
         end;
  try congruence;
  repeat split; try done; try congruence; eauto.

Ltac hr_fire :=
  repeat first [ progress simpl | rewrite decide_True by hr_crush ].

Lemma hr_inv_init : inv init.
Proof.
  unfold hr_inv, handleRequest_init. simpl.
  case_decide; simpl; eauto.
Qed.

Lemma hr_inv_step e s s' : inv s → step e s = Some s' → inv s'.
Proof.
  unfold hr_inv. intros Hinv Hstep.
  destruct e; simpl in Hstep; case_decide; try discriminate.
  - (* CallReturns *)
    injection Hstep as <-. simpl.
    destruct (worker s); simpl in *; hr_crush.
  - (* TimerFires *)
    injection Hstep as <-. simpl. destruct (worker s); done.
  - (* TakeTimeout *)
    injection Hstep as <-. simpl. destruct H as [Hw _].
    rewrite Hw in Hinv. destruct Hinv as (? & -> & ?). done.
  - (* SendTimeoutResponse *)
    injection Hstep as <-. simpl. rewrite H in Hinv.
    destruct Hinv as (Hwr & Hh & ?). split; [|done].
    unfold sendResponse. rewrite Hwr, Hh. done.
  - (* TakeCalled *)
    injection Hstep as <-. simpl. left.
    destruct H as [_ [Hw|Hw]]; rewrite Hw in Hinv; hr_crush.
  - (* Respond *)
    assert (Hw : worker s = ReceivingSent ∧ written s = [] ∧ req_h s = h0).
    { destruct (worker s); hr_crush. }
    destruct Hw as (Hw & Hwr & Hh).
    destruct err as [e|] eqn:He; injection Hstep as <-; simpl;
      rewrite Hw; right; (split; [done|]);
      unfold sendResponse, call_response; simpl; rewrite Hwr, Hh; done.
  - (* TakeSent *)
    injection Hstep as <-. simpl. destruct H as [Hi Hw].
    rewrite Hw in Hinv. hr_crush.
Qed.

Lemma hr_inv_run es : ∀ s s', inv s → run es s = Some s' → inv s'.
Proof.
  induction es as [|e es IH]; intros s s' Hinv Hrun; simpl in Hrun.
  - by injection Hrun as <-.
  - destruct (step e s) as [s1|] eqn:Hs; [|done].
    eapply IH; [|done]. by eapply hr_inv_step.
Qed.

(** After the time.After case nothing but the return of the invocation
    can happen, and it writes nothing. *)
Lemma ReturnedTimeout_step e s s' :
  inv s → worker s = ReturnedTimeout → step e s = Some s' →
  e = CallReturns ∧ worker s' = ReturnedTimeout ∧ written s' = written s.
Proof.
  unfold hr_inv. intros Hinv Hw Hstep. rewrite Hw in Hinv.
  destruct Hinv as [_ Hi].
  destruct e; simpl in Hstep; case_decide; try discriminate;
    try (injection Hstep as <-; done); hr_crush.
Qed.

Lemma ReturnedTimeout_run es : ∀ s s',
  inv s → worker s = ReturnedTimeout → run es s = Some s' →
  worker s' = ReturnedTimeout ∧ written s' = written s.
Proof.
  induction es as [|e es IH]; intros s s' Hinv Hw Hrun; simpl in Hrun.
  - by injection Hrun as <-.
  - destruct (step e s) as [s1|] eqn:Hs; [|done].
    destruct (ReturnedTimeout_step e s s1 Hinv Hw Hs) as (_ & Hw1 & Hwr1).
    destruct (IH s1 s') as [Hw' Hwr']; try done.
    + by eapply hr_inv_step.
    + split; [done | congruence].
Qed.

(** The worker can always come to its return: once the invocation has
    returned, or the timer has fired, a response goes out. *)
Lemma handleRequest_can_return s :
  timeout ≠ 0 → inv s → worker s ≠ ReceivingCalled →
  ∃ es s', run es s = Some s' ∧
           (worker s' = ReturnedTimeout ∨ worker s' = ReturnedCalled).
Proof.
  unfold hr_inv. intros Ht Hinv Hrc.
  destruct (worker s) eqn:Hw; try done.
  - (* Selecting *)
    destruct (timer_fired s) eqn:Hf.
    + exists [TakeTimeout; SendTimeoutResponse]. eexists.
      hr_fire. split; [done|]. by left.
    + exists [TimerFires; TakeTimeout; SendTimeoutResponse]. eexists.
      hr_fire. split; [done|]. by left.
  - exists [SendTimeoutResponse]. eexists.
    hr_fire. split; [done|]. by left.
  - exists []. eexists. split; [done|]. left. done.
  - destruct Hinv as [(Hi & _) | (Hi & _)].
    + exists [Respond; TakeSent]. hr_fire.
      destruct err; eexists; hr_fire; (split; [done|]); by right.
    + exists [TakeSent]. eexists. hr_fire.
      split; [done|]. by right.
  - exists []. eexists. split; [done|]. by right.
Qed.

(** The select cannot take the timer before the timer has fired, nor
    [called] before the invocation has returned. *)
Lemma no_TimerFires_no_timeout es : ∀ s s',
  TimerFires ∉ es → timer_fired s = false →
  worker s ≠ TimedOut → worker s ≠ ReturnedTimeout →
  run es s = Some s' →
  worker s' ≠ TimedOut ∧ worker s' ≠ ReturnedTimeout.
Proof.
  induction es as [|e es IH]; intros s s' Hnin Hf Hw1 Hw2 Hrun; simpl in Hrun.
  - by injection Hrun as <-.
  - destruct (step e s) as [s1|] eqn:Hs; [|done].
    apply not_elem_of_cons in Hnin as [Hne Hnin].
    apply (IH s1 s' Hnin); try done;
      destruct e; simpl in Hs; case_decide; try discriminate;
      try (destruct err); injection Hs as <-; simpl; try done;
      hr_crush.
Qed.

Lemma no_CallReturns_invoking es : ∀ s s',
  CallReturns ∉ es → invoker s = Invoking →
  run es s = Some s' → invoker s' = Invoking.
Proof.
  induction es as [|e es IH]; intros s s' Hnin Hi Hrun; simpl in Hrun.
  - by injection Hrun as <-.
  - destruct (step e s) as [s1|] eqn:Hs; [|done].
    apply not_elem_of_cons in Hnin as [Hne Hnin].
    apply (IH s1 s' Hnin); [|done].
    destruct e; simpl in Hs; case_decide; try discriminate;
      try (destruct err); injection Hs as <-; simpl; try done;
      hr_crush.
Qed.

(** Once the worker has taken [called], the response of the invocation
    goes out and the worker returns. *)
Lemma handleRequest_sends_call_response s :
  inv s → worker s = ReceivingSent →
  ∃ es s', run es s = Some s' ∧ worker s' = ReturnedCalled ∧
           written s' = [called_resp].
Proof.
  unfold hr_inv. intros Hinv Hw. rewrite Hw in Hinv.
  destruct Hinv as [(Hi & Hwr & Hh) | (Hi & Hwr)].
  - exists [Respond; TakeSent]. hr_fire.
    unfold sendResponse, call_response.
    destruct err; eexists; hr_fire; rewrite Hwr, Hh; done.
  - exists [TakeSent]. eexists. hr_fire. done.
Qed.

Lemma timeout_message_prefix :
  String.prefix "rpc server: 处理请求超时"
    (timeout_message duration_string timeout) = true.
Proof. reflexivity. Qed.

(** C1, as amended: with a non-zero [HandleTimeout] the worker races
    the invocation against the timer in a select, and the case the select
    takes decides the response, in every schedule: when the select has
    taken [called], the response of the invocation, reply or error, goes
    out, and it is the one frame written when the worker returns; when the
    select has taken the timer, the one frame written carries the request's
    header, hence its seq, with the error "rpc server: 处理请求超时..." and
    the body [invalidRequest]; the invocation is then still running, and
    can run to its end, or is at its send on [called], and whatever happens
    afterwards writes nothing more.  The timeout is never taken before the
    timer has fired, nor [called] before the invocation has returned.  From
    every state the worker can come to one of the two returns, and both are
    possible outcomes of the race. *)
Theorem handleRequest_timeout_race (es : list hr_event) (s : hr_state) :
  timeout ≠ 0 →
  run es init = Some s →
  (worker s = ReturnedCalled → written s = [called_resp]) ∧
  (worker s = ReturnedTimeout →
     written s = [timeout_resp] ∧
     Codec.Seq timeout_resp.1 = Codec.Seq h0 ∧
     String.prefix "rpc server: 处理请求超时" (Codec.Error timeout_resp.1) = true ∧
     timeout_resp.2 = invalidRequest ∧
     (invoker s = Invoking ∨ invoker s = SendingCalled) ∧
     (invoker s = Invoking →
        ∃ s', step CallReturns s = Some s' ∧ invoker s' = SendingCalled) ∧
     (∀ es' s', run es' s = Some s' →
        worker s' = ReturnedTimeout ∧ written s' = [timeout_resp])) ∧
  (worker s = ReceivingSent →
     ∃ es' s', run es' s = Some s' ∧ worker s' = ReturnedCalled ∧
               written s' = [called_resp]) ∧
  (TimerFires ∉ es → worker s ≠ TimedOut ∧ worker s ≠ ReturnedTimeout) ∧
  (CallReturns ∉ es → worker s ≠ ReceivingSent ∧ worker s ≠ ReturnedCalled) ∧
  (∃ es' s', run es' s = Some s' ∧
             (worker s' = ReturnedTimeout ∨ worker s' = ReturnedCalled)) ∧
  (∃ es1 s1, run es1 init = Some s1 ∧ worker s1 = ReturnedTimeout) ∧
  (∃ es2 s2, run es2 init = Some s2 ∧ worker s2 = ReturnedCalled).
Proof.
  intros Ht Hrun.
  assert (Hinv : inv s) by (eapply hr_inv_run; [apply hr_inv_init | done]).
  assert (Hinit : worker init = Selecting).
  { unfold handleRequest_init. simpl. by rewrite decide_False. }
  split; [|split; [|split; [|split; [|split; [|split; [|split]]]]]].
  - intros Hw. unfold hr_inv in Hinv. rewrite Hw in Hinv. by destruct Hinv.
  - intros Hw. pose proof Hinv as Hinv'.
    unfold hr_inv in Hinv'. rewrite Hw in Hinv'. destruct Hinv' as [Hwr Hi].
    split; [done|]. split; [done|]. split; [apply timeout_message_prefix|].
    split; [done|]. split; [done|]. split.
    + intros Hi'. eexists. hr_fire. done.
    + intros es' s' Hrun'.
      destruct (ReturnedTimeout_run es' s s' Hinv Hw Hrun') as [Hw' Hwr'].
      split; [done | congruence].
  - intros Hw.
    destruct (handleRequest_sends_call_response s Hinv Hw) as (es' & s' & ?).
    by exists es', s'.
  - intros Hnin.
    eapply (no_TimerFires_no_timeout es init s); try done; by rewrite Hinit.
  - intros Hnin.
    pose proof (no_CallReturns_invoking es init s Hnin eq_refl Hrun) as Hi.
    unfold hr_inv in Hinv.
    split; intros Hw; rewrite Hw in Hinv; hr_crush.
  - apply handleRequest_can_return; try done.
    (* the worker of a timed request is never at the plain receive *)
    clear Hinv. revert Hrun. generalize Hinit.
    generalize init. clear Hinit. intros s0 Hs0 Hrun.
    assert (Hne : worker s0 ≠ ReceivingCalled) by congruence.
    clear Hs0. revert s0 Hne Hrun.
    induction es as [|e es IH]; intros s0 Hne Hrun; simpl in Hrun.
    + by injection Hrun as <-.
    + destruct (step e s0) as [s1|] eqn:Hs; [|done].
      apply (IH s1); [|done].
      destruct e; simpl in Hs; case_decide; try discriminate;
        try (destruct err); injection Hs as <-; simpl; try done.
  - exists [TimerFires; TakeTimeout; SendTimeoutResponse]. eexists.
    unfold handleRequest_init. rewrite decide_False by done. hr_fire. done.
  - exists [CallReturns; TakeCalled; Respond; TakeSent].
    unfold handleRequest_init. rewrite decide_False by done. hr_fire.
    destruct err; eexists; hr_fire; done.
Qed.
End HandlerTimeout.

Lemma handleRequest_timeout_race_witness :
  ∃ s, Server.hr_run one_second_string (Server.VInt 0) None Second
         [Server.TimerFires; Server.TakeTimeout; Server.SendTimeoutResponse;
          Server.CallReturns]
         (Server.handleRequest_init sum_header Second) = Some s ∧
       Server.written s =
         [({| Codec.ServiceMethod := "Bar.Timeout"; Codec.Seq := 1;
              Codec.Error := "rpc server: 处理请求超时, 超时时间为1s" |},
           Server.invalidRequest)].
Proof.
  eexists. split; [reflexivity|].
  assert (Ht : Second ≠ 0) by discriminate.
  pose proof (handleRequest_timeout_race one_second_string sum_header
                (Server.VInt 0) None Second
                [Server.TimerFires; Server.TakeTimeout;
                 Server.SendTimeoutResponse; Server.CallReturns]
                _ Ht eq_refl) as (_ & H & _).
  destruct (H eq_refl) as (Hwr & _). exact Hwr.
Defined.

(** C1 as stated fails: which of the two events happens first does not
    decide the response.  When the invocation returns and the timer then
    fires before the select of the worker runs, both cases are ready and
    the select may take the timer: the timeout response is written although
    the invocation completed first.  And when the timer fires first and the
    invocation returns before the select runs, the select may take
    [called]: the response of the invocation is written although the timer
    fired first. *)
Lemma handleRequest_first_event_counterexample :
  (∃ s,
     Server.hr_run one_second_string (Server.VInt 7) None Second
       [Server.CallReturns; Server.TimerFires; Server.TakeTimeout;
        Server.SendTimeoutResponse]
       (Server.handleRequest_init sum_header Second) = Some s ∧
     Server.first_of_race
       [Server.CallReturns; Server.TimerFires; Server.TakeTimeout;
        Server.SendTimeoutResponse] = Some Server.CallReturns ∧
     Server.worker s = Server.ReturnedTimeout ∧
     Server.written s
       = [Server.timeout_response one_second_string sum_header Second] ∧
     Server.written s ≠ [Server.call_response sum_header (Server.VInt 7) None]) ∧
  (∃ s,
     Server.hr_run one_second_string (Server.VInt 7) None Second
       [Server.TimerFires; Server.CallReturns; Server.TakeCalled;
        Server.Respond; Server.TakeSent]
       (Server.handleRequest_init sum_header Second) = Some s ∧
     Server.first_of_race
       [Server.TimerFires; Server.CallReturns; Server.TakeCalled;
        Server.Respond; Server.TakeSent] = Some Server.TimerFires ∧
     Server.worker s = Server.ReturnedCalled ∧
     Server.written s = [Server.call_response sum_header (Server.VInt 7) None] ∧
     Server.written s
       ≠ [Server.timeout_response one_second_string sum_header Second]).
Proof.
  split; eexists; (split; [vm_compute; reflexivity|]);
    (split; [reflexivity|]); (split; [reflexivity|]);
    (split; [reflexivity|]); vm_compute; discriminate.
Qed.

(* --------------------------------------------------------------------- *)
(** ** Client: availability *)

Section ClientFlags.
Import Client.

#[local] Instance flags_le_refl : Reflexive flags_le.
Proof. by intros s. Qed.

#[local] Instance flags_le_trans : Transitive flags_le.
Proof. intros s1 s2 s3 [] []. split; eauto. Qed.

Lemma done_flags c s : flags_le s (final_state (done c s)).
Proof.
  unfold done. destruct (calls s !! c) as [call|]; [|done].
  destruct (chans s !! Done call) as [ch|]; [|done].
  case_decide; done.
Qed.

Lemma terminate_loop_flags err order : ∀ s,
  flags_le s (final_state (terminate_loop err order s)).
Proof.
  induction order as [|[k c] order IH]; intros s; [done|]. simpl.
  pose proof (done_flags c (update_call (set_Error (Some err)) c s)) as Hd.
  destruct (done c _) as [[] s'| s' | s']; simpl in *; try done.
  by etrans; [|apply IH].
Qed.

Lemma send_flags c wr s : flags_le s (final_state (send c wr s)).
Proof.
  unfold send, registerCall.
  destruct (closing s || shutdown s) eqn:E.
  - apply (done_flags c (update_call (set_Error (Some ErrShutdown)) c s)).
  - cbn. match goal with |- context [alter ?f c (calls s) !! c] =>
           destruct (alter f c (calls s) !! c) as [call|] end; [|done].
    destruct wr as [e|]; [|done].
    unfold removeCall. cbn.
    match goal with |- context [?m !! seq s] => destruct (m !! seq s) as [c'|] end;
      [|done].
    match goal with |- flags_le _ (final_state (done c' ?s0)) =>
      apply (done_flags c' s0) end.
Qed.

Lemma Go_flags sm args reply dn wr s :
  flags_le s (final_state (Go sm args reply dn wr s)).
Proof.
  unfold Go, make_chan. destruct dn as [d|].
  - case_decide; [done|].
    match goal with |- context [send ?c wr ?s0] =>
      pose proof (send_flags c wr s0) as H0; destruct (send c wr s0) end; done.
  - match goal with |- context [send ?c wr ?s0] =>
      pose proof (send_flags c wr s0) as H0; destruct (send c wr s0) end; done.
Qed.

Lemma recv_flags d s c s' : recv d s = Some (c, s') → flags_le s s'.
Proof.
  unfold recv. destruct (chans s !! d) as [[n [|x rest]]|]; try done.
  by intros [= <- <-].
Qed.

Lemma Client_Call_flags ctx_done pick_ctx ctx_err sm args reply wr s :
  flags_le s (final_state (Client_Call ctx_done pick_ctx ctx_err sm args reply wr s)).
Proof.
  unfold Client_Call, make_chan.
  match goal with |- context [Go sm args reply ?dn wr ?s0] =>
    pose proof (Go_flags sm args reply dn wr s0) as HG;
    destruct (Go sm args reply dn wr s0) as [c s1|s1|s1] end; try done.
  simpl in HG. destruct (calls s1 !! c) as [call|]; [|done].
  destruct (recv (Done call) s1) as [[c' s2]|] eqn:Hr.
  - destruct (ctx_done && pick_ctx); [done|]. simpl.
    etrans; [exact HG|]. by eapply recv_flags.
  - by destruct ctx_done.
Qed.

Lemma receive_turn_flags h body_err v s :
  flags_le s (final_state (receive_turn h body_err v s)).
Proof.
  unfold receive_turn, removeCall.
  destruct (pending s !! Codec.Seq h) as [c|]; [|done].
  case_decide.
  - match goal with |- context [done c ?s0] =>
      pose proof (done_flags c s0) as H0; destruct (done c s0) end; done.
  - match goal with |- context [done c ?s0] =>
      pose proof (done_flags c s0) as H0; destruct (done c s0) end;
      destruct body_err; done.
Qed.

Lemma exec_op_flags o s : flags_le s (exec_op o s).
Proof.
  destruct o; simpl.
  - unfold Close. destruct (closing s) eqn:E; [done|]. split; simpl; congruence.
  - apply Go_flags.
  - apply Client_Call_flags.
  - done.
  - done.
  - apply receive_turn_flags.
  - unfold terminateCalls. etrans; [|apply terminate_loop_flags]. by split.
  - destruct (recv d s) as [[c s']|] eqn:Hr; [by eapply recv_flags | done].
Qed.


Lemma Close_sets_closing close_err s : closing (Close close_err s).2 = true.
Proof. unfold Close. by destruct (closing s) eqn:E. Qed.

Lemma terminateCalls_sets_shutdown order err s :
  shutdown (final_state (terminateCalls order err s)) = true.
Proof.
  unfold terminateCalls.
  by apply (terminate_loop_flags err order (set_shutdown true s)).
Qed.

End ClientFlags.

Section ClientCalls.
Import Client.

Lemma lookup_alter_snoc {A} (f : A → A) (l : list A) (x : A) :
  alter f (length l) (l ++ [x]) !! length l = Some (f x).
Proof.
  rewrite list_lookup_alter, decide_True by done.
  by rewrite list_lookup_middle.
Qed.

Lemma done_proceeds c s call ch :
  calls s !! c = Some call → chans s !! Done call = Some ch →
  (length (chan_buf ch) < chan_cap ch)%nat →
  done c s = Returns tt
    (set_chans (<[Done call := {| chan_cap := chan_cap ch;
                                  chan_buf := chan_buf ch ++ [c] |}]> (chans s)) s).
Proof. intros Hc Hd Hlt. unfold done. rewrite Hc, Hd. by rewrite decide_True. Qed.




End ClientCalls.


(** [Go] itself is parked when its [done] channel is full: on a closed
    client a second [Go] on the same channel of capacity 1 does not return. *)
Lemma Go_full_channel_blocks :
  ∃ s',
    Client.Go "Foo.Sum" (Server.VInt 2) (Server.VInt 0) (Some 0%nat) None
      (Client.exec_ops
         [Client.OpMakeChan 1;
          Client.OpGo "Foo.Sum" (Server.VInt 1) (Server.VInt 0) (Some 0%nat) None]
         closed_client)
    = Client.Blocks s'.
Proof. eexists. vm_compute. reflexivity. Qed.


(* --------------------------------------------------------------------- *)
(** ** Client: the [done] argument of [Go] *)

Section GoDone.
Import Client.


Lemma lookup_alter_alter_snoc {A} (f g : A → A) (l : list A) (x : A) :
  alter f (length l) (alter g (length l) (l ++ [x])) !! length l = Some (f (g x)).
Proof.
  rewrite list_lookup_alter, decide_True by done.
  by rewrite lookup_alter_snoc.
Qed.




End GoDone.

(* --------------------------------------------------------------------- *)
(** ** Client: the store stays well formed *)

Section ClientWf.
Import Client.

Lemma client_wf_ext s s' :
  pending s' = pending s → calls s' = calls s → chans s' = chans s →
  client_wf s → client_wf s'.
Proof. unfold client_wf. intros -> -> ->. done. Qed.

(** Channels may be added, and a buffer may change within its capacity. *)
Lemma client_wf_set_chans l s :
  (length (chans s) ≤ length l)%nat →
  (∀ d ch, l !! d = Some ch → (length (chan_buf ch) ≤ chan_cap ch)%nat) →
  client_wf s → client_wf (set_chans l s).
Proof.
  intros Hl Hb (H1 & H2 & H3 & H4). split; [done|]. split; [done|].
  split; [|done].
  intros c call Hc. simpl in *. specialize (H3 c call Hc). lia.
Qed.

Lemma client_wf_insert_chan d ch s :
  (length (chan_buf ch) ≤ chan_cap ch)%nat →
  client_wf s → client_wf (set_chans (<[d := ch]> (chans s)) s).
Proof.
  intros Hch Hwf. apply client_wf_set_chans; [by rewrite length_insert| |done].
  intros d' ch' Hd'. destruct Hwf as (_ & _ & _ & H4).
  destruct (decide (d = d')) as [<-|Hne].
  - destruct (decide (d < length (chans s))%nat).
    + rewrite list_lookup_insert_eq in Hd' by done. by injection Hd' as <-.
    + rewrite list_insert_ge in Hd' by lia. by eapply H4.
  - rewrite list_lookup_insert_ne in Hd' by done. by eapply H4.
Qed.

Lemma client_wf_make_chan n s : client_wf s → client_wf (make_chan n s).2.
Proof.
  intros Hwf. unfold make_chan. simpl.
  apply client_wf_set_chans; [rewrite length_app; simpl; lia | | done].
  intros d ch Hd. destruct Hwf as (_ & _ & _ & H4).
  apply lookup_app_Some in Hd as [Hd | [_ Hd]]; [by eapply H4|].
  destruct (d - length (chans s))%nat; [|done]. injection Hd as <-. simpl. lia.
Qed.

Lemma client_wf_update_call f c s :
  (∀ call, Done (f call) = Done call) →
  client_wf s → client_wf (update_call f c s).
Proof.
  intros Hf (H1 & H2 & H3 & H4). split; [|split; [done|split; [|done]]].
  - intros k c' Hk. simpl. rewrite length_alter. by eapply H1.
  - intros c' call. simpl. rewrite list_lookup_alter.
    case_decide; [|by apply H3]. subst.
    destruct (calls s !! c') as [call0|] eqn:Hc; [|done].
    intros [= <-]. rewrite Hf. by eapply H3.
Qed.

Lemma client_wf_delete k s :
  client_wf s → client_wf (set_pending (delete k (pending s)) s).
Proof.
  intros (H1 & H2 & H3). split; [|split; [|done]]; simpl.
  - intros k' c [_ Hk]%lookup_delete_Some. by eapply H1.
  - intros k1 k2 c [_ Hk1]%lookup_delete_Some [_ Hk2]%lookup_delete_Some.
    by eapply H2.
Qed.

Lemma client_wf_insert k c s :
  (c < length (calls s))%nat →
  (∀ k' c', pending s !! k' = Some c' → c' ≠ c) →
  client_wf s → client_wf (set_pending (<[k := c]> (pending s)) s).
Proof.
  intros Hc Hfresh (H1 & H2 & H3). split; [|split; [|done]]; simpl.
  - intros k' c' [[_ <-]|[_ Hk]]%lookup_insert_Some; [done | by eapply H1].
  - intros k1 k2 c' [[<- <-]|[Hn1 Hk1]]%lookup_insert_Some
                     [[<- Hc2]|[Hn2 Hk2]]%lookup_insert_Some; try done.
    + exfalso. by eapply Hfresh.
    + exfalso. subst. by eapply Hfresh.
    + by eapply H2.
Qed.

Lemma client_wf_new_call call s :
  (Done call < length (chans s))%nat →
  client_wf s → client_wf (set_calls (calls s ++ [call]) s).
Proof.
  intros Hd (H1 & H2 & H3 & H4). split; [|split; [done|split; [|done]]]; simpl.
  - intros k c Hk. rewrite length_app. specialize (H1 k c Hk). lia.
  - intros c call' Hc. apply lookup_app_Some in Hc as [Hc | [_ Hc]].
    + by eapply H3.
    + destruct (c - length (calls s))%nat; [|done]. by injection Hc as <-.
Qed.

Lemma done_wf c s : client_wf s → client_wf (final_state (done c s)).
Proof.
  intros Hwf. unfold done. destruct (calls s !! c) as [call|]; [|done].
  destruct (chans s !! Done call) as [ch|]; [|done].
  case_decide; [|done]. simpl.
  apply client_wf_insert_chan; [|done]. simpl. rewrite length_app. simpl. lia.
Qed.

Lemma set_Error_Done e call : Done (set_Error e call) = Done call.
Proof. done. Qed.

Lemma terminate_loop_wf err order : ∀ s,
  client_wf s → client_wf (final_state (terminate_loop err order s)).
Proof.
  induction order as [|[k c] order IH]; intros s Hwf; [done|]. simpl.
  pose proof (done_wf c (update_call (set_Error (Some err)) c s)
                (client_wf_update_call _ c s (set_Error_Done _) Hwf)) as Hd.
  destruct (done c _) as [[] s'| s' | s']; simpl in *; try done.
  by apply IH.
Qed.

Lemma send_wf c wr s :
  (c < length (calls s))%nat →
  (∀ k' c', pending s !! k' = Some c' → c' ≠ c) →
  client_wf s → client_wf (final_state (send c wr s)).
Proof.
  intros Hc Hfresh Hwf. unfold send, registerCall.
  destruct (closing s || shutdown s).
  - apply done_wf. by apply client_wf_update_call.
  - set (s1 := update_call (set_Seq (seq s)) c s).
    assert (Hwf1 : client_wf s1) by (by apply client_wf_update_call).
    set (s2 := set_pending (<[seq s := c]> (pending s1)) s1).
    assert (Hwf2 : client_wf s2).
    { apply client_wf_insert; [|done|done]. simpl. by rewrite length_alter. }
    set (s3 := set_seq (wrap_uint64 (seq s2 + 1)) s2).
    assert (Hwf3 : client_wf s3) by (by eapply client_wf_ext).
    destruct (calls s3 !! c) as [call|]; [|done].
    match goal with |- context [set_header ?h s3] =>
      assert (Hwf4 : client_wf (set_header h s3)) by (by eapply client_wf_ext);
      set (s4 := set_header h s3) in * end.
    destruct wr as [e|].
    + unfold removeCall.
      pose proof (client_wf_delete (seq s) s4 Hwf4) as Hwf5.
      destruct (pending s4 !! seq s) as [c'|]; simpl; [|done].
      apply done_wf. by apply client_wf_update_call.
    + simpl. by eapply client_wf_ext.
Qed.

Lemma Go_wf sm args reply dn wr s :
  client_wf s → client_wf (final_state (Go sm args reply dn wr s)).
Proof.
  intros Hwf. unfold Go.
  assert (Hgo : ∀ d s1, client_wf s1 → (d < length (chans s1))%nat →
    client_wf (final_state
      match send (length (calls s1)) wr
              (set_calls (calls s1 ++
                 [{| Seq := 0; ServiceMethod := sm; Args := args; Reply := reply;
                     Error := None; Done := d |}]) s1) with
      | Returns _ s2 => Returns (length (calls s1)) s2
      | Blocks s2 => Blocks s2
      | Panics s2 => Panics s2
      end)).
  { intros d s1 Hwf1 Hd.
    match goal with |- context [send ?c wr ?s0] =>
      pose proof (send_wf c wr s0) as Hs; destruct (send c wr s0) end;
      simpl in *; apply Hs; try (rewrite length_app; simpl; lia);
      try (by apply client_wf_new_call);
      intros k' c' Hk' ->; destruct Hwf1 as (H1 & _);
      specialize (H1 k' _ Hk'); lia. }
  destruct dn as [d|].
  - case_decide as Hcap; [done|]. apply Hgo; [done|].
    unfold cap in Hcap. destruct (chans s !! d) eqn:Hd; [|done].
    by eapply lookup_lt_Some.
  - pose proof (client_wf_make_chan 1 s Hwf) as Hm.
    unfold make_chan in *. apply Hgo; [done|].
    simpl. rewrite length_app. simpl. lia.
Qed.

Lemma recv_wf d s c s' : recv d s = Some (c, s') → client_wf s → client_wf s'.
Proof.
  unfold recv. destruct (chans s !! d) as [[n [|x rest]]|] eqn:Hd; try done.
  intros [= <- <-] Hwf. apply client_wf_insert_chan; [|done].
  destruct Hwf as (_ & _ & _ & H4). specialize (H4 d _ Hd). simpl in *. lia.
Qed.

Lemma Client_Call_wf ctx_done pick_ctx ctx_err sm args reply wr s :
  client_wf s →
  client_wf (final_state (Client_Call ctx_done pick_ctx ctx_err sm args reply wr s)).
Proof.
  intros Hwf. pose proof (client_wf_make_chan 1 s Hwf) as Hwf0.
  unfold Client_Call, make_chan in *.
  match goal with |- context [Go sm args reply ?dn wr ?s0] =>
    pose proof (Go_wf sm args reply dn wr s0 Hwf0) as HG;
    destruct (Go sm args reply dn wr s0) as [c s1|s1|s1] end; try done.
  simpl in HG. destruct (calls s1 !! c) as [call|]; [|done].
  destruct (recv (Done call) s1) as [[c' s2]|] eqn:Hr.
  - destruct (ctx_done && pick_ctx); simpl.
    + by apply client_wf_delete.
    + by eapply recv_wf.
  - destruct ctx_done; simpl; [by apply client_wf_delete | done].
Qed.

Lemma receive_turn_wf h body_err v s :
  client_wf s → client_wf (final_state (receive_turn h body_err v s)).
Proof.
  intros Hwf. unfold receive_turn, removeCall.
  pose proof (client_wf_delete (Codec.Seq h) s Hwf) as Hwf1.
  destruct (pending s !! Codec.Seq h) as [c|]; [|done].
  case_decide.
  - match goal with |- context [done c ?s0] =>
      pose proof (done_wf c s0) as Hd; destruct (done c s0) end;
      simpl in *; apply Hd; by apply client_wf_update_call.
  - match goal with |- context [done c ?s0] =>
      pose proof (done_wf c s0) as Hd; destruct (done c s0) end;
      simpl in *; apply Hd; destruct body_err; by apply client_wf_update_call.
Qed.

Lemma exec_op_wf o s : client_wf s → client_wf (exec_op o s).
Proof.
  intros Hwf. destruct o; simpl.
  - unfold Close. destruct (closing s); [done|]. by eapply client_wf_ext.
  - by apply Go_wf.
  - by apply Client_Call_wf.
  - by apply (client_wf_make_chan n s).
  - by apply client_wf_delete.
  - by apply receive_turn_wf.
  - unfold terminateCalls. apply terminate_loop_wf. by eapply client_wf_ext.
  - destruct (recv d s) as [[c s']|] eqn:Hr; [by eapply recv_wf | done].
Qed.

Lemma newClientCodec_wf : client_wf newClientCodec.
Proof. repeat split; intros *; simpl; by rewrite ?lookup_empty. Qed.

(** Every state a client can come to is well formed. *)
Lemma exec_ops_wf os : ∀ s, client_wf s → client_wf (exec_ops os s).
Proof.
  induction os as [|o os IH]; intros s Hwf; [done|]. simpl.
  apply IH. by apply exec_op_wf.
Qed.

Lemma client_wf_pending_NoDup s :
  client_wf s → NoDup (map_to_list (pending s)).*2.
Proof.
  intros (_ & Hinj & _). apply NoDup_fmap_2_strong; [|apply NoDup_map_to_list].
  intros [k1 c1] [k2 c2] H1%elem_of_map_to_list H2%elem_of_map_to_list Heq.
  simpl in Heq. subst. f_equal. by eapply Hinj.
Qed.

Lemma client_wf_calls_valid s :
  client_wf s → calls_valid s (map_to_list (pending s)).*2.
Proof.
  intros (Hv & _ & Hd & _) c Hc.
  apply list_elem_of_fmap in Hc as ([k c'] & -> & Hk%elem_of_map_to_list).
  simpl. destruct (lookup_lt_is_Some_2 (calls s) c') as [call Hcall];
    [by eapply Hv|].
  destruct (lookup_lt_is_Some_2 (chans s) (Done call)) as [ch Hch];
    [by eapply Hd|].
  eauto.
Qed.

(** When every pending call has a channel of its own, empty and of
    capacity at least 1, the signals fit. *)
Lemma own_channels_signals_fit s :
  client_wf s → own_channels s → pending_signals_fit s.
Proof.
  intros Hwf Hown d ch Hch.
  pose proof (client_wf_pending_NoDup s Hwf) as Hnd.
  destruct Hwf as (Hv & _ & _ & Hcap).
  destruct (targets s (map_to_list (pending s)).*2 d) as [|c1 l] eqn:Ht.
  { simpl. specialize (Hcap d ch Hch). lia. }
  assert (Hc1 : c1 ∈ targets s (map_to_list (pending s)).*2 d)
    by (rewrite Ht; by left).
  unfold targets in Hc1. apply list_elem_of_filter in Hc1 as [Hd1 Hin1].
  apply list_elem_of_fmap in Hin1 as ([k1 c1'] & Heq1 & Hk1%elem_of_map_to_list).
  simpl in Heq1. subst c1'. unfold Done_of in Hd1.
  destruct (calls s !! c1) as [call1|] eqn:Hcall1; [|done].
  simpl in Hd1. injection Hd1 as <-.
  destruct (Hown k1 c1 call1 Hk1 Hcall1) as ((ch' & Hch' & Hbuf & Hcap1) & Huniq).
  assert (ch' = ch) as -> by congruence.
  assert (Hl : l = []).
  { destruct l as [|c2 l']; [done|]. exfalso.
    assert (Hnd' : NoDup (c1 :: c2 :: l')).
    { rewrite <- Ht. by apply NoDup_filter. }
    assert (Hc2 : c2 ∈ targets s (map_to_list (pending s)).*2 (Done call1))
      by (rewrite Ht; right; by left).
    unfold targets in Hc2. apply list_elem_of_filter in Hc2 as [Hd2 Hin2].
    apply list_elem_of_fmap in Hin2 as ([k2 c2'] & Heq2 & Hk2%elem_of_map_to_list).
    simpl in Heq2. subst c2'. unfold Done_of in Hd2.
    destruct (calls s !! c2) as [call2|] eqn:Hcall2; [|done].
    simpl in Hd2. injection Hd2 as Hd2.
    pose proof (Huniq k2 c2 call2 Hk2 Hcall2 Hd2) as ->.
    apply NoDup_cons in Hnd' as [Hnin _]. apply Hnin. by left. }
  rewrite Hl, Hbuf. simpl. lia.
Qed.
End ClientWf.

(* --------------------------------------------------------------------- *)
(** ** Client: calls with a channel of their own *)

Section ChannelsOwned.
Import Client.

Lemma channels_owned_own s : channels_owned s → own_channels s.
Proof.
  intros [Hinj Hemp] k c call Hk Hc. split; [by eapply Hemp|].
  intros k' c' call' Hk' Hc' Hd. by eapply Hinj.
Qed.

Lemma owned_ext s s' :
  pending s' = pending s → calls s' = calls s → chans s' = chans s →
  channels_owned s → channels_owned s'.
Proof. unfold channels_owned. intros -> -> ->. done. Qed.

Lemma owned_delete k s :
  channels_owned s → channels_owned (set_pending (delete k (pending s)) s).
Proof.
  intros [Hinj Hemp]. split; [done|]. simpl.
  intros k' c call [_ Hk]%lookup_delete_Some Hc. by eapply Hemp.
Qed.

Lemma lookup_alter_Done f c (l : list Call) c' call' :
  (∀ call, Done (f call) = Done call) →
  alter f c l !! c' = Some call' →
  ∃ call, l !! c' = Some call ∧ Done call' = Done call.
Proof.
  intros Hf. rewrite list_lookup_alter. case_decide; [subst|by eauto].
  destruct (l !! c') as [call|]; [|done]. intros [= <-]. eauto.
Qed.

Lemma owned_update_call f c s :
  (∀ call, Done (f call) = Done call) →
  channels_owned s → channels_owned (update_call f c s).
Proof.
  intros Hf [Hinj Hemp]. split; simpl.
  - intros c1 c2 call1 call2 H1 H2 Hd.
    apply (lookup_alter_Done f) in H1 as (call1' & H1 & Hd1); [|done].
    apply (lookup_alter_Done f) in H2 as (call2' & H2 & Hd2); [|done].
    eapply Hinj; [done | done | congruence].
  - intros k c' call Hk Hc.
    apply (lookup_alter_Done f) in Hc as (call' & Hc & Hd); [|done].
    rewrite Hd. by eapply Hemp.
Qed.

Lemma owned_insert k c call s :
  calls s !! c = Some call →
  (∃ ch, chans s !! Done call = Some ch ∧ chan_buf ch = [] ∧ (1 ≤ chan_cap ch)%nat) →
  channels_owned s → channels_owned (set_pending (<[k := c]> (pending s)) s).
Proof.
  intros Hc Hch [Hinj Hemp]. split; [done|]. simpl.
  intros k' c' call' [[_ <-]|[_ Hk]]%lookup_insert_Some Hc'.
  - assert (call' = call) as -> by congruence. done.
  - by eapply Hemp.
Qed.

(** Signalling a call that is not pending leaves the channels of the
    pending calls as they are. *)
Lemma owned_done c s :
  channels_owned s → (∀ k, pending s !! k ≠ Some c) →
  channels_owned (final_state (done c s)).
Proof.
  intros [Hinj Hemp] Hnp. unfold done.
  destruct (calls s !! c) as [call|] eqn:Hc; [|done].
  destruct (chans s !! Done call) as [ch|] eqn:Hch; [|done].
  case_decide; [|done]. simpl. split; [done|]. simpl.
  intros k c' call' Hk Hc'.
  assert (Hne : Done call ≠ Done call').
  { intros Hd. assert (c = c') by (by eapply Hinj). subst. by eapply Hnp. }
  rewrite list_lookup_insert_ne by done. by eapply Hemp.
Qed.

Lemma owned_recv d s c s' :
  recv d s = Some (c, s') → channels_owned s → channels_owned s'.
Proof.
  unfold recv. destruct (chans s !! d) as [[n [|x rest]]|] eqn:Hd; try done.
  intros [= <- <-] [Hinj Hemp]. split; [done|]. simpl.
  intros k c' call' Hk Hc'.
  destruct (Hemp k c' call' Hk Hc') as (ch & Hch & Hbuf & Hcap).
  assert (Hne : d ≠ Done call').
  { intros ->. rewrite Hd in Hch. injection Hch as <-. done. }
  rewrite list_lookup_insert_ne by done. eauto.
Qed.

Lemma owned_make_chan n s : channels_owned s → channels_owned (make_chan n s).2.
Proof.
  intros [Hinj Hemp]. split; [done|]. simpl.
  intros k c call Hk Hc.
  destruct (Hemp k c call Hk Hc) as (ch & Hch & Hrest).
  exists ch. split; [|done]. by apply lookup_app_l_Some.
Qed.

(** A call made with a channel that no other call uses: [send] keeps
    the channels owned. *)
Lemma send_fresh_owned d call wr s :
  client_wf s → channels_owned s →
  Done call = d →
  (∃ ch, chans s !! d = Some ch ∧ chan_buf ch = [] ∧ (1 ≤ chan_cap ch)%nat) →
  (∀ c' call', calls s !! c' = Some call' → Done call' ≠ d) →
  channels_owned
    (final_state (send (length (calls s)) wr (set_calls (calls s ++ [call]) s))).
Proof.
  intros Hwf Hown Hd Hch Hfresh.
  set (c := length (calls s)).
  set (s0 := set_calls (calls s ++ [call]) s).
  assert (Hnp : ∀ k, pending s !! k ≠ Some c).
  { intros k Hk. destruct Hwf as (H1 & _). specialize (H1 k c Hk).
    unfold c in H1. lia. }
  assert (Hown0 : channels_owned s0).
  { destruct Hown as [Hinj Hemp]. split; simpl.
    - intros c1 c2 call1 call2 H1 H2 Hdd.
      apply lookup_app_Some in H1 as [H1 | [Hl1 H1]];
        apply lookup_app_Some in H2 as [H2 | [Hl2 H2]].
      + by eapply Hinj.
      + exfalso. destruct (c2 - length (calls s))%nat; [|done].
        injection H2 as <-. eapply Hfresh; [done | congruence].
      + exfalso. destruct (c1 - length (calls s))%nat; [|done].
        injection H1 as <-. eapply Hfresh; [done | congruence].
      + destruct (c1 - length (calls s))%nat eqn:E1; [|done].
        destruct (c2 - length (calls s))%nat eqn:E2; [|done]. lia.
    - intros k c' call' Hk Hc'.
      apply lookup_app_Some in Hc' as [Hc' | [Hl Hc']]; [by eapply Hemp|].
      exfalso. destruct Hwf as (H1 & _). specialize (H1 k c' Hk). lia. }
  assert (Hc0 : calls s0 !! c = Some call) by (by apply list_lookup_middle).
  unfold send, registerCall.
  change (closing s0) with (closing s). change (shutdown s0) with (shutdown s).
  destruct (closing s || shutdown s).
  - apply owned_done; [by apply owned_update_call | done].
  - set (s1 := update_call (set_Seq (seq s0)) c s0).
    assert (Hown1 : channels_owned s1) by (by apply owned_update_call).
    assert (Hc1 : calls s1 !! c = Some (set_Seq (seq s0) call)).
    { unfold s1, c. simpl. rewrite list_lookup_alter, decide_True by done.
      by rewrite list_lookup_middle. }
    set (s2 := set_pending (<[seq s0 := c]> (pending s1)) s1).
    assert (Hown2 : channels_owned s2).
    { eapply owned_insert; [exact Hc1 | | done]. simpl. by rewrite Hd. }
    set (s3 := set_seq (wrap_uint64 (seq s2 + 1)) s2).
    assert (Hown3 : channels_owned s3) by (by eapply owned_ext).
    assert (Hc3 : calls s3 !! c = Some (set_Seq (seq s0) call)) by done.
    rewrite Hc3.
    match goal with |- context [set_header ?h s3] =>
      assert (Hown4 : channels_owned (set_header h s3)) by (by eapply owned_ext);
      set (s4 := set_header h s3) in * end.
    destruct wr as [e|].
    + unfold removeCall.
      assert (Hp4 : pending s4 !! seq s0 = Some c) by apply lookup_insert_eq.
      rewrite Hp4. simpl.
      apply owned_done.
      * apply owned_update_call; [done|]. by apply owned_delete.
      * simpl. intros k [Hne Hk]%lookup_delete_Some.
        rewrite lookup_insert_ne in Hk by done. by eapply Hnp.
    + simpl. by eapply owned_ext.
Qed.

Lemma Go_fresh_owned sm args reply wr s d :
  client_wf s → channels_owned s →
  (∃ ch, chans s !! d = Some ch ∧ chan_buf ch = [] ∧ (1 ≤ chan_cap ch)%nat) →
  (∀ c' call', calls s !! c' = Some call' → Done call' ≠ d) →
  channels_owned (final_state (Go sm args reply (Some d) wr s)).
Proof.
  intros Hwf Hown Hch Hfresh. unfold Go.
  case_decide as Hcap.
  { exfalso. unfold cap in Hcap. destruct Hch as (ch & Hch & _ & Hc).
    rewrite Hch in Hcap. lia. }
  match goal with |- context [send _ wr (set_calls (calls s ++ [?call]) s)] =>
    pose proof (send_fresh_owned d call wr s Hwf Hown eq_refl Hch Hfresh) as Hs
  end.
  destruct (send _ wr _); done.
Qed.

Lemma make_chan_fresh n s :
  client_wf s → (1 ≤ n)%nat →
  (∃ ch, chans (make_chan n s).2 !! (make_chan n s).1 = Some ch ∧
         chan_buf ch = [] ∧ (1 ≤ chan_cap ch)%nat) ∧
  (∀ c' call', calls (make_chan n s).2 !! c' = Some call' →
     Done call' ≠ (make_chan n s).1).
Proof.
  intros (_ & _ & H3 & _) Hn. simpl. split.
  - eexists. rewrite list_lookup_middle by done. done.
  - intros c' call' Hc' Hd. specialize (H3 c' call' Hc'). lia.
Qed.

Lemma Go_nil_owned sm args reply wr s :
  client_wf s → channels_owned s →
  channels_owned (final_state (Go sm args reply None wr s)).
Proof.
  intros Hwf Hown.
  destruct (make_chan_fresh 1 s Hwf) as [Hch Hfresh]; [lia|].
  pose proof (Go_fresh_owned sm args reply wr (make_chan 1 s).2 (make_chan 1 s).1
                (client_wf_make_chan 1 s Hwf) (owned_make_chan 1 s Hown)
                Hch Hfresh) as HG.
  unfold Go in *. simpl in *. rewrite decide_False in HG; [done|].
  unfold cap. simpl. rewrite list_lookup_middle by done. done.
Qed.

Lemma Client_Call_owned ctx_done pick_ctx ctx_err sm args reply wr s :
  client_wf s → channels_owned s →
  channels_owned
    (final_state (Client_Call ctx_done pick_ctx ctx_err sm args reply wr s)).
Proof.
  intros Hwf Hown.
  destruct (make_chan_fresh 1 s Hwf) as [Hch Hfresh]; [lia|].
  pose proof (Go_fresh_owned sm args reply wr (make_chan 1 s).2 (make_chan 1 s).1
                (client_wf_make_chan 1 s Hwf) (owned_make_chan 1 s Hown)
                Hch Hfresh) as HG.
  unfold Client_Call. simpl in *.
  destruct (Go sm args reply _ wr _) as [c s1|s1|s1]; try done.
  simpl in HG. destruct (calls s1 !! c) as [call|]; [|done].
  destruct (recv (Done call) s1) as [[c' s2]|] eqn:Hr.
  - destruct (ctx_done && pick_ctx); simpl.
    + by apply owned_delete.
    + by eapply owned_recv.
  - destruct ctx_done; simpl; [by apply owned_delete | done].
Qed.

Lemma receive_turn_owned h body_err v s :
  client_wf s → channels_owned s →
  channels_owned (final_state (receive_turn h body_err v s)).
Proof.
  intros Hwf Hown. unfold receive_turn, removeCall.
  pose proof (owned_delete (Codec.Seq h) s Hown) as Hown1.
  destruct (pending s !! Codec.Seq h) as [c|] eqn:Hp; [|done].
  assert (Hnp : ∀ k, delete (Codec.Seq h) (pending s) !! k ≠ Some c).
  { intros k [Hne Hk]%lookup_delete_Some. destruct Hwf as (_ & Hinj & _).
    apply Hne. by eapply Hinj. }
  case_decide.
  - match goal with |- context [done c ?s0] =>
      pose proof (owned_done c s0) as Hd; destruct (done c s0) end;
      simpl in *; apply Hd; try done; by apply owned_update_call.
  - match goal with |- context [done c ?s0] =>
      pose proof (owned_done c s0) as Hd; destruct (done c s0) end;
      simpl in *; apply Hd; destruct body_err; try done;
      by apply owned_update_call.
Qed.

Lemma exec_op_owned o s :
  own_channel_op o → client_wf s → channels_owned s →
  channels_owned (exec_op o s).
Proof.
  intros Ho Hwf Hown. destruct o; simpl in *.
  - unfold Close. destruct (closing s); [done|]. by eapply owned_ext.
  - subst. by apply Go_nil_owned.
  - by apply Client_Call_owned.
  - by apply (owned_make_chan n s).
  - by apply owned_delete.
  - by apply receive_turn_owned.
  - done.
  - destruct (recv d s) as [[c s']|] eqn:Hr; [by eapply owned_recv | done].
Qed.

Lemma newClientCodec_owned : channels_owned newClientCodec.
Proof. split; intros *; simpl; by rewrite ?lookup_nil, ?lookup_empty. Qed.

(** A client whose calls are all made with a [nil] [done] or through
    [Call] keeps, until [terminateCalls] runs, a channel of its own for
    every pending call. *)
Lemma exec_ops_owned os : ∀ s,
  Forall own_channel_op os → client_wf s → channels_owned s →
  channels_owned (exec_ops os s).
Proof.
  induction os as [|o os IH]; intros s Hos Hwf Hown; [done|]. simpl.
  apply Forall_cons in Hos as [Ho Hos].
  apply IH; [done | by apply exec_op_wf | by apply exec_op_owned].
Qed.

Lemma own_channel_ops_signals_fit os :
  Forall own_channel_op os →
  pending_signals_fit (exec_ops os newClientCodec).
Proof.
  intros Hos. apply own_channels_signals_fit.
  - apply exec_ops_wf, newClientCodec_wf.
  - apply channels_owned_own, exec_ops_owned;
      auto using newClientCodec_wf, newClientCodec_owned.
Qed.
End ChannelsOwned.

(* --------------------------------------------------------------------- *)
(** ** Client: [terminateCalls] *)

Section TerminateCalls.
Import Client.

Lemma set_Error_idemp e call : set_Error e (set_Error e call) = set_Error e call.
Proof. done. Qed.

Lemma Done_of_update e c s c' s0 :
  calls s0 = alter (set_Error e) c (calls s) → Done_of s0 c' = Done_of s c'.
Proof.
  intros Hc. unfold Done_of. rewrite Hc, list_lookup_alter.
  case_decide; [subst|done]. by destruct (calls s !! c').
Qed.

Lemma targets_ext s s0 l d :
  (∀ c, Done_of s0 c = Done_of s c) → targets s0 l d = targets s l d.
Proof.
  intros H. unfold targets. apply list_filter_iff. intros c. by rewrite H.
Qed.

Lemma terminate_loop_spec err (order : list (Z * nat)) : ∀ s,
  calls_valid s order.*2 → signals_fit s order.*2 →
  ∃ s',
    terminate_loop err order s = Returns tt s' ∧
    pending s' = pending s ∧ shutdown s' = shutdown s ∧
    closing s' = closing s ∧ cc_written s' = cc_written s ∧ seq s' = seq s ∧
    (∀ c, calls s' !! c =
          if decide (c ∈ order.*2)
          then set_Error (Some err) <$> calls s !! c
          else calls s !! c) ∧
    (∀ d, chans s' !! d = add_signals (targets s order.*2 d) <$> chans s !! d).
Proof.
  induction order as [|[k c] order IH]; intros s Hvalid Hfit.
  - exists s. simpl. repeat split; try done.
    intros d. unfold add_signals, targets. simpl.
    destruct (chans s !! d) as [[n b]|]; simpl; [|done].
    by rewrite app_nil_r.
  - rewrite fmap_cons in Hvalid, Hfit. rewrite fmap_cons.
    cbn [snd terminate_loop] in *.
    destruct (Hvalid c) as (call & ch & Hcall & Hch); [by left|].
    set (s1 := update_call (set_Error (Some err)) c s).
    assert (Hcall1 : calls s1 !! c = Some (set_Error (Some err) call)).
    { unfold s1. simpl. rewrite list_lookup_alter, decide_True by done.
      by rewrite Hcall. }
    assert (HD : ∀ c', Done_of s1 c' = Done_of s c')
      by (intros c'; by eapply Done_of_update).
    assert (Hc_d : Done_of s c = Some (Done call))
      by (unfold Done_of; by rewrite Hcall).
    assert (Hlt : (length (chan_buf ch) < chan_cap ch)%nat).
    { specialize (Hfit (Done call) ch Hch). unfold targets in Hfit.
      rewrite filter_cons, decide_True in Hfit by done. cbn [length] in Hfit. lia. }
    rewrite (done_proceeds c s1 (set_Error (Some err) call) ch Hcall1 Hch Hlt).
    simpl.
    set (s2 := set_chans _ s1).
    assert (HD2 : ∀ c', Done_of s2 c' = Done_of s c') by (intros c'; apply HD).
    destruct (IH s2) as (s' & Hloop & Hp & Hsh & Hcl & Hw & Hsq & Hcalls & Hchans).
    { intros c' Hc'. destruct (Hvalid c') as (call' & ch' & Hcall' & Hch');
        [by right|].
      assert (Hx : ∃ call2, calls s2 !! c' = Some call2 ∧ Done call2 = Done call').
      { simpl. rewrite list_lookup_alter. case_decide.
        - subst. rewrite Hcall'. by eexists.
        - by eexists. }
      destruct Hx as (call2 & Hcall2 & Hd2). rewrite <- Hd2 in Hch'.
      destruct (decide (Done call = Done call2)) as [He|Hne].
      - eexists _, _. split; [done|]. simpl. rewrite <- He.
        apply list_lookup_insert_eq. by eapply lookup_lt_Some.
      - eexists _, _. split; [done|]. simpl.
        by rewrite list_lookup_insert_ne. }
    { intros d ch2 Hch2. rewrite (targets_ext s s2) by done.
      simpl in Hch2. destruct (decide (Done call = d)) as [<-|Hne].
      - rewrite list_lookup_insert_eq in Hch2 by (by eapply lookup_lt_Some).
        injection Hch2 as <-. simpl.
        specialize (Hfit _ ch Hch). unfold targets in *.
        rewrite filter_cons, decide_True in Hfit by done.
        cbn [length] in Hfit. rewrite length_app. cbn [length]. lia.
      - rewrite list_lookup_insert_ne in Hch2 by done.
        specialize (Hfit _ ch2 Hch2). unfold targets in *.
        rewrite filter_cons, decide_False in Hfit by congruence. done. }
    exists s'. split; [done|].
    repeat split; try (rewrite ?Hp, ?Hsh, ?Hcl, ?Hw, ?Hsq; done).
    + intros x. rewrite Hcalls. simpl. rewrite list_lookup_alter.
      repeat case_decide; subst; try done;
        try (by destruct (calls s !! _));
        exfalso;
        match goal with
        | H : ¬ (_ ∈ _ :: _) |- _ => apply H; apply elem_of_cons; by eauto
        | H : _ ∈ _ :: _ |- _ => apply elem_of_cons in H as [?|?]; congruence
        end.
    + intros d. rewrite Hchans. rewrite (targets_ext s s2) by done. simpl.
      unfold targets. rewrite filter_cons.
      destruct (decide (Done call = d)) as [<-|Hne].
      * rewrite list_lookup_insert_eq by (by eapply lookup_lt_Some).
        rewrite decide_True by done. rewrite Hch. simpl.
        unfold add_signals. simpl. by rewrite <- app_assoc.
      * rewrite list_lookup_insert_ne by done.
        rewrite decide_False by congruence. done.
Qed.


End TerminateCalls.






(** What [terminateCalls] leaves in that case: the first call visited is
    signalled, the other is not. *)
Lemma terminateCalls_shared_channel_blocks :
  ∃ s',
    Client.terminateCalls (map_to_list (Client.pending two_pending_shared))
      (Client.ErrorString "EOF") two_pending_shared = Client.Blocks s' ∧
    (Client.signals s' 0 0 + Client.signals s' 0 1 = 1)%nat.
Proof. eexists. split; [vm_compute; reflexivity|]. vm_compute. reflexivity. Qed.

(* ===================================================================== *)
(** * Part III: the rest of the packages                                  *)
(* ===================================================================== *)

(** ** Strings: last index, slices, split and join *)

Section StringsLemmas.
Import Strings.

Lemma LastIndex_range s c : -1 ≤ LastIndex s c < Z.of_nat (String.length s).
Proof.
  induction s as [|a s IH]; cbn [LastIndex String.length]; [lia|].
  repeat case_decide; lia.
Qed.

Lemma LastIndex_neg_iff s c : LastIndex s c < 0 ↔ contains s c = false.
Proof.
  induction s as [|a s IH]; cbn [LastIndex contains]; [split; [done|lia]|].
  pose proof (LastIndex_range s c).
  rewrite orb_false_iff, bool_decide_eq_false.
  repeat case_decide; split.
  - lia.
  - intros [_ Hc]. apply IH in Hc. lia.
  - lia.
  - tauto.
  - intros _. split; [done|]. apply IH. lia.
  - lia.
Qed.

Lemma append_nil_l s : String.append EmptyString s = s.
Proof. reflexivity. Qed.

Lemma append_cons a s1 s2 :
  String.append (String a s1) s2 = String a (String.append s1 s2).
Proof. reflexivity. Qed.

Lemma append_assoc s1 s2 s3 :
  String.append (String.append s1 s2) s3 = String.append s1 (String.append s2 s3).
Proof.
  induction s1 as [|a s1 IH]; [done|]. by rewrite !append_cons, IH.
Qed.

Lemma LastIndex_app s1 s2 c :
  contains s2 c = false →
  LastIndex (String.append s1 (String c s2)) c = Z.of_nat (String.length s1).
Proof.
  intros Hc. induction s1 as [|a s1 IH].
  - rewrite append_nil_l. cbn [LastIndex String.length].
    apply LastIndex_neg_iff in Hc. rewrite decide_False by lia.
    by rewrite decide_True.
  - rewrite append_cons. cbn [LastIndex String.length].
    rewrite IH. rewrite decide_True by lia. lia.
Qed.

Lemma LastIndex_decompose s c :
  0 ≤ LastIndex s c →
  ∃ s1 s2, s = String.append s1 (String c s2) ∧ contains s2 c = false ∧
           LastIndex s c = Z.of_nat (String.length s1).
Proof.
  induction s as [|a s IH]; cbn [LastIndex]; [lia|].
  case_decide as Hi.
  - intros _. destruct (IH Hi) as (s1 & s2 & -> & Hc & Hl).
    exists (String a s1), s2. rewrite append_cons. cbn [String.length].
    split_and!; [done..|lia].
  - case_decide as Ha; [|lia]. intros _. subst a.
    exists EmptyString, s. split_and!; [done| |done].
    apply LastIndex_neg_iff. lia.
Qed.

Lemma length_append s1 s2 :
  String.length (String.append s1 s2) = (String.length s1 + String.length s2)%nat.
Proof.
  induction s1 as [|a s1 IH]; [done|].
  rewrite append_cons. cbn [String.length]. lia.
Qed.

Lemma substring_all s : substring 0 (String.length s) s = s.
Proof. induction s as [|a s IH]; cbn; [done|]. by rewrite IH. Qed.

Lemma substring_app_l s1 s2 :
  substring 0 (String.length s1) (String.append s1 s2) = s1.
Proof.
  induction s1 as [|a s1 IH].
  - rewrite append_nil_l. by destruct s2.
  - rewrite append_cons. cbn [String.length substring]. by rewrite IH.
Qed.

Lemma substring_app_r s1 s2 :
  substring (String.length s1) (String.length s2) (String.append s1 s2) = s2.
Proof.
  induction s1 as [|a s1 IH].
  - rewrite append_nil_l. apply substring_all.
  - rewrite append_cons. cbn [String.length substring]. done.
Qed.

Lemma slice_app_l s1 s2 :
  slice (String.append s1 s2) 0 (Z.of_nat (String.length s1)) = Some s1.
Proof.
  unfold slice. rewrite length_append, decide_True by lia.
  rewrite Z.sub_0_r, Nat2Z.id. change (Z.to_nat 0) with 0%nat.
  by rewrite substring_app_l.
Qed.

Lemma slice_app_r s1 c s2 :
  slice (String.append s1 (String c s2)) (Z.of_nat (String.length s1) + 1)
        (Z.of_nat (String.length (String.append s1 (String c s2)))) = Some s2.
Proof.
  unfold slice. rewrite length_append. cbn [String.length].
  rewrite decide_True by lia.
  replace (Z.to_nat (Z.of_nat (String.length s1) + 1))
    with (String.length (String.append s1 (String c EmptyString)))
    by (rewrite length_append; cbn [String.length]; lia).
  replace (Z.to_nat _) with (String.length s2) by lia.
  replace (String.append s1 (String c s2))
    with (String.append (String.append s1 (String c EmptyString)) s2)
    by (by rewrite append_assoc).
  by rewrite substring_app_r.
Qed.

End StringsLemmas.

(* --------------------------------------------------------------------- *)
(** ** The service map: Register and findService *)

Section ServiceMap.
Import Server Dispatch.

#[local] Abbreviation dotted sn mn := (String.append sn (String "." mn)).

Lemma findService_no_dot sm s :
  Strings.contains sm "." = false →
  findService sm s =
    Some {| svc := None; mtype := None;
            err := Some (String.append "rpc server: service/method 请求不符合格式 " sm) |}.
Proof.
  intros Hc. apply LastIndex_neg_iff in Hc.
  unfold findService. by rewrite decide_True.
Qed.

Lemma findService_dotted sn mn s :
  Strings.contains mn "." = false →
  findService (dotted sn mn) s =
    Some match s !! sn with
         | None =>
             {| svc := None; mtype := None;
                err := Some (String.append "rpc server: 找不到服务 " sn) |}
         | Some sv =>
             match methods sv !! mn with
             | None =>
                 {| svc := Some sv; mtype := None;
                    err := Some (String.append "rpc server: 找不到方法 " sn) |}
             | Some m => {| svc := Some sv; mtype := Some m; err := None |}
             end
         end.
Proof.
  intros Hc. unfold findService.
  rewrite (LastIndex_app sn mn "." Hc).
  rewrite decide_False by lia.
  rewrite slice_app_l, slice_app_r.
  destruct (s !! sn) as [sv|]; [|done]. by destruct (methods sv !! mn).
Qed.

Lemma dotted_or_not sm :
  Strings.contains sm "." = false ∨
  ∃ sn mn, sm = dotted sn mn ∧ Strings.contains mn "." = false.
Proof.
  destruct (decide (Strings.LastIndex sm "." < 0)) as [Hn|Hp].
  - left. by apply LastIndex_neg_iff.
  - right. destruct (LastIndex_decompose sm ".") as (s1 & s2 & -> & Hc & _); [lia|].
    by exists s1, s2.
Qed.

(** X1.  [findService] resolves a name exactly when the name is a
    registered service, a dot, and a method of that service's map that
    has no dot in it: the name is cut at its last dot, so the service part
    may itself have dots. *)
Theorem findService_resolves_iff (sm : string) (s : serviceMap)
    (sv : service) (m : methodType) :
  findService sm s = Some {| svc := Some sv; mtype := Some m; err := None |} ↔
  ∃ sn mn, sm = String.append sn (String "." mn) ∧
           Strings.contains mn "." = false ∧
           s !! sn = Some sv ∧ methods sv !! mn = Some m.
Proof.
  split.
  - intros Hf. destruct (dotted_or_not sm) as [Hc | (sn & mn & -> & Hc)].
    + rewrite findService_no_dot in Hf by done. discriminate.
    + rewrite findService_dotted in Hf by done.
      exists sn, mn. split; [done|]. split; [done|].
      destruct (s !! sn) as [sv'|]; [|discriminate].
      destruct (methods sv' !! mn) as [m'|] eqn:Hm; [|discriminate].
      injection Hf as -> ->. done.
  - intros (sn & mn & -> & Hc & Hs & Hm).
    by rewrite findService_dotted, Hs, Hm.
Qed.

(** X2.  [findService] never panics and reports an error exactly when
    it finds no method.  A name without a dot gets the format error with
    the whole name; an unknown service gets "找不到服务" with the service
    part; a known service without the method gets "找不到方法", again with
    the service part, not the method, and the service is still returned. *)
Theorem findService_errors (sm : string) (s : serviceMap) :
  ∃ f, findService sm s = Some f ∧
    (err f = None ↔ is_Some (mtype f)) ∧
    (is_Some (mtype f) → is_Some (svc f)) ∧
    (Strings.contains sm "." = false →
       f = {| svc := None; mtype := None;
              err := Some (String.append
                             "rpc server: service/method 请求不符合格式 " sm) |}) ∧
    (∀ sn mn, sm = String.append sn (String "." mn) →
       Strings.contains mn "." = false →
       (s !! sn = None →
          f = {| svc := None; mtype := None;
                 err := Some (String.append "rpc server: 找不到服务 " sn) |}) ∧
       (∀ sv, s !! sn = Some sv → methods sv !! mn = None →
          f = {| svc := Some sv; mtype := None;
                 err := Some (String.append "rpc server: 找不到方法 " sn) |})).
Proof.
  destruct (dotted_or_not sm) as [Hc | (sn & mn & -> & Hc)].
  - rewrite findService_no_dot by done. eexists. split; [done|]. simpl.
    split_and!.
    + split; [done|]. by intros [? ?].
    + by intros [? ?].
    + done.
    + intros sn mn -> Hc'. exfalso.
      pose proof (LastIndex_app sn mn "." Hc') as Hl.
      apply LastIndex_neg_iff in Hc. lia.
  - rewrite findService_dotted by done. eexists. split; [done|].
    split_and!.
    + destruct (s !! sn) as [sv|]; simpl; [|split; [done|by intros [? ?]]].
      destruct (methods sv !! mn); simpl; [by eauto|].
      split; [done|by intros [? ?]].
    + destruct (s !! sn) as [sv|]; simpl; [|by intros [? ?]].
      destruct (methods sv !! mn); simpl; eauto.
    + intros Hc'. exfalso.
      pose proof (LastIndex_app sn mn "." Hc) as Hl.
      apply LastIndex_neg_iff in Hc'. lia.
    + intros sn' mn' Heq Hc'.
      assert (sn' = sn ∧ mn' = mn) as [-> ->].
      { pose proof (LastIndex_app sn mn "." Hc) as Hl.
        pose proof (LastIndex_app sn' mn' "." Hc') as Hl'.
        rewrite Heq in Hl. rewrite Hl' in Hl.
        pose proof (slice_app_l sn (String "." mn)) as H1.
        pose proof (slice_app_l sn' (String "." mn')) as H2.
        pose proof (slice_app_r sn "." mn) as H3.
        pose proof (slice_app_r sn' "." mn') as H4.
        rewrite Heq in H1, H3. rewrite Hl in H2, H4.
        split; congruence. }
      split.
      * by intros ->.
      * intros sv -> ->. done.
Qed.

Lemma registerMethods_loop_lookup (l : list Method) acc key d :
  fold_left registerMethods_body l acc !! key = Some d →
  acc !! key = Some d ∨
  ∃ m, m ∈ l ∧ MethodName m = key ∧ retained m = true ∧ descriptor m = Some d.
Proof.
  revert acc. induction l as [|m l IH]; intros acc; simpl; [by left|].
  intros H. apply IH in H as [H | (m' & Hm' & Hk & Hr & Hd)].
  - rewrite registerMethods_body_retained in H.
    destruct (retained m) eqn:Hr; [|by left].
    destruct (descriptor m) as [d'|] eqn:Hd; [|by left].
    apply lookup_insert_Some in H as [[<- <-] | [_ H]]; [|by left].
    right. exists m. split; [by left|done].
  - right. exists m'. split; [by right|done].
Qed.

(** Every entry of the method map is the descriptor of a method of the
    receiver that passes the tests, stored under the method's name. *)
Lemma registerMethods_lookup (t : rcvr_type) (key : string) (d : methodType) :
  registerMethods t !! key = Some d →
  ∃ m, m ∈ method_set t ∧ MethodName m = key ∧ code_eligible m ∧
       descriptor m = Some d.
Proof.
  unfold registerMethods. intros H.
  apply registerMethods_loop_lookup in H as [H | (m & Hm & Hk & Hr & Hd)].
  - by rewrite lookup_empty in H.
  - apply list_elem_of_filter in Hm as [He Hm].
    exists m. split_and!; try done. by apply retained_code_eligible.
Qed.

Lemma descriptor_Some m d :
  descriptor m = Some d →
  method d = m ∧ numCalls d = 0 ∧
  In m !! 1%nat = Some (ArgType d) ∧ In m !! 2%nat = Some (ReplyType d).
Proof.
  unfold descriptor. destruct (In m !! 1%nat); [|done].
  destruct (In m !! 2%nat); [|done]. intros [= <-]. done.
Qed.

Lemma Register_step (t : rcvr_type) (v : value) (s : serviceMap) :
  IsExported (TypeName t) = true →
  ∃ e s', Register t v s = Returns (e, s') ∧
    (∀ n, s' !! n = match s !! n with
                    | Some sv => Some sv
                    | None => if decide (n = TypeName t)
                              then Some (service_of (t, v)) else None
                    end) ∧
    e = if decide (s !! TypeName t = None) then None
        else Some (String.append "rpc server: 服务已经被定义 " (TypeName t)).
Proof.
  intros He. unfold Register, newService. rewrite He. simpl.
  destruct (s !! TypeName t) as [old|] eqn:Hs.
  - eexists _, _. split; [done|]. split; [|done].
    intros n. destruct (s !! n) eqn:Hn; [done|].
    case_decide; [|done]. congruence.
  - eexists _, _. split; [done|]. split; [|done].
    intros n. destruct (decide (n = TypeName t)) as [->|Hne].
    + by rewrite lookup_insert_eq, Hs.
    + rewrite lookup_insert_ne by done. by destruct (s !! n).
Qed.

(** X3.  The first registration of a name wins.  When receivers whose
    type names are exported are registered one after the other, no call
    ends the process; the map at the end contains the map at the start, and
    under every other name it holds the service made of the first receiver
    of the list with that type name; the call for a receiver returns [nil]
    exactly when its type name was not in the map at the start and is the
    type name of no earlier receiver, and the error that names the type
    otherwise.  A receiver whose type name is not exported ends the
    process. *)
Theorem Register_first_wins (rs : list (rcvr_type * value)) (s : serviceMap) :
  (Forall (λ r, IsExported (TypeName r.1) = true) rs →
   ∃ es s', Register_all rs s = Returns (es, s') ∧
     s ⊆ s' ∧
     (∀ n, s' !! n = match s !! n with
                     | Some sv => Some sv
                     | None => service_of <$> head (filter (λ r, TypeName r.1 = n) rs)
                     end) ∧
     length es = length rs ∧
     (∀ i r, rs !! i = Some r →
        es !! i = Some (if decide (s !! TypeName r.1 = None ∧
                                   Forall (λ r', TypeName r'.1 ≠ TypeName r.1)
                                          (take i rs))
                        then None
                        else Some (String.append "rpc server: 服务已经被定义 "
                                                 (TypeName r.1))))) ∧
  (∀ r rest, rs = r :: rest → IsExported (TypeName r.1) = false →
     Register_all rs s = Exits 1).
Proof.
  split.
  - revert s. induction rs as [|[t v] rs IH]; intros s Hall.
    { exists [], s. split; [done|]. split; [done|]. split.
      - intros n. by destruct (s !! n).
      - split; [done|]. intros i r Hi. by rewrite lookup_nil in Hi. }
    apply Forall_cons in Hall as [He Hall]. simpl in He.
    destruct (Register_step t v s He) as (e & s1 & HR & Hs1 & Herr).
    destruct (IH s1 Hall) as (es & s' & HRA & Hsub & Hs' & Hlen & Hes).
    cbn [Register_all fst snd]. rewrite HR. cbn [fst snd]. rewrite HRA.
    cbn [fst snd]. eexists _, _. split; [done|]. split_and!.
    + apply map_subseteq_spec. intros n sv Hn.
      rewrite Hs', Hs1, Hn. done.
    + intros n. rewrite Hs', Hs1.
      destruct (s !! n) as [sv|]; [done|].
      rewrite filter_cons. cbn [fst].
      destruct (decide (TypeName t = n)) as [<-|Hne].
      * by rewrite decide_True.
      * by rewrite decide_False by done.
    + cbn [length]. by rewrite Hlen.
    + intros [|i] r Hi.
      * injection Hi as <-. change ((e :: es) !! 0%nat) with (Some e).
        cbn [fst take]. rewrite Herr.
        apply f_equal, decide_ext. split; [|tauto]. intros H. split; [done|constructor].
      * change (rs !! i = Some r) in Hi. change ((e :: es) !! S i) with (es !! i).
        rewrite (Hes i r Hi).
        apply f_equal, decide_ext. cbn [take]. rewrite Forall_cons. cbn [fst].
        rewrite Hs1. destruct (s !! TypeName r.1) as [sv|].
        -- split; intros [H ?]; inversion H.
        -- destruct (decide (TypeName r.1 = TypeName t)) as [Hd|Hd].
           ++ split; [intros [H ?]; inversion H|].
              intros (_ & Hne & _). congruence.
           ++ split; [|tauto]. intros [_ H]. split; [done|]. split; [|done].
              congruence.
  - intros [t v] rest -> He. cbn [Register_all fst snd].
    unfold Register, newService. simpl in He. by rewrite He.
Qed.

Lemma Register_first_wins_witness :
  ∃ s', Register_all [(Foo, VInt 0); (Foo_with_Bad, VInt 1); (Emile, VInt 2)]
          NewServer
          = Returns ([None; Some "rpc server: 服务已经被定义 Foo"; None], s') ∧
        s' !! "Foo" = Some Foo_service ∧
        name <$> s' !! "Émile" = Some "Émile".
Proof.
  destruct (Register_first_wins
              [(Foo, VInt 0); (Foo_with_Bad, VInt 1); (Emile, VInt 2)] NewServer)
    as [H _].
  destruct H as (es & s' & HR & _ & Hs' & _).
  - repeat constructor.
  - exists s'. split; [|split].
    + rewrite HR. vm_compute in HR. injection HR as <- _. reflexivity.
    + rewrite Hs'. reflexivity.
    + rewrite Hs'. reflexivity.
Defined.

(** X4.  After a successful [Register], [findService] resolves
    "Type.Method" for every method of the receiver that passes the tests
    of [registerMethods], to the stored service and to a descriptor whose
    call counter is 0; and it resolves no other method of that type. *)
Theorem Register_then_findService (t : rcvr_type) (v : value)
    (s s' : serviceMap) (mn : string) :
  Register t v s = Returns (None, s') →
  Strings.contains mn "." = false →
  let sv := {| name := TypeName t; typ := t; rcvr := v;
               methods := registerMethods t |} in
  ((∃ m, m ∈ method_set t ∧ MethodName m = mn ∧ code_eligible m) →
   ∃ d, findService (String.append (TypeName t) (String "." mn)) s'
          = Some {| svc := Some sv; mtype := Some d; err := None |} ∧
        MethodName (method d) = mn ∧ method d ∈ method_set t ∧
        code_eligible (method d) ∧ NumCalls d = 0 ∧
        In (method d) !! 1%nat = Some (ArgType d) ∧
        In (method d) !! 2%nat = Some (ReplyType d)) ∧
  (¬ (∃ m, m ∈ method_set t ∧ MethodName m = mn ∧ code_eligible m) →
   findService (String.append (TypeName t) (String "." mn)) s'
     = Some {| svc := Some sv; mtype := None;
               err := Some (String.append "rpc server: 找不到方法 " (TypeName t)) |}).
Proof.
  intros HR Hc sv.
  assert (s' !! TypeName t = Some sv) as Hsv.
  { unfold Register, newService in HR.
    destruct (IsExported (TypeName t)); [|done]. simpl in HR.
    destruct (s !! TypeName t); [done|]. injection HR as <-.
    by rewrite lookup_insert_eq. }
  rewrite findService_dotted, Hsv by done. cbn [methods sv].
  split.
  - intros Hm. apply registerMethods_retains_iff in Hm as [d Hd].
    rewrite Hd. exists d. split; [done|].
    apply registerMethods_lookup in Hd as (m & Hm & Hk & He & Hdesc).
    apply descriptor_Some in Hdesc as (<- & Hn & Ha & Hr). done.
  - intros Hm. destruct (registerMethods t !! mn) as [d|] eqn:Hd; [|done].
    exfalso. apply Hm. apply registerMethods_retains_iff. eauto.
Qed.

Lemma Register_then_findService_witness :
  ∃ d, findService "Foo.Sum" {[ "Foo" := Foo_service ]}
         = Some {| svc := Some Foo_service; mtype := Some d; err := None |} ∧
       MethodName (method d) = "Sum" ∧ NumCalls d = 0.
Proof.
  destruct (Register_then_findService Foo (VInt 0) NewServer
              {[ "Foo" := Foo_service ]} "Sum" eq_refl eq_refl) as [H _].
  destruct H as (d & Hf & Hn & _ & _ & Hc & _).
  - exists Sum. split; [by left|]. split; [done|].
    apply retained_code_eligible. done.
  - exists d. done.
Defined.

End ServiceMap.

(* --------------------------------------------------------------------- *)
(** ** Registry: heartbeats, queries and the HTTP handler *)

Section RegistryTable.
Import Registry.

#[local] Instance string_le_antisym : AntiSymm (=) string_le.
Proof. intros s1 s2 H1 H2. by apply String.leb_antisym. Qed.

Lemma aliveServers_fst now order r :
  (aliveServers now order r).1
  = sort_Strings (filter (kept (timeout r) now) order).*1.
Proof. unfold aliveServers. simpl. by rewrite aliveServers_loop_fst. Qed.

Lemma aliveServers_elem now order r a :
  order ≡ₚ map_to_list (servers r) →
  a ∈ (aliveServers now order r).1 ↔
  ∃ s, servers r !! a = Some s ∧ unexpired (timeout r) now s = true.
Proof.
  intros Hperm. rewrite aliveServers_fst, sort_Strings_perm, list_elem_of_fmap.
  split.
  - intros [[a' s] [-> [Hk Ho]%list_elem_of_filter]]. simpl.
    exists s. split; [|done]. apply elem_of_map_to_list. by rewrite <- Hperm.
  - intros (s & Hs & Hk). exists (a, s). split; [done|].
    apply list_elem_of_filter. split; [done|].
    rewrite Hperm. by apply elem_of_map_to_list.
Qed.





Lemma putServer_timeout now addr r : timeout (putServer now addr r) = timeout r.
Proof. unfold putServer. by destruct (servers r !! addr). Qed.





End RegistryTable.

Section RegistryHandler.
Import Registry RegistryHTTP RegistryDiscovery.

Lemma aliveServers_loop_subseteq ttl now order acc :
  (fold_left (aliveServers_body ttl now) order acc).2 ⊆ acc.2.
Proof.
  revert acc. induction order as [|e order IH]; intros acc; simpl; [done|].
  etrans; [apply IH|]. unfold aliveServers_body.
  destruct (unexpired ttl now e.2); simpl; [done|]. apply delete_subseteq.
Qed.

Lemma aliveServers_subseteq now order r :
  servers (aliveServers now order r).2 ⊆ servers r.
Proof. unfold aliveServers. simpl. apply aliveServers_loop_subseteq. Qed.

Lemma ServeHTTP_table_ok now order req r :
  table_ok r → table_ok (ServeHTTP now order req r).2.
Proof.
  intros Hok. unfold ServeHTTP.
  destruct (decide (Method req = "GET")); simpl.
  - intros a s Hs. apply Hok.
    eapply lookup_weaken; [exact Hs | apply aliveServers_subseteq].
  - destruct (decide (Method req = "POST")); [|done].
    destruct (decide (X_Gorpc_Servers req = "")) as [|Hne]; [done|]. simpl.
    intros a s. unfold putServer.
    destruct (servers r !! X_Gorpc_Servers req) as [s0|] eqn:E; simpl;
      intros [[<- <-] | [_ Hs]]%lookup_insert_Some; simpl; eauto.
Qed.

Lemma ServeHTTP_timeout now order req r :
  Registry.timeout (ServeHTTP now order req r).2 = Registry.timeout r.
Proof.
  unfold ServeHTTP. repeat case_decide; simpl; try done.
  apply putServer_timeout.
Qed.

(** X7.  Whatever requests the registry has served since it was made,
    in whatever order its table was visited, every entry of the table is
    stored under its own address, no entry has the empty address, and the
    time to live is the one the registry was made with.  A request that is
    not answered with status 200 leaves the registry as it was. *)
Theorem serve_table_ok (ttl : Z)
    (reqs : list (Z * list (string * ServerItem) * Request)) :
  table_ok (serve reqs (NewRegistry ttl)).2 ∧
  Registry.timeout (serve reqs (NewRegistry ttl)).2 = ttl ∧
  length (serve reqs (NewRegistry ttl)).1 = length reqs ∧
  (∀ now order req r,
     StatusCode (ServeHTTP now order req r).1 ≠ StatusOK →
     (ServeHTTP now order req r).2 = r ∧
     Servers (ServeHTTP now order req r).1 = None).
Proof.
  assert (∀ r, table_ok r →
            table_ok (serve reqs r).2 ∧
            Registry.timeout (serve reqs r).2 = Registry.timeout r ∧
            length (serve reqs r).1 = length reqs) as H.
  { induction reqs as [|[[now order] req] reqs IH]; intros r Hok; [done|].
    cbn [serve fst snd length].
    destruct (IH (ServeHTTP now order req r).2) as (H1 & H2 & H3).
    { by apply ServeHTTP_table_ok. }
    split; [done|]. rewrite H2, ServeHTTP_timeout, H3. done. }
  destruct (H (NewRegistry ttl)) as (H1 & H2 & H3).
  { intros a s Hs. cbn in Hs. by rewrite lookup_empty in Hs. }
  split_and!; [done..|].
  intros now order req r. unfold ServeHTTP.
  repeat case_decide; simpl; done.
Qed.

Lemma Split_no_sep x sep :
  Strings.contains x sep = false → Strings.Split x sep = [x].
Proof.
  induction x as [|a x IH]; [done|]. cbn [Strings.contains Strings.Split].
  intros [Ha Hx]%orb_false_iff. apply bool_decide_eq_false in Ha.
  rewrite decide_False by done. by rewrite IH.
Qed.

Lemma Split_app_sep x t sep :
  Strings.contains x sep = false →
  Strings.Split (String.append x (String sep t)) sep = x :: Strings.Split t sep.
Proof.
  induction x as [|a x IH].
  - intros _. rewrite append_nil_l. cbn [Strings.Split]. by rewrite decide_True.
  - cbn [Strings.contains]. intros [Ha Hx]%orb_false_iff.
    apply bool_decide_eq_false in Ha.
    rewrite append_cons. cbn [Strings.Split].
    rewrite decide_False by done. by rewrite IH.
Qed.

Lemma Split_Join l sep :
  l ≠ [] → Forall (λ x, Strings.contains x sep = false) l →
  Strings.Split (Strings.Join l (String sep EmptyString)) sep = l.
Proof.
  induction l as [|x l IH]; [done|]. intros _ Hall.
  apply Forall_cons in Hall as [Hx Hall].
  destruct l as [|y l].
  - cbn [Strings.Join]. by apply Split_no_sep.
  - change (Strings.Join (x :: y :: l) (String sep EmptyString))
      with (String.append x (String.append (String sep EmptyString)
              (Strings.Join (y :: l) (String sep EmptyString)))).
    rewrite append_cons, append_nil_l.
    rewrite Split_app_sep by done. by rewrite IH.
Qed.

Lemma parse_servers_Join (l : list string) :
  Forall clean l → parse_servers (Strings.Join l ",") = l.
Proof.
  intros Hall. unfold parse_servers.
  destruct (decide (l = [])) as [->|Hne]; [done|].
  rewrite Split_Join; [|done|].
  - clear Hne. induction Hall as [|x l (Hx & _ & Ht) _ IH]; [done|].
    rewrite fmap_cons, Ht, filter_cons, decide_True by done. by rewrite IH.
  - eapply Forall_impl; [exact Hall|]. by intros x (_ & Hc & _).
Qed.

Section WithDiscovery.
Context {Rand : Type}.

Lemma Refresh_registry_answer (now : Z) (order : list (string * ServerItem))
    (r : GoRegistry) (t t' : Z) (d : GoRegistryDiscovery Rand) :
  order ≡ₚ map_to_list (servers r) →
  (∀ a s, servers r !! a = Some s → unexpired (Registry.timeout r) now s = true →
          clean a) →
  lastUpdate d + RegistryDiscovery.timeout d ≤ t →
  Refresh t t' (Got (Header_Get (ServeHTTP now order get_request r).1)) d
  = (None,
     {| base := set_servers (aliveServers now order r).1 (base d);
        registry := registry d;
        RegistryDiscovery.timeout := RegistryDiscovery.timeout d;
        lastUpdate := t' |}).
Proof.
  intros Hp Hclean Hstale. unfold Refresh.
  rewrite decide_False by lia.
  unfold ServeHTTP, get_request, Header_Get. simpl.
  rewrite parse_servers_Join; [done|].
  apply Forall_forall. intros a Ha.
  apply (aliveServers_elem now order r a Hp) in Ha as (s & Hs & Hu). eauto.
Qed.

(** X8.  What the registry answers to a GET is read back by [Refresh]
    as the list of [aliveServers], entry for entry and in the same
    ascending order, when the discovery's list is stale and the live
    addresses are clean: not empty, free of commas and of white space at
    their ends.  The header is taken to arrive as the handler set it. *)
Theorem registry_list_round_trip (now : Z) (order : list (string * ServerItem))
    (r : GoRegistry) (t t' : Z) (d : GoRegistryDiscovery Rand) :
  order ≡ₚ map_to_list (servers r) →
  (∀ a s, servers r !! a = Some s → unexpired (Registry.timeout r) now s = true →
          clean a) →
  lastUpdate d + RegistryDiscovery.timeout d ≤ t →
  Refresh t t' (Got (Header_Get (ServeHTTP now order get_request r).1)) d
  = (None,
     {| base := set_servers (aliveServers now order r).1 (base d);
        registry := registry d;
        RegistryDiscovery.timeout := RegistryDiscovery.timeout d;
        lastUpdate := t' |}).
Proof. apply Refresh_registry_answer. Qed.

(** X9.  After [Update] at time [t0], every call of [Refresh], [Get] or
    [GetAll] whose clock reads less than [t0] plus the timeout leaves the
    list as [Update] set it, whatever the registry would answer: the
    registry is not asked. *)
Theorem Update_fresh_window (Intn : Rand → Z → Z * Rand) (t0 : Z) (l : list string)
    (d : GoRegistryDiscovery Rand) (cs : list (call)) :
  Forall (λ c, call_time c < t0 + RegistryDiscovery.timeout d) cs →
  XClient.servers (base (do_calls Rand Intn cs (Update t0 l d))) = l ∧
  lastUpdate (do_calls Rand Intn cs (Update t0 l d)) = t0 ∧
  RegistryDiscovery.timeout (do_calls Rand Intn cs (Update t0 l d))
    = RegistryDiscovery.timeout d.
Proof.
  intros Hall.
  assert (∀ d0, XClient.servers (base d0) = l → lastUpdate d0 = t0 →
                RegistryDiscovery.timeout d0 = RegistryDiscovery.timeout d →
                XClient.servers (base (do_calls Rand Intn cs d0)) = l ∧
                lastUpdate (do_calls Rand Intn cs d0) = t0 ∧
                RegistryDiscovery.timeout (do_calls Rand Intn cs d0)
                  = RegistryDiscovery.timeout d) as H.
  { induction Hall as [|c cs Hc _ IH]; intros d0 Hl Ht Hto; [done|].
    unfold do_calls. cbn [fold_left]. apply IH.
    - destruct c as [n n' resp | n n' resp mode | n n' resp]; simpl in *;
        unfold Get, GetAll, Refresh;
        rewrite decide_True by lia; simpl; try done.
      unfold XClient.Get. repeat case_decide; simpl; try done.
      + destruct (Intn _ _) as [k r']. by destruct (XClient.at_index _ k).
      + by destruct (XClient.at_index _ _).
    - destruct c as [n n' resp | n n' resp mode | n n' resp]; simpl in *;
        unfold Get, GetAll, Refresh;
        rewrite decide_True by lia; simpl; done.
    - destruct c as [n n' resp | n n' resp mode | n n' resp]; simpl in *;
        unfold Get, GetAll, Refresh;
        rewrite decide_True by lia; simpl; done. }
  by apply H.
Qed.

End WithDiscovery.

Lemma registry_list_round_trip_witness :
  Refresh Second (2 * Second)
    (Got (Header_Get (ServeHTTP (5 * Minute) four_servers_order
                        get_request four_servers_registry).1))
    (NewGoRegistryDiscovery unit (λ g _, (0, g)) tt "http://registry" 0)
  = (None,
     {| base := XClient.Build_MultiServersDiscovery tt ["tcp@a:1"; "tcp@b:2"] 0;
        registry := "http://registry";
        RegistryDiscovery.timeout := Second;
        lastUpdate := 2 * Second |}).
Proof.
  etransitivity.
  - apply (registry_list_round_trip (5 * Minute) four_servers_order
             four_servers_registry Second (2 * Second)
             (NewGoRegistryDiscovery unit (λ g _, (0, g)) tt "http://registry" 0)).
    + exact four_servers_order_perm.
    + intros a s Hs _. unfold four_servers_registry in Hs. cbn [servers] in Hs.
      rewrite !lookup_insert_Some, lookup_singleton_Some in Hs.
      destruct Hs as [[<- _]|[_ [[<- _]|[_ [[<- _]|[_ [<- _]]]]]]];
        vm_compute; done.
    + vm_compute. discriminate.
  - vm_compute. reflexivity.
Defined.

Lemma Update_fresh_window_witness :
  XClient.servers
    (base (do_calls unit (λ g _, (0, g))
             [CallGetAll 5 6 (Got "tcp@b:2"); CallGet 7 8 (GetFailed "down") 1]
             (Update 0 ["tcp@a:1"]
                (NewGoRegistryDiscovery unit (λ g _, (0, g)) tt "http://registry" 10))))
  = ["tcp@a:1"].
Proof.
  apply (Update_fresh_window (λ g _, (0, g)) 0 ["tcp@a:1"]
           (NewGoRegistryDiscovery unit (λ g _, (0, g)) tt "http://registry" 10)).
  repeat constructor.
Defined.

End RegistryHandler.

(* --------------------------------------------------------------------- *)
(** ** Discovery: what Get can answer *)

Section GetOutcomes.
Import XClient.
Context {Rand : Type} (Intn : Rand → Z → Z * Rand).

Lemma Get_outcome (mode : SelectMode) (m : MultiServersDiscovery Rand) :
  (∀ g n, 0 < n → 0 ≤ (Intn g n).1 < n) →
  cursor_ok m →
  Z.of_nat (length (servers m)) ≤ int_max →
  match (Get Rand Intn mode m).1 with
  | Ok s => s ∈ servers m ∧ (mode = RandomSelect ∨ mode = RoundRobinSelect)
  | Err ErrNoServers => servers m = []
  | Err ErrUnsupportedMode =>
      servers m ≠ [] ∧ mode ≠ RandomSelect ∧ mode ≠ RoundRobinSelect
  | IndexPanic => False
  end ∧
  servers (Get Rand Intn mode m).2 = servers m ∧
  cursor_ok (Get Rand Intn mode m).2 ∧
  (mode = RandomSelect → index (Get Rand Intn mode m).2 = index m).
Proof.
  intros HI Hc Hlen. split; [|split; [|split]].
  - unfold Get. case_decide as Hn.
    { simpl. destruct (servers m); [done|]. simpl in Hn. lia. }
    assert (servers m ≠ []) as Hne by (intros E; rewrite E in Hn; done).
    case_decide as Hr.
    + pose proof (HI (r m) (Z.of_nat (length (servers m)))) as Hk.
      destruct (Intn (r m) _) as [k g]. simpl in Hk.
      unfold at_index. rewrite decide_True by lia.
      destruct (lookup_lt_is_Some_2 (servers m) (Z.to_nat k)) as [s Hs]; [lia|].
      rewrite Hs. simpl. split; [|by left].
      by eapply list_elem_of_lookup_2.
    + case_decide as Hrr; [|done].
      destruct (at_index_mod (servers m) (index m)) as (s & Hs & Hs');
        [unfold cursor_ok in Hc; lia | done |].
      rewrite Z.rem_mod_nonneg by (unfold cursor_ok in Hc; lia).
      rewrite Hs. simpl. split; [|by right].
      by eapply list_elem_of_lookup_2.
  - unfold Get. repeat case_decide; simpl; try done.
    + destruct (Intn (r m) _) as [k g]. by destruct (at_index (servers m) k).
    + by destruct (at_index (servers m) _).
  - by apply Get_cursor_ok.
  - intros ->. unfold Get. case_decide; [done|].
    rewrite decide_True by done.
    destruct (Intn (r m) _) as [k g]. by destruct (at_index (servers m) k).
Qed.

(** X10.  With a generator that keeps the contract of [Intn] and a
    cursor in the range the constructor and [Get] keep it in, [Get] never
    indexes out of range: it answers an address of the list in the two
    modes it knows, the no-servers error exactly for an empty list, and
    the unsupported-mode error for any other mode on a non-empty list.  The
    list is left as it was and the cursor stays in range; random selection
    does not move the cursor. *)
Theorem Get_selects_member (mode : SelectMode) (m : MultiServersDiscovery Rand) :
  (∀ g n, 0 < n → 0 ≤ (Intn g n).1 < n) →
  cursor_ok m →
  Z.of_nat (length (servers m)) ≤ int_max →
  match (Get Rand Intn mode m).1 with
  | Ok s => s ∈ servers m ∧ (mode = RandomSelect ∨ mode = RoundRobinSelect)
  | Err ErrNoServers => servers m = []
  | Err ErrUnsupportedMode =>
      servers m ≠ [] ∧ mode ≠ RandomSelect ∧ mode ≠ RoundRobinSelect
  | IndexPanic => False
  end ∧
  servers (Get Rand Intn mode m).2 = servers m ∧
  cursor_ok (Get Rand Intn mode m).2 ∧
  (mode = RandomSelect → index (Get Rand Intn mode m).2 = index m).
Proof. apply Get_outcome. Qed.

End GetOutcomes.

Lemma Get_selects_member_witness :
  (XClient.Get unit (λ g _, (0, g)) XClient.RandomSelect three_servers).1
    = XClient.Ok "x" ∧
  "x" ∈ XClient.servers three_servers.
Proof.
  pose proof (Get_selects_member (λ (g : unit) (_ : Z), (0, g))
                XClient.RandomSelect three_servers) as H.
  destruct H as (H & _).
  - intros g n Hn. simpl. lia.
  - unfold XClient.cursor_ok, int_max. simpl. lia.
  - unfold int_max. simpl. lia.
  - split; [reflexivity|]. exact (proj1 H).
Defined.

(* --------------------------------------------------------------------- *)
(** ** Client: requests on the wire and their responses *)

Section ClientWireLemmas.
Import Client ClientWire.

Lemma IsAvailable_flags s :
  IsAvailable s = true ↔ closing s || shutdown s = false.
Proof. unfold IsAvailable. destruct (closing s), (shutdown s); naive_solver. Qed.

Lemma done_core c s :
  seq (final_state (done c s)) = seq s ∧
  cc_written (final_state (done c s)) = cc_written s ∧
  pending (final_state (done c s)) = pending s.
Proof.
  unfold done. destruct (calls s !! c) as [call|]; [|done].
  destruct (chans s !! Done call) as [ch|]; [|done]. by case_decide.
Qed.

Lemma terminate_loop_core err order : ∀ s,
  seq (final_state (terminate_loop err order s)) = seq s ∧
  cc_written (final_state (terminate_loop err order s)) = cc_written s ∧
  pending (final_state (terminate_loop err order s)) = pending s.
Proof.
  induction order as [|[k c] order IH]; intros s; [done|]. simpl.
  pose proof (done_core c (update_call (set_Error (Some err)) c s)) as Hd.
  destruct (done c (update_call (set_Error (Some err)) c s)) as [[] s'|s'|s'];
    simpl in *; [|done..].
  destruct (IH s') as (H1 & H2 & H3). destruct Hd as (H4 & H5 & H6).
  rewrite H1, H2, H3. done.
Qed.

Lemma quiet_refl s : quiet s s.
Proof. done. Qed.

(** Moving the start of a step to a state with the same counter,
    frames, table and flags, and its end to a state with the same counter
    and frames and a smaller table. *)
Lemma wire_step_ext s0 s s1 s' :
  seq s0 = seq s → cc_written s0 = cc_written s → pending s0 = pending s →
  closing s0 = closing s → shutdown s0 = shutdown s →
  seq s' = seq s1 → cc_written s' = cc_written s1 → pending s' ⊆ pending s1 →
  quiet s0 s1 ∨ registers s0 s1 → quiet s s' ∨ registers s s'.
Proof.
  intros E1 E2 E3 E4 E5 F1 F2 F3 [(H1 & H2 & H3) | (H0 & H1 & H2 & c & H3)].
  - left. unfold quiet. rewrite F1, F2, H1, H2, E1, E2, <- E3.
    split; [done|]. split; [done|]. by etrans.
  - right. unfold registers, IsAvailable in *.
    rewrite F1, F2, H1, <- E1, <- E2, <- E3, <- E4, <- E5.
    split; [done|]. split; [done|]. split.
    + destruct H2 as [-> | (sm & args & ->)]; eauto.
    + exists c. by etrans.
Qed.

Lemma done_quiet c s0 s :
  seq s0 = seq s → cc_written s0 = cc_written s → pending s0 ⊆ pending s →
  quiet s (final_state (done c s0)).
Proof.
  intros E1 E2 E3. destruct (done_core c s0) as (H1 & H2 & H3).
  unfold quiet. by rewrite H1, H2, H3.
Qed.

Lemma send_wire c wr s :
  quiet s (final_state (send c wr s)) ∨ registers s (final_state (send c wr s)).
Proof.
  unfold send, registerCall.
  destruct (closing s || shutdown s) eqn:Hflag.
  - left. by apply done_quiet.
  - right. apply IsAvailable_flags in Hflag. simpl.
    destruct (alter (set_Seq (seq s)) c (calls s) !! c) as [call|] eqn:Hc; simpl.
    + destruct wr as [e|].
      * unfold removeCall. simpl. rewrite lookup_insert_eq.
        match goal with |- registers _ (final_state (done ?c ?s0)) =>
          destruct (done_core c s0) as (H1 & H2 & H3) end.
        unfold registers. rewrite H1, H2, H3. simpl.
        split; [done|]. split; [done|]. split; [by left|].
        exists c. apply delete_subseteq.
      * unfold registers. simpl. split; [done|]. split; [done|].
        split; [right; by eexists _, _|]. by exists c.
    + unfold registers. simpl. split; [done|]. split; [done|].
      split; [by left|]. by exists c.
Qed.

Lemma Go_wire sm args reply dn wr s :
  quiet s (final_state (Go sm args reply dn wr s)) ∨
  registers s (final_state (Go sm args reply dn wr s)).
Proof.
  unfold Go, make_chan. destruct dn as [d|]; cbv beta iota zeta.
  - case_decide; [by left|].
    match goal with |- context [send ?c wr ?s0] =>
      pose proof (send_wire c wr s0) as Hw;
      destruct (send c wr s0) as [[] s'|s'|s'] end; simpl in *;
      (eapply wire_step_ext; [..|exact Hw]; done).
  - match goal with |- context [send ?c wr ?s0] =>
      pose proof (send_wire c wr s0) as Hw;
      destruct (send c wr s0) as [[] s'|s'|s'] end; simpl in *;
      (eapply wire_step_ext; [..|exact Hw]; done).
Qed.

Lemma recv_core d s c s' :
  recv d s = Some (c, s') →
  seq s' = seq s ∧ cc_written s' = cc_written s ∧ pending s' = pending s.
Proof.
  unfold recv. destruct (chans s !! d) as [[n [|c0 rest]]|]; [done| |done].
  by intros [= <- <-].
Qed.

Lemma Client_Call_wire ctx_done pick_ctx ctx_err sm args reply wr s :
  quiet s (final_state (Client_Call ctx_done pick_ctx ctx_err sm args reply wr s)) ∨
  registers s (final_state (Client_Call ctx_done pick_ctx ctx_err sm args reply wr s)).
Proof.
  unfold Client_Call. simpl.
  match goal with |- context [Go sm args reply ?dn wr ?s0] =>
    pose proof (Go_wire sm args reply dn wr s0) as Hw;
    destruct (Go sm args reply dn wr s0) as [c s1|s1|s1] end; simpl in *;
    [|eapply wire_step_ext; [..|exact Hw]; done..].
  destruct (calls s1 !! c) as [call|]; simpl;
    [|eapply wire_step_ext; [..|exact Hw]; done].
  destruct (recv (Done call) s1) as [[c' s2]|] eqn:Hr.
  - apply recv_core in Hr as (R1 & R2 & R3).
    destruct (ctx_done && pick_ctx); simpl.
    + eapply wire_step_ext; [..|exact Hw]; try done. apply delete_subseteq.
    + eapply wire_step_ext; [..|exact Hw]; try done. by rewrite R3.
  - destruct ctx_done; simpl.
    + eapply wire_step_ext; [..|exact Hw]; try done. apply delete_subseteq.
    + eapply wire_step_ext; [..|exact Hw]; done.
Qed.

Lemma receive_turn_wire h body_err v s :
  quiet s (final_state (receive_turn h body_err v s)).
Proof.
  unfold receive_turn, removeCall.
  destruct (pending s !! Codec.Seq h) as [c|]; simpl.
  - case_decide.
    + match goal with |- context [done ?c ?s0] =>
        pose proof (done_quiet c s0 s eq_refl eq_refl (delete_subseteq _ _)) as Hq;
        destruct (done c s0) as [[] s'|s'|s'] end; exact Hq.
    + destruct body_err as [e|];
        match goal with |- context [done ?c ?s0] =>
          pose proof (done_quiet c s0 s eq_refl eq_refl (delete_subseteq _ _)) as Hq;
          destruct (done c s0) as [[] s'|s'|s'] end; exact Hq.
  - unfold quiet. simpl. split; [done|]. split; [done|]. apply delete_subseteq.
Qed.

Lemma exec_op_wire o s :
  quiet s (exec_op o s) ∨ registers s (exec_op o s).
Proof.
  destruct o as [ce | sm args reply dn wr | cd pc cerr sm args reply wr
                 | n | k | h be v | order err | d]; simpl.
  - left. unfold Close. by destruct (closing s).
  - apply Go_wire.
  - apply Client_Call_wire.
  - by left.
  - left. unfold quiet. simpl. split; [done|]. split; [done|]. apply delete_subseteq.
  - left. apply receive_turn_wire.
  - left. unfold terminateCalls.
    destruct (terminate_loop_core err order (set_shutdown true s)) as (H1 & H2 & H3).
    unfold quiet. by rewrite H1, H2, H3.
  - left. destruct (recv d s) as [[c s']|] eqn:Hr; [|done].
    apply recv_core in Hr as (H1 & H2 & H3). unfold quiet. by rewrite H1, H2, H3.
Qed.

Lemma StronglySorted_snoc {A} (R : A → A → Prop) (l : list A) (x : A) :
  StronglySorted R l → Forall (λ y, R y x) l → StronglySorted R (l ++ [x]).
Proof.
  induction 1 as [|y l Hs IH Hy]; intros Hall; simpl.
  - repeat constructor.
  - apply Forall_cons in Hall as [Hyx Hall]. constructor; [by apply IH|].
    apply Forall_app. split; [done|]. by constructor.
Qed.

Lemma wire_ok_step o s :
  wire_ok s → seq s + 1 < uint64_mod →
  wire_ok (exec_op o s) ∧ seq s ≤ seq (exec_op o s) ≤ seq s + 1.
Proof.
  intros (Hseq & Hsort & Hall & Hpend) Hbound.
  destruct (exec_op_wire o s) as [(H1 & H2 & H3) | (_ & H1 & H2 & c & H3)].
  - split; [|lia]. unfold wire_ok. rewrite H1, H2. split_and!; try done.
    intros k c Hk. eapply Hpend. eapply lookup_weaken; done.
  - rewrite wrap_uint64_small in H1 by (unfold uint64_mod in *; lia).
    split; [|lia]. unfold wire_ok. rewrite H1. split_and!.
    + lia.
    + destruct H2 as [-> | (sm & args & ->)]; [done|].
      rewrite fmap_app. apply StronglySorted_snoc; [done|].
      apply Forall_fmap. eapply Forall_impl; [exact Hall|].
      intros f [Hf _]. simpl. lia.
    + destruct H2 as [-> | (sm & args & ->)].
      * eapply Forall_impl; [exact Hall|]. intros f [Hf ?]. split; [lia|done].
      * apply Forall_app. split.
        -- eapply Forall_impl; [exact Hall|]. intros f [Hf ?]. split; [lia|done].
        -- constructor; [|done]. simpl. split; [lia|done].
    + intros k c' Hk. eapply lookup_weaken in Hk; [|exact H3].
      apply lookup_insert_Some in Hk as [[<- _] | [_ Hk]]; [lia|].
      apply Hpend in Hk. lia.
Qed.

Lemma wire_ok_run os : ∀ s (n : Z),
  wire_ok s → seq s ≤ 1 + n → 0 ≤ n →
  n + Z.of_nat (length os) < uint64_mod - 1 →
  wire_ok (exec_ops os s) ∧ seq (exec_ops os s) ≤ 1 + n + Z.of_nat (length os).
Proof.
  induction os as [|o os IH]; intros s n Hok Hs Hn Hb; simpl in *.
  - split; [done|lia].
  - destruct (wire_ok_step o s Hok) as [Hok' Hs']; [lia|].
    destruct (IH (exec_op o s) (n + 1)) as [H1 H2]; [done|lia|lia|lia|].
    split; [done|]. unfold exec_ops in *. lia.
Qed.

End ClientWireLemmas.

Section ClientWireTheorems.
Import Client ClientWire.

(** X11.  In every state a client reaches from [newClientCodec] by
    fewer than 2^64 - 1 operations (calls, cancellations, responses read,
    channel receives, termination, in any order and with any results of the
    codec), the sequence counter is at least 1 and has moved by at most one
    per operation, the frames written carry strictly increasing sequence
    numbers from 1 up to the counter, exclusive, each with an empty error
    field, and every pending call is registered under such a number: 0 is
    never used and no number is used twice. *)
Theorem request_numbers_increase (os : list op) :
  Z.of_nat (length os) < uint64_mod - 1 →
  1 ≤ seq (exec_ops os newClientCodec) ≤ 1 + Z.of_nat (length os) ∧
  StronglySorted Z.lt
    ((λ f, Codec.Seq f.1) <$> cc_written (exec_ops os newClientCodec)) ∧
  Forall (λ f, 1 ≤ Codec.Seq f.1 < seq (exec_ops os newClientCodec) ∧
               Codec.Error f.1 = "")
         (cc_written (exec_ops os newClientCodec)) ∧
  (∀ k c, pending (exec_ops os newClientCodec) !! k = Some c →
          1 ≤ k < seq (exec_ops os newClientCodec)).
Proof.
  intros Hb.
  destruct (wire_ok_run os newClientCodec 0) as [(H1 & H2 & H3 & H4) H5].
  - unfold wire_ok. simpl. split_and!; [lia|constructor|constructor|].
    intros k c Hk. by rewrite lookup_empty in Hk.
  - simpl. lia.
  - lia.
  - lia.
  - split_and!; try done; lia.
Qed.

Lemma request_numbers_increase_witness :
  (λ f, Codec.Seq f.1) <$> cc_written two_pending = [1; 2] ∧
  StronglySorted Z.lt ((λ f, Codec.Seq f.1) <$> cc_written two_pending).
Proof.
  split; [reflexivity|].
  refine (proj1 (proj2 (request_numbers_increase
    [OpGo "Foo.Sum" (Server.VInt 1) (Server.VInt 0) None None;
     OpGo "Foo.Sum" (Server.VInt 2) (Server.VInt 0) None None] _))).
  vm_compute. reflexivity.
Defined.

(** X12.  A client that is closing or shut down stays silent: whatever
    operations follow, no frame is written, the sequence counter does not
    move, and no call is added to the pending table. *)
Theorem unavailable_client_is_silent (os : list op) (s : state) :
  closing s = true ∨ shutdown s = true →
  cc_written (exec_ops os s) = cc_written s ∧
  seq (exec_ops os s) = seq s ∧
  pending (exec_ops os s) ⊆ pending s.
Proof.
  revert s. induction os as [|o os IH]; intros s Hun; [done|].
  change (exec_ops (o :: os) s) with (exec_ops os (exec_op o s)).
  destruct (exec_op_wire o s) as [(H1 & H2 & H3) | (Hav & _)].
  - destruct (IH (exec_op o s)) as (I1 & I2 & I3).
    { destruct (exec_op_flags o s) as [Hc Hs]. destruct Hun; eauto. }
    rewrite I1, I2, H1, H2. split; [done|]. split; [done|]. by etrans.
  - exfalso. unfold IsAvailable in Hav.
    destruct Hun as [E | E]; rewrite E in Hav; simpl in Hav;
      [by rewrite andb_false_r in Hav | done].
Qed.

Lemma unavailable_client_is_silent_witness :
  cc_written
    (exec_ops [OpGo "Foo.Sum" (Server.VInt 1) (Server.VInt 0) None None;
               OpReceive sum_header None (Server.VInt 3)] closed_client) = [].
Proof.
  refine (proj1 (unavailable_client_is_silent
    [OpGo "Foo.Sum" (Server.VInt 1) (Server.VInt 0) None None;
     OpReceive sum_header None (Server.VInt 3)] closed_client _)).
  left. reflexivity.
Defined.

Lemma alter_snoc {A} (f : A → A) (l : list A) (x : A) :
  alter f (length l) (l ++ [x]) = l ++ [f x].
Proof.
  pose proof (alter_app_r f l [x] 0) as H.
  rewrite Nat.add_0_r in H. exact H.
Qed.

Lemma insert_snoc {A} (l : list A) (x y : A) :
  <[length l := y]> (l ++ [x]) = l ++ [y].
Proof.
  pose proof (insert_app_r l [x] 0 y) as H.
  rewrite Nat.add_0_r in H. exact H.
Qed.

(** X13.  On an available client, [Go] with a [done] that is [nil] or
    has a buffer returns at once when the write succeeds: the new call is
    stored with the current sequence counter as its number, it is pending
    under that number, the frame written carries that number, the method
    name and the arguments, the counter has moved by one modulo 2^64, and no
    channel has been signalled. *)
Theorem Go_sends_request (sm : string) (args reply : value) (dn : option nat)
    (s : state) :
  IsAvailable s = true →
  (∀ d, dn = Some d → cap s d ≠ 0%nat) →
  ∃ s',
    Go sm args reply dn None s = Returns (length (calls s)) s' ∧
    calls s' = calls s ++ [{| Seq := seq s; ServiceMethod := sm; Args := args;
                              Reply := reply; Error := None;
                              Done := Go_channel dn s |}] ∧
    pending s' = <[seq s := length (calls s)]> (pending s) ∧
    seq s' = wrap_uint64 (seq s + 1) ∧
    cc_written s' = cc_written s ++ [(request_header sm (seq s), args)] ∧
    chans s' = match dn with
               | None => chans s ++ [{| chan_cap := 1; chan_buf := [] |}]
               | Some _ => chans s
               end ∧
    IsAvailable s' = true.
Proof.
  intros Hav Hcap. pose proof Hav as Hflag. apply IsAvailable_flags in Hflag.
  unfold Go, make_chan. destruct dn as [d|]; cbv beta iota zeta.
  - rewrite decide_False by (by apply Hcap).
    unfold send, registerCall. simpl. rewrite Hflag. simpl.
    rewrite lookup_alter_snoc. simpl.
    eexists. split; [done|]. simpl. rewrite alter_snoc. done.
  - unfold send, registerCall. simpl. rewrite Hflag. simpl.
    rewrite lookup_alter_snoc. simpl.
    eexists. split; [done|]. simpl. rewrite alter_snoc. done.
Qed.

Lemma Go_sends_request_witness :
  ∃ s', Go "Foo.Sum" (Server.VInt 1) (Server.VInt 0) None None newClientCodec
          = Returns 0%nat s' ∧
        pending s' = {[ 1 := 0%nat ]} ∧
        cc_written s' = [(request_header "Foo.Sum" 1, Server.VInt 1)].
Proof.
  destruct (Go_sends_request "Foo.Sum" (Server.VInt 1) (Server.VInt 0) None
              newClientCodec) as (s' & HG & _ & Hp & _ & Hw & _).
  - reflexivity.
  - intros d Hd. discriminate.
  - exists s'. split; [exact HG|]. split; [exact Hp|exact Hw].
Defined.

(** X14.  A response whose number belongs to a pending call, whose
    [Done] channel has room, completes that call: it is taken out of the
    pending table, it gets the error [fmt.Errorf] makes of the header's
    error text, taken as a format without operands, or else the error of
    reading the body, or else the reply, and it is sent once on its
    channel; nothing is written and no other call or channel changes.  A
    response whose number is not pending changes no call and no channel. *)
Theorem receive_turn_completes (h : Codec.Header) (body_err : option string)
    (v : value) (s : state) :
  (∀ c call ch,
     pending s !! Codec.Seq h = Some c → calls s !! c = Some call →
     chans s !! Done call = Some ch →
     (length (chan_buf ch) < chan_cap ch)%nat →
     ∃ s', receive_turn h body_err v s = Returns body_err s' ∧
       pending s' = delete (Codec.Seq h) (pending s) ∧
       calls s' = <[c := completed h body_err v call]> (calls s) ∧
       chans s' = <[Done call := {| chan_cap := chan_cap ch;
                                    chan_buf := chan_buf ch ++ [c] |}]> (chans s) ∧
       cc_written s' = cc_written s ∧ seq s' = seq s ∧
       closing s' = closing s ∧ shutdown s' = shutdown s) ∧
  (pending s !! Codec.Seq h = None →
     ∃ s', receive_turn h body_err v s = Returns body_err s' ∧
       pending s' = pending s ∧ calls s' = calls s ∧ chans s' = chans s ∧
       cc_written s' = cc_written s ∧ seq s' = seq s).
Proof.
  split.
  - intros c call ch Hp Hc Hch Hroom.
    unfold receive_turn, removeCall. rewrite Hp.
    assert (∀ f, Done (f call) = Done call →
              ∃ s', done c (update_call f c (set_pending (delete (Codec.Seq h) (pending s)) s))
                    = Returns tt s' ∧
                pending s' = delete (Codec.Seq h) (pending s) ∧
                calls s' = <[c := f call]> (calls s) ∧
                chans s' = <[Done call := {| chan_cap := chan_cap ch;
                                             chan_buf := chan_buf ch ++ [c] |}]> (chans s) ∧
                cc_written s' = cc_written s ∧ seq s' = seq s ∧
                closing s' = closing s ∧ shutdown s' = shutdown s) as Hdone.
    { intros f Hf.
      erewrite done_proceeds with (call := f call) (ch := ch).
      - eexists. split; [done|]. simpl. rewrite Hf. split_and!; try done.
        apply list_eq. intros i. rewrite list_lookup_alter.
        case_decide as Hi.
        + subst i. rewrite list_lookup_insert_eq by (by eapply lookup_lt_Some).
          by rewrite Hc.
        + by rewrite list_lookup_insert_ne.
      - simpl. rewrite list_lookup_alter, decide_True by done. by rewrite Hc.
      - simpl. by rewrite Hf.
      - done. }
    unfold completed. case_decide as He.
    + destruct (Hdone (set_Error (Some (Errorf (Codec.Error h)))))
        as (s' & -> & H); [done|]. by exists s'.
    + destruct body_err as [e|].
      * destruct (Hdone (set_Error (Some (ErrorString
                                            (String.append "读取消息体出错 " e)))))
          as (s' & -> & H); [done|]. by exists s'.
      * destruct (Hdone (set_Reply v)) as (s' & -> & H); [done|]. by exists s'.
  - intros Hp. unfold receive_turn, removeCall. rewrite Hp.
    eexists. split; [done|]. simpl. split_and!; try done.
    by apply delete_id.
Qed.

Lemma receive_turn_completes_witness :
  (∃ s', receive_turn (request_header "Foo.Sum" 1) None (Server.VInt 7) two_pending
           = Returns None s' ∧
         pending s' = {[ 2 := 1%nat ]} ∧
         Reply <$> calls s' !! 0%nat = Some (Server.VInt 7) ∧
         chan_buf <$> chans s' !! 0%nat = Some [0%nat]) ∧
  (∃ s', receive_turn
           {| Codec.ServiceMethod := "Foo.Sum"; Codec.Seq := 2;
              Codec.Error := "load 100%" |}
           None (Server.VInt 7) two_pending
           = Returns None s' ∧
         pending s' = {[ 1 := 0%nat ]} ∧
         Error <$> calls s' !! 1%nat = Some (Some (Errorf "load 100%")) ∧
         chan_buf <$> chans s' !! 1%nat = Some [1%nat]).
Proof.
  split.
  - destruct (receive_turn_completes (request_header "Foo.Sum" 1) None
                (Server.VInt 7) two_pending) as [H _].
    destruct (H 0%nat
                {| Seq := 1; ServiceMethod := "Foo.Sum"; Args := Server.VInt 1;
                   Reply := Server.VInt 0; Error := None; Done := 0 |}
                {| chan_cap := 1; chan_buf := [] |})
      as (s' & Hr & Hp & Hc & Hch & _); [reflexivity..|simpl; lia|].
    exists s'. split; [exact Hr|]. rewrite Hp, Hc, Hch.
    split; [|split]; reflexivity.
  - destruct (receive_turn_completes
                {| Codec.ServiceMethod := "Foo.Sum"; Codec.Seq := 2;
                   Codec.Error := "load 100%" |}
                None (Server.VInt 7) two_pending) as [H _].
    destruct (H 1%nat
                {| Seq := 2; ServiceMethod := "Foo.Sum"; Args := Server.VInt 2;
                   Reply := Server.VInt 0; Error := None; Done := 1 |}
                {| chan_cap := 1; chan_buf := [] |})
      as (s' & Hr & Hp & Hc & Hch & _); [reflexivity..|simpl; lia|].
    exists s'. split; [exact Hr|]. rewrite Hp, Hc, Hch.
    split; [|split]; reflexivity.
Defined.

(** X15.  A call cancelled through its context is forgotten: on an
    available client whose write succeeds, [Call] with a context that is
    done returns the context's error and leaves no pending entry for the
    number it used, so that a response that arrives later under that
    number completes no call and signals no channel. *)
Theorem cancelled_call_discards_response (pick_ctx : bool) (ctx_err sm : string)
    (args reply : value) (s : state) (h : Codec.Header)
    (body_err : option string) (v : value) :
  IsAvailable s = true →
  Codec.Seq h = seq s →
  ∃ s1 s2,
    Client_Call true pick_ctx ctx_err sm args reply None s
      = Returns (Some (ErrorString (String.append "rpc client: 调用失败 " ctx_err))) s1 ∧
    pending s1 = delete (seq s) (pending s) ∧
    cc_written s1 = cc_written s ++ [(request_header sm (seq s), args)] ∧
    receive_turn h body_err v s1 = Returns body_err s2 ∧
    calls s2 = calls s1 ∧ chans s2 = chans s1 ∧ pending s2 = pending s1.
Proof.
  intros Hav Hseq. pose proof Hav as Hflag. apply IsAvailable_flags in Hflag.
  unfold Client_Call, make_chan. cbv beta iota zeta.
  unfold Go, cap. simpl. rewrite list_lookup_middle by done. simpl.
  unfold send, registerCall. simpl. rewrite Hflag. simpl.
  rewrite lookup_alter_snoc. simpl. rewrite lookup_alter_snoc. simpl.
  unfold recv. simpl. rewrite list_lookup_middle by done. simpl.
  eexists _, _. split; [done|]. simpl.
  rewrite delete_insert_eq. split; [done|]. split; [done|].
  unfold receive_turn, removeCall. simpl.
  rewrite Hseq, lookup_delete_eq. split; [done|]. simpl.
  split; [done|]. split; [done|]. by rewrite delete_delete_eq.
Qed.

Lemma cancelled_call_discards_response_witness :
  ∃ s1 s2,
    Client_Call true false "context deadline exceeded" "Foo.Sum"
      (Server.VInt 1) (Server.VInt 0) None newClientCodec
      = Returns (Some (ErrorString "rpc client: 调用失败 context deadline exceeded")) s1 ∧
    pending s1 = ∅ ∧
    receive_turn (request_header "Foo.Sum" 1) None (Server.VInt 7) s1
      = Returns None s2 ∧
    chans s2 = chans s1.
Proof.
  destruct (cancelled_call_discards_response false "context deadline exceeded"
              "Foo.Sum" (Server.VInt 1) (Server.VInt 0) newClientCodec
              (request_header "Foo.Sum" 1) None (Server.VInt 7))
    as (s1 & s2 & H1 & H2 & _ & H3 & _ & H4 & _); [reflexivity..|].
  exists s1, s2. split; [exact H1|]. split; [|split; [exact H3|exact H4]].
  rewrite H2. reflexivity.
Defined.

(** X16.  When the write of the request fails on an available client,
    [Go] with a [nil] [done] still returns: the call is taken out of the
    pending table again, it gets the error of the write, it is sent once
    on its new channel, and nothing is recorded as written; the sequence
    number it was given is used up. *)
Theorem Go_write_failure (sm : string) (args reply : value) (e : error)
    (s : state) :
  IsAvailable s = true →
  ∃ s',
    Go sm args reply None (Some e) s = Returns (length (calls s)) s' ∧
    calls s' = calls s ++ [{| Seq := seq s; ServiceMethod := sm; Args := args;
                              Reply := reply; Error := Some e;
                              Done := length (chans s) |}] ∧
    chans s' = chans s ++ [{| chan_cap := 1; chan_buf := [length (calls s)] |}] ∧
    pending s' = delete (seq s) (pending s) ∧
    cc_written s' = cc_written s ∧
    seq s' = wrap_uint64 (seq s + 1) ∧
    IsAvailable s' = true.
Proof.
  intros Hav. pose proof Hav as Hflag. apply IsAvailable_flags in Hflag.
  unfold Go, make_chan. cbv beta iota zeta.
  unfold send, registerCall. simpl. rewrite Hflag. simpl.
  rewrite lookup_alter_snoc. simpl.
  unfold removeCall. simpl. rewrite lookup_insert_eq.
  erewrite done_proceeds;
    [| simpl; apply lookup_alter_alter_snoc
     | simpl; by apply list_lookup_middle
     | simpl; lia].
  eexists. split; [done|]. simpl.
  rewrite !alter_snoc, delete_insert_eq. split_and!; try done.
  apply insert_snoc.
Qed.

Lemma Go_write_failure_witness :
  ∃ s', Go "Foo.Sum" (Server.VInt 1) (Server.VInt 0) None
          (Some (ErrorString "broken pipe")) newClientCodec = Returns 0%nat s' ∧
        pending s' = ∅ ∧ cc_written s' = [] ∧
        Error <$> calls s' !! 0%nat = Some (Some (ErrorString "broken pipe")).
Proof.
  destruct (Go_write_failure "Foo.Sum" (Server.VInt 1) (Server.VInt 0)
              (ErrorString "broken pipe") newClientCodec)
    as (s' & HG & Hc & _ & Hp & Hw & _); [reflexivity|].
  exists s'. split; [exact HG|]. rewrite Hp, Hw, Hc.
  split; [|split]; reflexivity.
Defined.

End ClientWireTheorems.

(* --------------------------------------------------------------------- *)
(** ** Client options and the handshake of the server *)

Section DialHandshake.
Import Dial.
Variable serveCodec :
  Codec.NewCodecFunc → Opt.Option → list (Codec.Header * Server.value) →
  Server.exec (list (Codec.Header * Server.body)).

(** X17.  [parseOptions] fails exactly when a non-nil first option is
    followed by more options; a nil first option gives the default
    whatever follows.  The option it returns has the magic number of the
    protocol and a codec type that is not empty, and keeps the timeouts
    given.  With such an option [NewClient] fails without writing when the
    codec type has no constructor; otherwise it closes the connection when
    the option cannot be written, and else returns a new client, and the
    option it has written passes the handshake of [ServeConn]: the server
    goes on to serve the requests with the client's option. *)
Theorem parsed_option_passes_handshake (opts : list (option Opt.Option)) :
  (parseOptions opts = inr "opts 参数数量不能超过1" ↔
     ∃ o rest, opts = Some o :: rest ∧ rest ≠ []) ∧
  (∀ rest, parseOptions (None :: rest) = inl Opt.DefaultOption) ∧
  (∀ opt, parseOptions opts = inl opt →
     Opt.OptMagicNumber opt = Opt.MagicNumber ∧
     Opt.CodecType opt ≠ "" ∧
     (∀ o, opts = [Some o] →
        Opt.ConnectTimeout opt = Opt.ConnectTimeout o ∧
        Opt.HandleTimeout opt = Opt.HandleTimeout o ∧
        (Opt.CodecType o ≠ "" → Opt.CodecType opt = Opt.CodecType o)) ∧
     (Codec.NewCodecFuncMap !! Opt.CodecType opt = None →
        ∀ encode_err,
          NewClient encode_err opt
          = (inr (String.append "非法的codec类型 " (Opt.CodecType opt)),
             {| sent := None; closed := false |})) ∧
     (∀ f, Codec.NewCodecFuncMap !! Opt.CodecType opt = Some f →
        NewClient None opt
          = (inl Client.newClientCodec, {| sent := Some opt; closed := false |}) ∧
        (∀ e, NewClient (Some e) opt = (inr e, {| sent := None; closed := true |})) ∧
        ∀ reqs,
          Server.ServeConn serveCodec
            (server_side {| sent := Some opt; closed := false |} reqs)
          = serveCodec f opt reqs)).
Proof.
  split; [|split].
  - unfold parseOptions. destruct opts as [|[o|] rest]; simpl.
    + split; [done|]. by intros (? & ? & ? & ?).
    + case_decide as Hl.
      * split; [|done]. intros _. exists o, rest. split; [done|].
        intros ->. by apply Hl.
      * split; [done|]. intros (o' & rest' & [= <- <-] & Hne).
        destruct rest; [done|]. simpl in Hl. lia.
    + split; [done|]. by intros (? & ? & ? & ?).
  - done.
  - intros opt Hp.
    assert (Opt.OptMagicNumber opt = Opt.MagicNumber ∧ Opt.CodecType opt ≠ "")
      as [Hm Hc].
    { unfold parseOptions in Hp. destruct opts as [|[o|] rest].
      - by injection Hp as <-.
      - case_decide; [done|]. injection Hp as <-. simpl. split; [done|].
        by case_decide.
      - by injection Hp as <-. }
    split; [done|]. split; [done|]. split; [|split].
    + intros o ->. unfold parseOptions in Hp. simpl in Hp.
      injection Hp as <-. simpl. split; [done|]. split; [done|].
      intros Hne. by rewrite decide_False.
    + intros Hn encode_err. unfold NewClient. by rewrite Hn.
    + intros f Hf. unfold NewClient. rewrite Hf. split; [done|]. split; [done|].
      intros reqs. unfold Server.ServeConn, server_side. simpl.
      rewrite decide_False by (by intros ?). by rewrite Hf.
Qed.

End DialHandshake.

(* --------------------------------------------------------------------- *)
(** ** The balancing client: Broadcast and the cache of clients *)

Section Balancing.
Import Balancer.

Lemma Broadcast_loop (results : list (option string * Server.value)) :
  ∀ e replyDone reply,
    fold_left Broadcast_step results (e, replyDone, reply)
    = (match e with
       | Some _ => e
       | None => head (omap fst results)
       end,
       replyDone || bool_decide (filter (λ r, r.1 = None) results ≠ []),
       if replyDone then reply
       else default reply (head (snd <$> filter (λ r, r.1 = None) results))).
Proof.
  induction results as [|[[err|] v] results IH]; intros e replyDone reply.
  - simpl. destruct e, replyDone; done.
  - cbn [fold_left Broadcast_step fst snd]. rewrite IH.
    rewrite filter_cons, decide_False by done. simpl.
    destruct e; done.
  - cbn [fold_left Broadcast_step fst snd].
    rewrite filter_cons, decide_True by done.
    destruct replyDone; rewrite IH; simpl; destruct e; try done.
    all: by rewrite orb_true_r.
Qed.

(** X18.  When [GetAll] fails, [Broadcast] returns its error and calls
    no server.  Otherwise it returns the error of the first call that
    fails, in the order in which the calls come back, and [nil] exactly
    when every call succeeds; the reply is that of the first call that
    succeeds, also when an error is returned, and is left as it was when
    no call succeeds. *)
Theorem Broadcast_first_error_first_reply (reply : option Server.value)
    (results : list (option string * Server.value)) :
  (∀ err, Broadcast (Some err) reply results = (Some err, reply)) ∧
  (Broadcast None reply results).1 = head (omap fst results) ∧
  ((Broadcast None reply results).1 = None ↔ Forall (λ r, r.1 = None) results) ∧
  (Broadcast None reply results).2 =
    ((λ v, default v (head (snd <$> filter (λ r, r.1 = None) results))) <$> reply).
Proof.
  split; [done|].
  assert ((Broadcast None reply results).1 = head (omap fst results)) as H1.
  { unfold Broadcast. destruct reply; by rewrite Broadcast_loop. }
  split; [done|]. split.
  - rewrite H1. clear. induction results as [|[[e|] v] results IH]; simpl.
    + split; [constructor|done].
    + split; [done|]. by intros [? _]%Forall_cons.
    + rewrite IH. split.
      * intros H. by constructor.
      * by intros [_ ?]%Forall_cons.
  - unfold Broadcast. destruct reply; [|done]. by rewrite Broadcast_loop.
Qed.

(** X19.  [dial] uses the cached client of the address exactly when it
    is available, without dialling; a cached client that is not available
    is closed and dropped and a new one is dialled.  In either case the
    client returned is the one the cache holds for the address afterwards,
    a failed dial leaves no entry for the address, no other address is
    touched, and an available client is returned again by the next
    [dial]. *)
Theorem dial_cache (rpcAddr : string) (xdial : Client.state + string)
    (close_err : option Client.error) (cs : clients) :
  (∀ a, a ≠ rpcAddr → cache (dial rpcAddr xdial close_err cs) !! a = cs !! a) ∧
  (∀ c, cs !! rpcAddr = Some c → Client.IsAvailable c = true →
     dial rpcAddr xdial close_err cs
     = {| result := inl c; evicted := None; cache := cs |}) ∧
  (∀ c, cs !! rpcAddr = Some c → Client.IsAvailable c = false →
     result (dial rpcAddr xdial close_err cs) = xdial ∧
     ∃ c', evicted (dial rpcAddr xdial close_err cs) = Some c' ∧
           Client.closing c' = true) ∧
  (cs !! rpcAddr = None →
     result (dial rpcAddr xdial close_err cs) = xdial ∧
     evicted (dial rpcAddr xdial close_err cs) = None) ∧
  (∀ c, result (dial rpcAddr xdial close_err cs) = inl c →
     cache (dial rpcAddr xdial close_err cs) !! rpcAddr = Some c) ∧
  (∀ err, result (dial rpcAddr xdial close_err cs) = inr err →
     cache (dial rpcAddr xdial close_err cs) !! rpcAddr = None) ∧
  (∀ c xdial' close_err',
     result (dial rpcAddr xdial close_err cs) = inl c →
     Client.IsAvailable c = true →
     dial rpcAddr xdial' close_err' (cache (dial rpcAddr xdial close_err cs))
     = {| result := inl c; evicted := None;
          cache := cache (dial rpcAddr xdial close_err cs) |}).
Proof.
  assert (∀ cs0 c xd ce, cs0 !! rpcAddr = Some c → Client.IsAvailable c = true →
            dial rpcAddr xd ce cs0 = {| result := inl c; evicted := None; cache := cs0 |})
    as Hhit.
  { intros cs0 c xd ce Hc Ha. unfold dial. rewrite Hc, Ha. simpl. by rewrite Hc. }
  assert (∀ c, result (dial rpcAddr xdial close_err cs) = inl c →
               cache (dial rpcAddr xdial close_err cs) !! rpcAddr = Some c) as Hres.
  { intros c. unfold dial.
    destruct (cs !! rpcAddr) as [c0|] eqn:Hc; simpl.
    - destruct (Client.IsAvailable c0); simpl.
      + rewrite Hc. simpl. by intros [= <-].
      + rewrite lookup_delete_eq. destruct xdial; simpl; [|done].
        intros [= <-]. by rewrite lookup_insert_eq.
    - rewrite Hc. destruct xdial; simpl; [|done].
      intros [= <-]. by rewrite lookup_insert_eq. }
  split_and!.
  - intros a Hne. unfold dial.
    destruct (cs !! rpcAddr) as [c0|] eqn:Hc; simpl.
    + destruct (Client.IsAvailable c0); simpl.
      * by rewrite Hc.
      * rewrite lookup_delete_eq. destruct xdial; simpl.
        -- by rewrite lookup_insert_ne, lookup_delete_ne.
        -- by rewrite lookup_delete_ne.
    + rewrite Hc. destruct xdial; simpl; [|done]. by rewrite lookup_insert_ne.
  - intros c Hc Ha. by apply Hhit.
  - intros c Hc Ha. unfold dial. rewrite Hc, Ha. simpl.
    rewrite lookup_delete_eq. split.
    + by destruct xdial.
    + eexists. split; [by destruct xdial|]. unfold Client.Close.
      destruct (Client.closing c) eqn:E; done.
  - intros Hc. unfold dial. rewrite Hc. simpl. rewrite Hc. by destruct xdial.
  - done.
  - intros err. unfold dial.
    destruct (cs !! rpcAddr) as [c0|] eqn:Hc; simpl.
    + destruct (Client.IsAvailable c0); simpl.
      * by rewrite Hc.
      * rewrite lookup_delete_eq. destruct xdial; simpl; [done|].
        intros _. apply lookup_delete_eq.
    + rewrite Hc. by destruct xdial.
  - intros c xdial' close_err' Hr Ha. apply Hhit; [|done]. by apply Hres.
Qed.

End Balancing.

(* --------------------------------------------------------------------- *)
(** ** handleRequest without a time limit *)

Section HandlerNoTimeout.
Import Server.
Variable duration_string : Z → string.
Variable h0 : Codec.Header.
Variable reply : value.
Variable err : option string.

#[local] Abbreviation step0 := (hr_step duration_string reply err 0).
#[local] Abbreviation run0 := (hr_run duration_string reply err 0).
#[local] Abbreviation inv0 := (hr_inv duration_string h0 reply err 0).

Lemma hr_run_app es1 es2 s :
  run0 (es1 ++ es2) s =
    match run0 es1 s with
    | Some s1 => run0 es2 s1
    | None => None
    end.
Proof.
  revert s. induction es1 as [|e es1 IH]; intros s; simpl; [done|].
  destruct (step0 e s); [apply IH|done].
Qed.

(** Without a time limit the worker never reaches the select, and the
    timer never starts. *)
Lemma no_select_step e s s' :
  worker s ≠ Selecting → worker s ≠ TimedOut → worker s ≠ ReturnedTimeout →
  step0 e s = Some s' →
  (worker s' ≠ Selecting ∧ worker s' ≠ TimedOut ∧ worker s' ≠ ReturnedTimeout) ∧
  e ≠ TimerFires ∧ e ≠ TakeTimeout ∧ e ≠ SendTimeoutResponse.
Proof.
  intros H1 H2 H3 Hs.
  destruct e; simpl in Hs; case_decide; try discriminate;
    try (destruct err; injection Hs as <-); try (injection Hs as <-);
    simpl; try done; naive_solver.
Qed.

Lemma no_select_run es : ∀ s s',
  worker s ≠ Selecting → worker s ≠ TimedOut → worker s ≠ ReturnedTimeout →
  run0 es s = Some s' →
  (worker s' ≠ Selecting ∧ worker s' ≠ TimedOut ∧ worker s' ≠ ReturnedTimeout) ∧
  (TimerFires ∉ es) ∧ (TakeTimeout ∉ es) ∧ (SendTimeoutResponse ∉ es).
Proof.
  induction es as [|e es IH]; intros s s' H1 H2 H3 Hr; simpl in Hr.
  - injection Hr as <-. split; [done|]. split_and!; apply not_elem_of_nil.
  - destruct (step0 e s) as [s1|] eqn:Hs; [|done].
    destruct (no_select_step e s s1 H1 H2 H3 Hs) as ((G1 & G2 & G3) & E1 & E2 & E3).
    destruct (IH s1 s' G1 G2 G3 Hr) as (Hw & N1 & N2 & N3).
    split; [done|]. rewrite !not_elem_of_cons. done.
Qed.

(** X20.  With [HandleTimeout] 0 there is no time limit: in every
    schedule of the two goroutines the timer never fires and no timeout
    response is written; what has been written is nothing or the response
    of the invocation alone, the worker returns only after that response
    has been written, and from every state reached the worker can still
    return, having written exactly that response. *)
Theorem handleRequest_without_timeout (es : list hr_event) (s : hr_state) :
  run0 es (handleRequest_init h0 0) = Some s →
  (TimerFires ∉ es) ∧ (TakeTimeout ∉ es) ∧ (SendTimeoutResponse ∉ es) ∧
  (written s = [] ∨ written s = [call_response h0 reply err]) ∧
  (worker s = ReturnedCalled → written s = [call_response h0 reply err]) ∧
  (worker s = ReceivingCalled ∨ worker s = ReceivingSent ∨ worker s = ReturnedCalled) ∧
  ∃ es' s', run0 es' s = Some s' ∧ worker s' = ReturnedCalled ∧
            written s' = [call_response h0 reply err].
Proof.
  intros Hr.
  pose proof (hr_inv_run duration_string h0 reply err 0 es _ s
                (hr_inv_init duration_string h0 reply err 0) Hr) as Hinv.
  destruct (no_select_run es (handleRequest_init h0 0) s)
    as ((W1 & W2 & W3) & N1 & N2 & N3); [done|done|done|exact Hr|].
  split; [done|]. split; [done|]. split; [done|].
  assert (worker s = ReceivingCalled ∨ worker s = ReceivingSent ∨
          worker s = ReturnedCalled) as Hw.
  { destruct (worker s); eauto; done. }
  unfold hr_inv in Hinv.
  split; [|split; [|split; [done|]]].
  - destruct Hw as [E | [E | E]]; rewrite E in Hinv; naive_solver.
  - intros E. rewrite E in Hinv. naive_solver.
  - destruct Hw as [E | [E | E]].
    + (* the invocation has not been taken yet *)
      rewrite E in Hinv. destruct Hinv as (Hwr & Hh & Hi).
      assert (∃ s1, run0 (match invoker s with
                            | Invoking => [CallReturns; TakeCalled]
                            | _ => [TakeCalled]
                            end) s = Some s1 ∧
                    worker s1 = ReceivingSent ∧ inv0 s1) as (s1 & Hr1 & Hw1 & Hi1).
      { destruct Hi as [Hi | Hi]; rewrite Hi; simpl.
        - rewrite decide_True by done. simpl.
          rewrite decide_True by (rewrite E; eauto).
          eexists. split; [done|]. split; [done|].
          unfold hr_inv. simpl. left. done.
        - rewrite decide_True by (rewrite E; eauto).
          eexists. split; [done|]. split; [done|].
          unfold hr_inv. simpl. left. done. }
      destruct (handleRequest_sends_call_response duration_string h0 reply err 0 s1
                  Hi1 Hw1) as (es2 & s2 & Hr2 & Hw2 & Hwr2).
      eexists (_ ++ es2), s2. rewrite hr_run_app, Hr1. done.
    + destruct (handleRequest_sends_call_response duration_string h0 reply err 0 s)
        as (es2 & s2 & Hr2 & Hw2 & Hwr2); [done..|]. eauto.
    + exists [], s. rewrite E in Hinv. simpl. naive_solver.
Qed.

End HandlerNoTimeout.

Lemma handleRequest_without_timeout_witness :
  ∃ s, Server.hr_run one_second_string (Server.VInt 7) None 0
         [Server.CallReturns; Server.TakeCalled; Server.Respond; Server.TakeSent]
         (Server.handleRequest_init sum_header 0) = Some s ∧
       Server.written s = [(sum_header, Server.Reply (Server.VInt 7))].
Proof.
  eexists. split; [reflexivity|].
  destruct (handleRequest_without_timeout one_second_string sum_header
              (Server.VInt 7) None
              [Server.CallReturns; Server.TakeCalled; Server.Respond; Server.TakeSent]
              _ eq_refl) as (_ & _ & _ & _ & H & _).
  apply H. reflexivity.
Defined.

(* --------------------------------------------------------------------- *)
(** ** The request pump *)

Section PumpTheorems.
Import Server Dispatch Pump.
Context {item : Type}.
Variable ReadHeader : item → option Codec.Header.
Variable ReadBody : rtype → item → option value.

#[local] Abbreviation pump := (serveCodec item ReadHeader ReadBody).

(** X21.  A request whose name [findService] does not resolve is
    answered by the pump itself, with the header of the request, the error
    of [findService] in it, and the body [invalidRequest]; its own body is
    not read, so that the next value of the input, the unread body, is
    read as a header.  When that value does not decode as a header, the
    process ends right after the error response, whatever requests
    follow. *)
Theorem serveCodec_dispatch_error (s : serviceMap) (i : item) (rest : list item)
    (h : Codec.Header) (f : found) (e : string) :
  ReadHeader i = Some h →
  findService (Codec.ServiceMethod h) s = Some f →
  err f = Some e →
  pump s (i :: rest)
    = (Respond (set_Error e h) invalidRequest :: (pump s rest).1, (pump s rest).2) ∧
  (∀ b rest', rest = b :: rest' → ReadHeader b = None →
     pump s (i :: rest) = ([Respond (set_Error e h) invalidRequest], Exited 1)) ∧
  (rest = [] →
     pump s (i :: rest) = ([Respond (set_Error e h) invalidRequest], Closed)).
Proof.
  intros Hh Hf He.
  assert (pump s (i :: rest)
          = (Respond (set_Error e h) invalidRequest :: (pump s rest).1,
             (pump s rest).2)) as Hp.
  { cbn [serveCodec]. by rewrite Hh, Hf, He. }
  split; [done|]. split.
  - intros b rest' -> Hb. rewrite Hp. cbn [serveCodec]. by rewrite Hb.
  - intros ->. by rewrite Hp.
Qed.

(** X22.  When every request of the input is read and dispatched (its
    header decodes, [findService] resolves its name, the reply type has an
    element type, and its body decodes into the argument type), the pump
    starts one handler for each, in the order of the input, with the
    service, the method, the argument and the reply container of that
    request; it writes no response itself, and at the end of the input it
    leaves the loop and closes the codec. *)
Theorem serveCodec_dispatches_all (s : serviceMap) (reqs : list (dispatched item)) :
  Forall (dispatches ReadHeader ReadBody s) reqs →
  pump s (flat_map (λ r, [header_item r; body_item r]) reqs)
  = ((λ r, Spawn (req_header r) (req_svc r) (req_mtype r) (req_argv r)
             (req_replyv r)) <$> reqs,
     Closed).
Proof.
  induction 1 as [|r reqs (Hh & Hf & Hr & t & Ht & Hb) _ IH]; [done|].
  cbn [flat_map app]. cbn [serveCodec].
  rewrite Hh, Hf. cbn [err svc mtype]. rewrite Ht, Hr, Hb, IH. done.
Qed.

(** X28.  [registerMethods] does not look at the kind of the reply
    type, and the pump allocates the reply with [newReplyv] before it reads
    the body: after a receiver has been registered, a request for one of
    its methods that passes the tests but whose reply type has no element
    type (its kind is not array, chan, map, pointer or slice) makes the
    goroutine of the pump panic, before anything is answered and whatever
    requests follow. *)
Theorem serveCodec_reply_without_element_panics (t : rcvr_type) (v : value)
    (s s' : serviceMap) (mn : string) (i : item) (rest : list item)
    (h : Codec.Header) :
  Register t v s = Returns (None, s') →
  Strings.contains mn "." = false →
  (∃ m, m ∈ method_set t ∧ MethodName m = mn ∧ code_eligible m) →
  (∀ m rt, m ∈ method_set t → MethodName m = mn → In m !! 2%nat = Some rt →
           Elem rt = None) →
  ReadHeader i = Some h →
  Codec.ServiceMethod h = String.append (TypeName t) (String "." mn) →
  pump s' (i :: rest) = ([], Panicked).
Proof.
  intros HR Hc Hm Hel Hh Hsm.
  assert (s' !! TypeName t
          = Some {| name := TypeName t; typ := t; rcvr := v;
                    methods := registerMethods t |}) as Hsv.
  { unfold Register, newService in HR.
    destruct (IsExported (TypeName t)); [|done]. simpl in HR.
    destruct (s !! TypeName t); [done|]. injection HR as <-.
    by rewrite lookup_insert_eq. }
  apply registerMethods_retains_iff in Hm as [d Hd].
  pose proof Hd as Hd'.
  apply registerMethods_lookup in Hd' as (m & Hin & Hk & _ & Hdesc).
  apply descriptor_Some in Hdesc as (Hmeth & _ & _ & Hrt).
  assert (newReplyv d = None) as Hnr.
  { unfold newReplyv. by rewrite (Hel m (ReplyType d) Hin Hk Hrt). }
  cbn [serveCodec]. rewrite Hh, Hsm, findService_dotted, Hsv by done.
  cbn [methods]. rewrite Hd. cbn [err svc mtype]. rewrite Hnr.
  by destruct (newArgv d).
Qed.

End PumpTheorems.

Lemma serveCodec_dispatch_error_witness :
  Pump.serveCodec _ plain_ReadHeader plain_ReadBody {[ "Foo" := Foo_service ]}
    [inl {| Codec.ServiceMethod := "Foo.Nope"; Codec.Seq := 1; Codec.Error := "" |};
     inr (Server.VInt 1);
     inl {| Codec.ServiceMethod := "Foo.Sum"; Codec.Seq := 2; Codec.Error := "" |};
     inr (Server.VPair (Server.VInt 3) (Server.VInt 4))]
  = ([Pump.Respond
        {| Codec.ServiceMethod := "Foo.Nope"; Codec.Seq := 1;
           Codec.Error := "rpc server: 找不到方法 Foo" |}
        Server.invalidRequest],
     Pump.Exited 1).
Proof.
  destruct (serveCodec_dispatch_error plain_ReadHeader plain_ReadBody
              {[ "Foo" := Foo_service ]}
              (inl {| Codec.ServiceMethod := "Foo.Nope"; Codec.Seq := 1;
                      Codec.Error := "" |})
              [inr (Server.VInt 1);
               inl {| Codec.ServiceMethod := "Foo.Sum"; Codec.Seq := 2;
                      Codec.Error := "" |};
               inr (Server.VPair (Server.VInt 3) (Server.VInt 4))]
              {| Codec.ServiceMethod := "Foo.Nope"; Codec.Seq := 1; Codec.Error := "" |}
              {| Dispatch.svc := Some Foo_service; Dispatch.mtype := None;
                 Dispatch.err := Some "rpc server: 找不到方法 Foo" |}
              "rpc server: 找不到方法 Foo")
    as (_ & H & _); [reflexivity..|].
  eapply H; reflexivity.
Defined.

Lemma serveCodec_reply_without_element_panics_witness :
  Pump.serveCodec _ plain_ReadHeader plain_ReadBody
    {[ "Foo" := {| Server.name := "Foo"; Server.typ := Foo_with_Bad;
                   Server.rcvr := Server.VInt 0;
                   Server.methods := Server.registerMethods Foo_with_Bad |} ]}
    [inl {| Codec.ServiceMethod := "Foo.Bad"; Codec.Seq := 1; Codec.Error := "" |};
     inr (Server.VInt 1)]
  = ([], Pump.Panicked).
Proof.
  apply (serveCodec_reply_without_element_panics plain_ReadHeader plain_ReadBody
           Foo_with_Bad (Server.VInt 0) Dispatch.NewServer _ "Bad"
           (inl {| Codec.ServiceMethod := "Foo.Bad"; Codec.Seq := 1;
                   Codec.Error := "" |})
           [inr (Server.VInt 1)]
           {| Codec.ServiceMethod := "Foo.Bad"; Codec.Seq := 1; Codec.Error := "" |}).
  - reflexivity.
  - reflexivity.
  - exists Bad. split; [by left|]. split; [done|].
    apply retained_code_eligible. done.
  - intros m rt Hm _. apply list_elem_of_singleton in Hm as ->.
    intros [= <-]. reflexivity.
  - reflexivity.
  - reflexivity.
Defined.

Lemma serveCodec_dispatches_all_witness :
  Pump.serveCodec _ plain_ReadHeader plain_ReadBody {[ "Foo" := Foo_service ]}
    [inl {| Codec.ServiceMethod := "Foo.Sum"; Codec.Seq := 1; Codec.Error := "" |};
     inr (Server.VPair (Server.VInt 3) (Server.VInt 4))]
  = ([Pump.Spawn
        {| Codec.ServiceMethod := "Foo.Sum"; Codec.Seq := 1; Codec.Error := "" |}
        Foo_service Sum_descriptor (Server.VPair (Server.VInt 3) (Server.VInt 4))
        (Server.ZeroOf (Server.Predeclared "int" Server.Int))],
     Pump.Closed).
Proof.
  apply (serveCodec_dispatches_all plain_ReadHeader plain_ReadBody
           {[ "Foo" := Foo_service ]}
           [Pump.Build_dispatched
              (inl {| Codec.ServiceMethod := "Foo.Sum"; Codec.Seq := 1;
                      Codec.Error := "" |})
              (inr (Server.VPair (Server.VInt 3) (Server.VInt 4)))
              {| Codec.ServiceMethod := "Foo.Sum"; Codec.Seq := 1; Codec.Error := "" |}
              Foo_service Sum_descriptor
              (Server.VPair (Server.VInt 3) (Server.VInt 4))
              (Server.ZeroOf (Server.Predeclared "int" Server.Int))]).
  constructor; [|constructor].
  split; [reflexivity|]. split; [reflexivity|]. split; [reflexivity|].
  eexists. split; reflexivity.
Defined.

(* --------------------------------------------------------------------- *)
(** ** Client: the reachable states *)

Section ClientReachable.
Import Client.

(** X23.  In every state a client reaches from [newClientCodec],
    whatever the operations and their results, every pending entry refers
    to a call of the store, two entries never refer to the same call, the
    [Done] of every call is a channel of the store, and no channel holds
    more signals than its capacity. *)
Theorem reachable_client_wf (os : list op) :
  (∀ k c, pending (exec_ops os newClientCodec) !! k = Some c →
          (c < length (calls (exec_ops os newClientCodec)))%nat) ∧
  (∀ k1 k2 c, pending (exec_ops os newClientCodec) !! k1 = Some c →
              pending (exec_ops os newClientCodec) !! k2 = Some c → k1 = k2) ∧
  (∀ c call, calls (exec_ops os newClientCodec) !! c = Some call →
             (Done call < length (chans (exec_ops os newClientCodec)))%nat) ∧
  (∀ d ch, chans (exec_ops os newClientCodec) !! d = Some ch →
           (length (chan_buf ch) ≤ chan_cap ch)%nat).
Proof. apply (exec_ops_wf os newClientCodec newClientCodec_wf). Qed.

(** X24.  On a client whose calls have all been made with a [nil]
    [done] or through [Call], [terminateCalls] never blocks: in whatever
    order it visits the pending table it returns, the client is shut down,
    every pending call has the error, nothing is written, and the pending
    table is left as it was: the entries are not removed. *)
Theorem terminateCalls_own_channels_returns (os : list op)
    (order : list (Z * nat)) (e : error) :
  Forall own_channel_op os →
  order ≡ₚ map_to_list (pending (exec_ops os newClientCodec)) →
  ∃ s',
    terminateCalls order e (exec_ops os newClientCodec) = Returns tt s' ∧
    shutdown s' = true ∧
    pending s' = pending (exec_ops os newClientCodec) ∧
    cc_written s' = cc_written (exec_ops os newClientCodec) ∧
    (∀ k c, pending (exec_ops os newClientCodec) !! k = Some c →
       ∃ call, calls (exec_ops os newClientCodec) !! c = Some call ∧
               calls s' !! c = Some (set_Error (Some e) call)).
Proof.
  intros Hos Hperm. set (s := exec_ops os newClientCodec) in *.
  pose proof (exec_ops_wf os newClientCodec newClientCodec_wf) as Hwf.
  fold s in Hwf.
  pose proof (own_channel_ops_signals_fit os Hos) as Hfit. fold s in Hfit.
  pose proof (client_wf_calls_valid s Hwf) as Hvalid.
  assert (Hperm2 : order.*2 ≡ₚ (map_to_list (pending s)).*2) by (by rewrite Hperm).
  unfold terminateCalls.
  destruct (terminate_loop_spec e order (set_shutdown true s))
    as (s' & Hloop & Hp & Hsh & _ & Hw & _ & Hcalls & _).
  { intros c Hc. apply Hvalid. by rewrite <- Hperm2. }
  { intros d ch Hch. specialize (Hfit d ch Hch).
    unfold targets in *. by rewrite Hperm2. }
  exists s'. split; [done|]. split; [by rewrite Hsh|]. split; [done|].
  split; [done|].
  intros k c Hk.
  assert (Hc : c ∈ order.*2).
  { rewrite Hperm2. apply list_elem_of_fmap. exists (k, c). split; [done|].
    by apply elem_of_map_to_list. }
  destruct (Hvalid c) as (call & ch & Hcall & Hch); [by rewrite <- Hperm2|].
  exists call. split; [done|].
  rewrite Hcalls, decide_True by done. simpl. by rewrite Hcall.
Qed.

Lemma terminateCalls_own_channels_returns_witness :
  ∃ s',
    terminateCalls [(2, 1%nat); (1, 0%nat)] (ErrorString "EOF")
      (exec_ops [OpGo "Foo.Sum" (Server.VInt 1) (Server.VInt 0) None None;
                 OpGo "Foo.Sum" (Server.VInt 2) (Server.VInt 0) None None]
         newClientCodec)
      = Returns tt s' ∧
    shutdown s' = true.
Proof.
  destruct (terminateCalls_own_channels_returns
              [OpGo "Foo.Sum" (Server.VInt 1) (Server.VInt 0) None None;
               OpGo "Foo.Sum" (Server.VInt 2) (Server.VInt 0) None None]
              [(2, 1%nat); (1, 0%nat)] (ErrorString "EOF"))
    as (s' & H1 & H2 & _).
  - repeat constructor.
  - vm_compute. reflexivity.
  - exists s'. split; [exact H1|exact H2].
Defined.

End ClientReachable.

(* --------------------------------------------------------------------- *)
(** ** Registry: the heartbeat helper, while POSTs fail *)

Lemma Heartbeat_loop_failures (fs : list string) : ∀ e rest posts,
  ∃ e', Registry.Heartbeat_loop true (Some e) ((Some <$> fs) ++ rest) posts
        = Registry.Heartbeat_loop true (Some e') rest (posts + length fs)%nat.
Proof.
  induction fs as [|f fs IH]; intros e rest posts.
  - exists e. simpl. by rewrite Nat.add_0_r.
  - rewrite fmap_cons.
    cbn [app Registry.Heartbeat_loop Registry.sendHeartbeat length].
    destruct (IH f rest (S posts)) as [e' He']. exists e'.
    rewrite He'. f_equal. lia.
Qed.

Lemma Heartbeat_interval_pos (duration : Z) :
  0 ≤ duration → ¬ Registry.Heartbeat_interval duration ≤ 0.
Proof.
  unfold Registry.Heartbeat_interval. intros Hd.
  case_decide; [unfold Second, Nanosecond|]; lia.
Qed.

(** X27.  With a registry URL that [http.NewRequest] accepts and an
    interval that is not negative, when its first POST fails, the heartbeat
    goroutine posts again at every tick for as long as the POSTs fail, and
    returns at the first POST that succeeds: with [n] failures after the
    first it has made [n + 2] POSTs, and the ticks after that are not used.
    While every POST fails it stays in its loop, waiting for the next
    tick.  With a negative interval the goroutine panics when it makes the
    ticker, after its first POST, whatever the result of that POST; with a
    URL that [http.NewRequest] refuses it panics before any POST. *)
Theorem Heartbeat_retries_until_success (duration : Z) (e : string)
    (fs : list string) (ticks : list (option string)) :
  0 ≤ duration →
  Registry.Heartbeat true duration (Some e) ((Some <$> fs) ++ None :: ticks)
    = (Registry.Heartbeat_interval duration,
       ((length fs + 2)%nat, Registry.Returned)) ∧
  Registry.Heartbeat true duration (Some e) (Some <$> fs)
    = (Registry.Heartbeat_interval duration,
       ((length fs + 1)%nat, Registry.Waiting)) ∧
  (∀ d first ticks', d < 0 →
     Registry.Heartbeat true d first ticks' = (d, (1%nat, Registry.Panicked))) ∧
  (∀ d first ticks',
     Registry.Heartbeat false d first ticks'
     = (Registry.Heartbeat_interval d, (0%nat, Registry.Panicked))).
Proof.
  intros Hd. pose proof (Heartbeat_interval_pos duration Hd) as Hpos.
  unfold Registry.Heartbeat. cbn [Registry.sendHeartbeat].
  split; [|split; [|split]].
  - rewrite decide_False by done. f_equal.
    destruct (Heartbeat_loop_failures fs e (None :: ticks) 1) as [e' ->].
    cbn [Registry.Heartbeat_loop Registry.sendHeartbeat].
    rewrite Heartbeat_loop_success. f_equal. lia.
  - rewrite decide_False by done. f_equal.
    pose proof (Heartbeat_loop_failures fs e [] 1) as [e' He'].
    rewrite app_nil_r in He'. rewrite He'. simpl. f_equal. lia.
  - intros d first ticks' Hneg. unfold Registry.Heartbeat_interval.
    rewrite decide_False by lia. by rewrite decide_True by lia.
  - done.
Qed.

Lemma Heartbeat_retries_until_success_witness :
  Registry.Heartbeat true 0 (Some "refused")
    [Some "refused"; Some "refused"; None; None]
  = (Second, (4%nat, Registry.Returned)).
Proof.
  assert (H0 : 0 ≤ 0) by lia.
  exact (proj1 (Heartbeat_retries_until_success 0 "refused"
                  ["refused"; "refused"] [None] H0)).
Defined.

(* --------------------------------------------------------------------- *)
(** ** Discovery: what Refresh stores *)

Section TrimSpace.
Import Strings.

Lemma strip_prefix_Some p s r :
  strip_prefix p s = Some r ↔ s = String.append p r.
Proof.
  revert s. induction p as [|a p IH]; intros s.
  - cbn [strip_prefix]. rewrite append_nil_l. naive_solver.
  - destruct s as [|b s]; cbn [strip_prefix]; rewrite append_cons; [done|].
    case_decide as Hab.
    + subst b. rewrite IH. naive_solver.
    + split; [done|]. intros [= -> _]. done.
Qed.

Lemma head_omap_Some {A B} (f : A → option B) (l : list A) (r : B) :
  head (omap f l) = Some r → ∃ x, x ∈ l ∧ f x = Some r.
Proof.
  induction l as [|x l IH]; [done|]. cbn [omap list_omap].
  destruct (f x) as [y|] eqn:E.
  - intros [= <-]. exists x. split; [by left|done].
  - intros H. destruct (IH H) as (x' & Hx' & Hf). exists x'. split; [by right|done].
Qed.

Lemma head_omap_None {A B} (f : A → option B) (l : list A) :
  head (omap f l) = None ↔ ∀ x, x ∈ l → f x = None.
Proof.
  induction l as [|x l IH]; cbn [omap list_omap].
  - split; [|done]. intros _ x Hx. by apply elem_of_nil in Hx.
  - destruct (f x) as [y|] eqn:E.
    + split; [done|]. intros H. specialize (H x (list_elem_of_here _ _)). congruence.
    + rewrite IH. split.
      * intros H x' [->|Hx']%elem_of_cons; eauto.
      * intros H x' Hx'. apply H. by right.
Qed.

Lemma space_encodings_nonempty p :
  p ∈ space_encodings → (1 ≤ String.length p)%nat.
Proof.
  unfold space_encodings. cbn. rewrite !elem_of_cons, elem_of_nil.
  intros H. repeat (destruct H as [-> | H]; [cbn; lia|]). done.
Qed.

Lemma rev_app_spec s1 s2 :
  String.rev_app s1 s2 = String.append (String.rev s1) s2.
Proof.
  unfold String.rev. revert s2. induction s1 as [|a s1 IH]; intros s2; [done|].
  cbn [String.rev_app]. rewrite IH, (IH (String a EmptyString)).
  by rewrite append_assoc.
Qed.

Lemma rev_cons a s :
  String.rev (String a s) = String.append (String.rev s) (String a EmptyString).
Proof. unfold String.rev at 1. cbn [String.rev_app]. apply rev_app_spec. Qed.

Lemma append_nil_r s : String.append s EmptyString = s.
Proof. induction s as [|a s IH]; [done|]. by rewrite append_cons, IH. Qed.

Lemma rev_append s1 s2 :
  String.rev (String.append s1 s2) = String.append (String.rev s2) (String.rev s1).
Proof.
  induction s1 as [|a s1 IH].
  - rewrite append_nil_l. change (String.rev EmptyString) with EmptyString.
    by rewrite append_nil_r.
  - rewrite append_cons, !rev_cons, IH. by rewrite append_assoc.
Qed.

Lemma rev_involutive s : String.rev (String.rev s) = s.
Proof.
  induction s as [|a s IH]; [done|].
  rewrite rev_cons, rev_append, IH. done.
Qed.

Lemma rev_length s : String.length (String.rev s) = String.length s.
Proof.
  induction s as [|a s IH]; [done|].
  rewrite rev_cons, length_append, IH. cbn. lia.
Qed.

Lemma strip_space_left_Some s r :
  strip_space_left s = Some r →
  ∃ p, p ∈ space_encodings ∧ s = String.append p r ∧
       (String.length r < String.length s)%nat.
Proof.
  unfold strip_space_left. intros (p & Hp & Hs)%head_omap_Some.
  apply strip_prefix_Some in Hs. exists p. split; [done|]. split; [done|].
  apply space_encodings_nonempty in Hp. rewrite Hs, length_append. lia.
Qed.

Lemma strip_space_right_Some s r :
  strip_space_right s = Some r →
  ∃ p, p ∈ space_encodings ∧ s = String.append r p ∧
       (String.length r < String.length s)%nat.
Proof.
  unfold strip_space_right.
  destruct (head (omap _ space_encodings)) as [r'|] eqn:E; [|done].
  intros [= <-]. apply head_omap_Some in E as (p & Hp & Hs).
  apply strip_prefix_Some in Hs. exists p. split; [done|].
  assert (s = String.append (String.rev r') p) as Heq.
  { rewrite <- (rev_involutive s), Hs, rev_append, rev_involutive. done. }
  split; [done|].
  apply space_encodings_nonempty in Hp.
  rewrite (f_equal String.length Heq), length_append. lia.
Qed.

Lemma strip_space_left_prefix t q :
  strip_space_left (String.append t q) = None → strip_space_left t = None.
Proof.
  unfold strip_space_left. rewrite !head_omap_None. intros H p Hp.
  destruct (strip_prefix p t) as [r|] eqn:E; [|done].
  apply strip_prefix_Some in E. specialize (H p Hp).
  assert (strip_prefix p (String.append t q) = Some (String.append r q)) as H'.
  { apply strip_prefix_Some. by rewrite E, append_assoc. }
  congruence.
Qed.

Lemma TrimLeft_loop_spec (n : nat) : ∀ s,
  (String.length s ≤ n)%nat →
  strip_space_left (TrimLeft_loop n s) = None ∧
  ∃ q, s = String.append q (TrimLeft_loop n s).
Proof.
  induction n as [|n IH]; intros s Hn.
  - destruct s; [|cbn in Hn; lia]. split; [done|]. by exists EmptyString.
  - cbn [TrimLeft_loop]. destruct (strip_space_left s) as [s'|] eqn:E.
    + apply strip_space_left_Some in E as (p & _ & -> & Hlen).
      destruct (IH s') as (H1 & q & H2); [lia|]. split; [done|].
      exists (String.append p q). by rewrite append_assoc, <- H2.
    + split; [done|]. by exists EmptyString.
Qed.

Lemma TrimRight_loop_spec (n : nat) : ∀ s,
  (String.length s ≤ n)%nat →
  strip_space_right (TrimRight_loop n s) = None ∧
  ∃ q, s = String.append (TrimRight_loop n s) q.
Proof.
  induction n as [|n IH]; intros s Hn.
  - destruct s; [|cbn in Hn; lia]. split; [done|]. by exists EmptyString.
  - cbn [TrimRight_loop]. destruct (strip_space_right s) as [s'|] eqn:E.
    + apply strip_space_right_Some in E as (p & _ & -> & Hlen).
      destruct (IH s') as (H1 & q & H2); [lia|]. split; [done|].
      exists (String.append q p). by rewrite <- append_assoc, <- H2.
    + split; [done|]. exists EmptyString. by rewrite append_nil_r.
Qed.

Lemma TrimLeft_loop_fix n s :
  strip_space_left s = None → TrimLeft_loop n s = s.
Proof. intros H. destruct n; [done|]. cbn [TrimLeft_loop]. by rewrite H. Qed.

Lemma TrimRight_loop_fix n s :
  strip_space_right s = None → TrimRight_loop n s = s.
Proof. intros H. destruct n; [done|]. cbn [TrimRight_loop]. by rewrite H. Qed.

(** What [TrimSpace] returns has no white space at either end, and is
    a piece of its argument. *)
Lemma TrimSpace_spec s :
  strip_space_left (TrimSpace s) = None ∧
  strip_space_right (TrimSpace s) = None ∧
  ∃ q1 q2, s = String.append q1 (String.append (TrimSpace s) q2).
Proof.
  unfold TrimSpace. cbv zeta.
  destruct (TrimLeft_loop_spec (String.length s) s) as (HL & q1 & H1); [done|].
  set (s1 := TrimLeft_loop (String.length s) s) in *.
  destruct (TrimRight_loop_spec (String.length s1) s1) as (HR & q2 & H2); [done|].
  set (t := TrimRight_loop (String.length s1) s1) in *.
  split; [|split; [done|]].
  - apply (strip_space_left_prefix t q2). by rewrite <- H2.
  - exists q1, q2. by rewrite <- H2.
Qed.

Lemma TrimSpace_idemp s : TrimSpace (TrimSpace s) = TrimSpace s.
Proof.
  destruct (TrimSpace_spec s) as (HL & HR & _).
  unfold TrimSpace at 1. cbv zeta.
  rewrite (TrimLeft_loop_fix _ _ HL). by apply TrimRight_loop_fix.
Qed.

Lemma contains_append s1 s2 c :
  contains (String.append s1 s2) c = contains s1 c || contains s2 c.
Proof.
  induction s1 as [|a s1 IH]; [done|].
  rewrite append_cons. cbn [contains]. by rewrite IH, orb_assoc.
Qed.

Lemma Split_fields s sep x :
  x ∈ Split s sep → contains x sep = false.
Proof.
  revert x. induction s as [|a s IH]; intros x; cbn [Split].
  - by intros ->%list_elem_of_singleton.
  - case_decide as Ha.
    + intros [->|Hx]%elem_of_cons; [done|]. by apply IH.
    + destruct (Split s sep) as [|y ys] eqn:E.
      * intros ->%list_elem_of_singleton. cbn [contains].
        by rewrite bool_decide_eq_false_2.
      * intros [->|Hx]%elem_of_cons.
        -- cbn [contains]. rewrite bool_decide_eq_false_2 by done.
           apply IH. by left.
        -- apply IH. by right.
Qed.

End TrimSpace.

Section ParseServers.
Import RegistryDiscovery.

(** X25.  Whatever header the registry answers with, the addresses
    [Refresh] stores are clean: none is empty, none has a comma, and none
    has white space at either end, so that trimming it again changes
    nothing. *)
Theorem parse_servers_clean (header : string) :
  Forall clean (parse_servers header) ∧
  (∀ a, a ∈ parse_servers header →
        Strings.strip_space_left a = None ∧ Strings.strip_space_right a = None).
Proof.
  unfold parse_servers.
  assert (∀ a, a ∈ filter (λ s, s ≠ "")
                     (Strings.TrimSpace <$> Strings.Split header ",") →
               a ≠ "" ∧ ∃ x, a = Strings.TrimSpace x ∧
                             Strings.contains x "," = false) as H.
  { intros a [Hne Ha]%list_elem_of_filter.
    apply list_elem_of_fmap in Ha as (x & -> & Hx).
    split; [done|]. exists x. split; [done|]. by eapply Split_fields. }
  split.
  - apply Forall_forall. intros a Ha. destruct (H a Ha) as (Hne & x & -> & Hc).
    split; [done|]. split; [|apply TrimSpace_idemp].
    destruct (TrimSpace_spec x) as (_ & _ & q1 & q2 & Hx).
    rewrite Hx, !contains_append in Hc.
    apply orb_false_iff in Hc as [_ Hc]. by apply orb_false_iff in Hc as [Hc _].
  - intros a Ha. destruct (H a Ha) as (_ & x & -> & _).
    destruct (TrimSpace_spec x) as (HL & HR & _). done.
Qed.

End ParseServers.

(* --------------------------------------------------------------------- *)
(** ** From the registry to the address a call goes to *)

Section RegistryToGet.
Import Registry RegistryHTTP RegistryDiscovery.
Context {Rand : Type} (Intn : Rand → Z → Z * Rand).


End RegistryToGet.

